(** * Pillow's TIFF plugin: directory codec, frame cursor and appending writer

    A shallow embedding of the parts of [src/PIL/TiffImagePlugin.py] that
    deal with the Image File Directory: the rational type, the ASCII codec,
    tag-type inference, directory serialisation, the multi-page frame cursor
    and the appending writer that relocates a page inside an existing file.

    Python integers are [Z]; [bytes] objects are [list byte]; a [str] is the
    list of its code points.  Code that raises returns a [result]; code that
    mutates an object runs in a state monad whose state survives an
    exception, as the attributes of a Python object do. *)

From Stdlib Require Import ZArith Lia Bool Ascii String DecimalString.
From Stdlib Require DecimalPos DecimalZ.
From Stdlib.Strings Require Import Byte.
From stdpp Require Import base list gmap strings sorting.

Local Open Scope Z_scope.

(** ** Exceptions and results *)

Inductive exn : Type :=
| RuntimeError (msg : string)
| EOFError (msg : string)
| ValueError (msg : string)
| OSError (msg : string)
| SyntaxError (msg : string)
| struct_error
| ZeroDivisionError
| IndexError
| KeyError
| TypeError
| AttributeError
| AssertionError
| OverflowError.

Inductive result (A : Type) : Type :=
| Ok (a : A)
| Raise (e : exn).
Arguments Ok {A} a.
Arguments Raise {A} e.

Definition rbind {A B} (r : result A) (k : A -> result B) : result B :=
  match r with
  | Ok a => k a
  | Raise e => Raise e
  end.

Declare Scope result_scope.
Delimit Scope result_scope with result.
Notation "x <~ r ;; k" := (rbind r (fun x => k))
  (at level 100, r at next level, right associativity) : result_scope.
Local Open Scope result_scope.

Definition from_option {A} (e : exn) (o : option A) : result A :=
  match o with
  | Some a => Ok a
  | None => Raise e
  end.

(** A loop over a list that stops at the first exception. *)
Fixpoint foldM {A B} (step : A -> B -> result A) (acc : A) (l : list B)
  : result A :=
  match l with
  | [] => Ok acc
  | x :: rest => acc' <~ step acc x ;; foldM step acc' rest
  end.

Fixpoint mapM {A B} (g : A -> result B) (l : list A) : result (list B) :=
  match l with
  | [] => Ok []
  | x :: rest => y <~ g x ;; ys <~ mapM g rest ;; Ok (y :: ys)
  end.

(** Statements of a method: the object's fields are threaded through, and
    they keep whatever was written to them when an exception escapes. *)
Definition M (S A : Type) : Type := S -> result A * S.

Definition ret {S A} (a : A) : M S A := fun s => (Ok a, s).
Definition raise {S A} (e : exn) : M S A := fun s => (Raise e, s).
Definition bind {S A B} (m : M S A) (k : A -> M S B) : M S B :=
  fun s => match m s with
           | (Ok a, s') => k a s'
           | (Raise e, s') => (Raise e, s')
           end.
Definition get {S} : M S S := fun s => (Ok s, s).
Definition gets {S A} (p : S -> A) : M S A := fun s => (Ok (p s), s).
Definition modify {S} (g : S -> S) : M S unit := fun s => (Ok tt, g s).
Definition lift {S A} (r : result A) : M S A := fun s => (r, s).

Declare Scope monad_scope.
Delimit Scope monad_scope with monad.
Notation "x <- m ;; k" := (bind m (fun x => k))
  (at level 100, m at next level, right associativity) : monad_scope.
Notation "m ;;; k" := (bind m (fun _ => k))
  (at level 100, right associativity) : monad_scope.
Local Open Scope monad_scope.

(** [for _ in range(n): body] *)
Fixpoint for_range {S} (n : nat) (body : M S unit) : M S unit :=
  match n with
  | O => ret tt
  | S n' => body ;;; for_range n' body
  end.

(** ** [struct.pack] and [struct.unpack] for the integer formats

    With an explicit byte-order prefix ("<" or ">") the formats [H], [L] and
    [Q] are 2, 4 and 8 bytes wide without padding, and [b], [h], [l], [q]
    are their signed (two's complement) counterparts of 1, 2, 4 and 8
    bytes.  Packing a value outside the range of the format and unpacking a
    buffer of the wrong length both raise [struct.error]. *)

Inductive Endian : Type := LittleEndian | BigEndian.

Inductive Fmt : Type :=
| fmt_H | fmt_L | fmt_Q
| fmt_b | fmt_h | fmt_l | fmt_q.

Definition calcsize (c : Fmt) : nat :=
  match c with
  | fmt_b => 1%nat
  | fmt_H | fmt_h => 2%nat
  | fmt_L | fmt_l => 4%nat
  | fmt_Q | fmt_q => 8%nat
  end.

Definition is_signed (c : Fmt) : bool :=
  match c with
  | fmt_b | fmt_h | fmt_l | fmt_q => true
  | _ => false
  end.

Definition byte_of_Z (z : Z) : byte :=
  match Byte.of_N (Z.to_N (z mod 256)) with
  | Some b => b
  | None => x00
  end.

Definition Z_of_byte (b : byte) : Z := Z.of_N (Byte.to_N b).

#[global] Instance byte_eq_decision : EqDecision byte := byte_eq_dec.

Fixpoint le_bytes (n : nat) (v : Z) : list byte :=
  match n with
  | O => []
  | S n' => byte_of_Z v :: le_bytes n' (v / 256)
  end.

Fixpoint le_value (bs : list byte) : Z :=
  match bs with
  | [] => 0
  | b :: rest => Z_of_byte b + 256 * le_value rest
  end.

Definition in_order (e : Endian) (bs : list byte) : list byte :=
  match e with LittleEndian => bs | BigEndian => rev bs end.

Definition fmt_bits (c : Fmt) : Z := 8 * Z.of_nat (calcsize c).

Definition fmt_min (c : Fmt) : Z :=
  if is_signed c then - 2 ^ (fmt_bits c - 1) else 0.

Definition fmt_max (c : Fmt) : Z :=
  if is_signed c then 2 ^ (fmt_bits c - 1) else 2 ^ fmt_bits c.

Definition pack (e : Endian) (c : Fmt) (v : Z) : result (list byte) :=
  if (fmt_min c <=? v) && (v <? fmt_max c)
  then Ok (in_order e (le_bytes (calcsize c) (v mod 2 ^ fmt_bits c)))
  else Raise struct_error.

Definition unpack (e : Endian) (c : Fmt) (bs : list byte) : result Z :=
  if Nat.eqb (length bs) (calcsize c)
  then
    let u := le_value (in_order e bs) in
    Ok (if is_signed c && (fmt_max c <=? u) then u - 2 ^ fmt_bits c else u)
  else Raise struct_error.

(** ** A seekable byte stream

    [read] returns what is left when fewer bytes remain; [write] overwrites
    in place, extends the stream at its end and fills a gap left by a seek
    past the end with NUL bytes.  Seeking to a negative position is an
    [OSError]. *)

Record stream : Type := { sdata : list byte; spos : Z }.

Definition stream_tell (f : stream) : Z := spos f.

Definition stream_seek (pos : Z) (f : stream) : result stream :=
  if pos <? 0 then Raise (OSError "Invalid argument")
  else Ok {| sdata := sdata f; spos := pos |}.

Definition stream_seek_cur (delta : Z) (f : stream) : result stream :=
  stream_seek (spos f + delta) f.

Definition stream_seek_end (delta : Z) (f : stream) : result stream :=
  stream_seek (Z.of_nat (length (sdata f)) + delta) f.

Definition stream_read (n : Z) (f : stream) : list byte * stream :=
  let bs := take (Z.to_nat n) (drop (Z.to_nat (spos f)) (sdata f)) in
  (bs, {| sdata := sdata f; spos := spos f + Z.of_nat (length bs) |}).

Definition stream_write (bs : list byte) (f : stream) : Z * stream :=
  let p := Z.to_nat (spos f) in
  let padded := sdata f ++ replicate (p - length (sdata f)) x00 in
  (Z.of_nat (length bs),
   {| sdata := take p padded ++ bs ++ drop (p + length bs) padded;
      spos := spos f + Z.of_nat (length bs) |}).

(** What [ImageFileDirectory_v2.save] asks of the object it writes to:
    [tell] and [write].  A plain stream has them, and so has the appending
    writer, which answers [tell] relative to the page it is writing. *)
Class FileLike (F : Type) : Type := {
  fp_tell : F -> Z;
  fp_write : list byte -> F -> Z * F
}.

#[global] Instance stream_FileLike : FileLike stream :=
  {| fp_tell := stream_tell; fp_write := stream_write |}.

(** ** Python's [fractions.Fraction] on integers

    [make n d] is [Fraction(n, d)]: the pair is divided by its greatest
    common divisor and the sign is carried by the numerator.
    [limit_denominator] is the library's continued-fraction search; its
    [while True] loop divides by [d], which shrinks at every turn, so
    [S (Z.abs_nat d)] turns are enough (see [limit_loop_fuel]). *)

Module Fraction.

Record t : Type := { numerator : Z; denominator : Z }.

Definition make (n d : Z) : result t :=
    if d =? 0 then Raise ZeroDivisionError
    else
      let g := Z.gcd n d in
      let g := if d <? 0 then - g else g in
      Ok {| numerator := n / g; denominator := d / g |}.

Definition of_int (n : Z) : t := {| numerator := n; denominator := 1 |}.

  (** The state of the loop is [(p0, q0, p1, q1, n, d)]; [None] means the
      fuel ran out. *)
Fixpoint limit_loop (fuel : nat) (max_denominator p0 q0 p1 q1 n d : Z)
    : option (result (Z * Z * Z * Z * Z * Z)) :=
    match fuel with
    | O => None
    | S fuel' =>
        if d =? 0 then Some (Raise ZeroDivisionError)
        else
          let a := n / d in
          let q2 := q0 + a * q1 in
          if max_denominator <? q2 then Some (Ok (p0, q0, p1, q1, n, d))
          else limit_loop fuel' max_denominator p1 q1 (p0 + a * p1) q2
                          d (n - a * d)
    end.

Definition limit_denominator (self : t) (max_denominator : Z) : result t :=
    if max_denominator <? 1
    then Raise (ValueError "max_denominator should be at least 1")
    else if denominator self <=? max_denominator then Ok self
    else
      match limit_loop (S (Z.abs_nat (denominator self))) max_denominator
                       0 1 1 0 (numerator self) (denominator self) with
      | None => Raise (RuntimeError "unreachable")
      | Some (Raise e) => Raise e
      | Some (Ok (p0, q0, p1, q1, n, d)) =>
          if q1 =? 0 then Raise ZeroDivisionError
          else
            let k := (max_denominator - q0) / q1 in
            if 2 * d * (q0 + k * q1) <=? denominator self
            then Ok {| numerator := p1; denominator := q1 |}
            else Ok {| numerator := p0 + k * p1; denominator := q0 + k * q1 |}
      end.

Definition lt0 (self : t) : bool := numerator self <? 0.

End Fraction.

(** ** [IFDRational]

    The constructor is modelled for an integer [value], which is what the
    loaders pass ([IFDRational(a, b)] in [load_rational]). *)

Module IFDRational.

Inductive value : Type :=
  | nan
  | exact (q : Fraction.t).

Record t : Type := { _numerator : Z; _denominator : Z; _val : value }.

Definition __init__ (value denominator : Z) : t :=
    {| _numerator := value;
       _denominator := denominator;
       _val :=
         if denominator =? 0 then nan
         else if denominator =? 1 then exact (Fraction.of_int value)
         else match Fraction.make value denominator with
              | Ok q => exact q
              | Raise _ => nan
              end |}.

Definition numerator (self : t) : Z := _numerator self.
Definition denominator (self : t) : Z := _denominator self.

Definition limit_rational (self : t) (max_denominator : Z) : result (Z * Z) :=
    if denominator self =? 0 then Ok (numerator self, denominator self)
    else
      match _val self with
      | nan => Raise AssertionError
      | exact q =>
          rbind (Fraction.limit_denominator q max_denominator) (fun f =>
          Ok (Fraction.numerator f, Fraction.denominator f))
      end.

  (** [self < 0], delegated to [_val]: false for the NaN. *)
Definition __lt__0 (self : t) : bool :=
    match _val self with
    | nan => false
    | exact q => Fraction.lt0 q
    end.

End IFDRational.

(** ** Python values stored in a directory

    A [str] is the list of its code points.  A float is carried by its
    binary64 bit pattern; no arithmetic on floats is modelled. *)

Definition str : Type := list Z.

#[warnings="-register-all"] Inductive pyval : Type :=
| PyInt (z : Z)
| PyFloat (bits : Z)
| PyStr (s : str)
| PyBytes (b : list byte)
| PyRational (r : IFDRational.t)
| PyTuple (vs : list pyval)
| PyDict (items : list (Z * pyval)).

Definition is_int (v : pyval) : bool :=
  match v with PyInt _ => true | _ => false end.
Definition is_float (v : pyval) : bool :=
  match v with PyFloat _ => true | _ => false end.
Definition is_str (v : pyval) : bool :=
  match v with PyStr _ => true | _ => false end.
Definition is_bytes (v : pyval) : bool :=
  match v with PyBytes _ => true | _ => false end.
Definition is_IFDRational (v : pyval) : bool :=
  match v with PyRational _ => true | _ => false end.
Definition is_tuple (v : pyval) : bool :=
  match v with PyTuple _ => true | _ => false end.
Definition is_dict (v : pyval) : bool :=
  match v with PyDict _ => true | _ => false end.

(** [all(p(v) for v in values)] *)
Definition all (p : pyval -> bool) (values : list pyval) : bool :=
  forallb p values.

(** ** A Python [dict] with integer keys

    Items are kept in insertion order; a key occurs once. *)

Abbreviation dict V := (list (Z * V)).

Definition dict_contains {V} (k : Z) (d : dict V) : bool :=
  existsb (fun kv => fst kv =? k) d.

Fixpoint dict_get {V} (k : Z) (d : dict V) : option V :=
  match d with
  | [] => None
  | (k', v) :: rest => if k' =? k then Some v else dict_get k rest
  end.

Fixpoint dict_set {V} (k : Z) (v : V) (d : dict V) : dict V :=
  match d with
  | [] => [(k, v)]
  | (k', v') :: rest =>
      if k' =? k then (k, v) :: rest else (k', v') :: dict_set k v rest
  end.

(** [d.pop(k, None)] with the returned value dropped. *)
Definition dict_pop {V} (k : Z) (d : dict V) : dict V :=
  filter (fun kv => fst kv ≠ k) d.

Definition dict_keys {V} (d : dict V) : list Z := map fst d.

(** TIFF type codes of [TiffTags]. *)
Module TiffTags.
Definition BYTE : Z := 1.
Definition ASCII : Z := 2.
Definition SHORT : Z := 3.
Definition LONG : Z := 4.
Definition RATIONAL : Z := 5.
Definition SIGNED_BYTE : Z := 6.
Definition UNDEFINED : Z := 7.
Definition SIGNED_SHORT : Z := 8.
Definition SIGNED_LONG : Z := 9.
Definition SIGNED_RATIONAL : Z := 10.
Definition FLOAT : Z := 11.
Definition DOUBLE : Z := 12.
Definition IFD : Z := 13.
Definition LONG8 : Z := 16.
End TiffTags.

Definition STRIPOFFSETS : Z := 273.

(** ** File headers

    The byte-order marks and the magic prefixes a TIFF file may start
    with. *)

Definition II : list byte := [x49; x49].  (* little-endian (Intel style) *)
Definition MM : list byte := [x4d; x4d].  (* big-endian (Motorola style) *)

Definition PREFIXES : list (list byte) :=
  [ MM ++ [x00; x2a];  (* Valid TIFF header with big-endian byte order *)
    II ++ [x2a; x00];  (* Valid TIFF header with little-endian byte order *)
    MM ++ [x2a; x00];  (* Invalid TIFF header, assume big-endian *)
    II ++ [x00; x2a];  (* Invalid TIFF header, assume little-endian *)
    MM ++ [x00; x2b];  (* BigTIFF with big-endian byte order *)
    II ++ [x2b; x00]   (* BigTIFF with little-endian byte order *) ].

(** [data.startswith(prefix)] *)
Definition startswith (data prefix : list byte) : bool :=
  bool_decide (take (length prefix) data = prefix).

Definition _accept (prefix : list byte) : bool :=
  existsb (startswith prefix) PREFIXES.

(** What [TiffTags.lookup(tag, group)] returns, as far as [_setitem] reads
    it: the type and the length the tag dictionary gives for the tag
    ([None] when it gives none) and the method [cvt_enum].  The tag
    dictionary lives in [TiffTags.py]. *)
Record TagInfo : Type := {
  info_type : option Z;
  info_length : option Z;
  cvt_enum : str -> pyval
}.

(** ** The tag directory [ImageFileDirectory_v2] *)

Module ImageFileDirectory_v2.

Record t : Type := {
  _endian : Endian;
  _bigtiff : bool;
  group : option Z;
  tagtype : dict Z;
  _tags_v1 : dict pyval;  (* will remain empty if legacy_api is false *)
  _tags_v2 : dict pyval;  (* main tag storage *)
  _tagdata : dict (list byte);
  legacy_api : bool
}.

Definition __contains__ (self : t) (tag : Z) : bool :=
  dict_contains tag (_tags_v2 self) || dict_contains tag (_tagdata self).

Definition __delitem__ (self : t) (tag : Z) : t :=
  {| _endian := _endian self; _bigtiff := _bigtiff self; group := group self;
     tagtype := tagtype self;
     _tags_v1 := dict_pop tag (_tags_v1 self);
     _tags_v2 := dict_pop tag (_tags_v2 self);
     _tagdata := dict_pop tag (_tagdata self);
     legacy_api := legacy_api self |}.

(** [self._tags_v2 = tags] *)
Definition with_tags_v2 (tags : dict pyval) (self : t) : t :=
  {| _endian := _endian self; _bigtiff := _bigtiff self; group := group self;
     tagtype := tagtype self; _tags_v1 := _tags_v1 self; _tags_v2 := tags;
     _tagdata := _tagdata self; legacy_api := legacy_api self |}.

(** *** Type inference of [_setitem] (the branch taken when the tag
    dictionary knows no type for the tag) *)

(** The three flags [(short, signed_short, long)] after one more value. *)
Definition int_flags_step (flags : bool * bool * bool) (v : Z)
  : bool * bool * bool :=
  let '(short, signed_short, long) := flags in
  let short :=
    if short && negb ((0 <=? v) && (v <? 2 ^ 16)) then false else short in
  let signed_short :=
    if signed_short && negb ((- 2 ^ 15 <? v) && (v <? 2 ^ 15))
    then false else signed_short in
  let long := if long && (v <? 0) then false else long in
  (short, signed_short, long).

Definition int_value (v : pyval) : Z :=
  match v with PyInt z => z | _ => 0 end.

Definition rational_lt0 (v : pyval) : bool :=
  match v with PyRational r => IFDRational.__lt__0 r | _ => false end.

Definition infer_tagtype (values : list pyval) : Z :=
  if all is_IFDRational values then
    if existsb rational_lt0 values
    then TiffTags.SIGNED_RATIONAL
    else TiffTags.RATIONAL
  else if all is_int values then
    let '(short, signed_short, long) :=
      fold_left int_flags_step (map int_value values) (true, true, true) in
    if short then TiffTags.SHORT
    else if signed_short then TiffTags.SIGNED_SHORT
    else if long then TiffTags.LONG
    else TiffTags.SIGNED_LONG
  else if all is_float values then TiffTags.DOUBLE
  else if all is_str values then TiffTags.ASCII
  else if all is_bytes values then TiffTags.BYTE
  else TiffTags.UNDEFINED.

(** [values = [value] if isinstance(value, basetypes) else value] *)
Definition values_of (value : pyval) : list pyval :=
  match value with
  | PyTuple vs => vs
  | PyDict items => map (fun kv => PyInt (fst kv)) items
  | _ => [value]
  end.

(** The part of [_setitem] that settles [self.tagtype[tag]]; [info_type]
    is [TiffTags.lookup(tag, self.group).type]. *)
Definition _setitem_tagtype (self : t) (info_type : option Z) (tag : Z)
  (value : pyval) : dict Z :=
  let values := values_of value in
  if negb (dict_contains tag (tagtype self)) then
    match info_type with
    | Some ty =>
        if negb (ty =? 0) then dict_set tag ty (tagtype self)
        else dict_set tag (infer_tagtype values) (tagtype self)
    | None => dict_set tag (infer_tagtype values) (tagtype self)
    end
  else tagtype self.

(** *** The ASCII, BYTE and UNDEFINED codecs *)

Definition endswith_nul (data : list byte) : bool :=
  match last data with
  | Some b => bool_decide (b = x00)
  | None => false
  end.

(** [bytes.decode("latin-1", "replace")]: every byte is a code point. *)
Definition decode_latin1 (data : list byte) : str := map Z_of_byte data.

(** [str.encode("ascii", "replace")]: a code point outside ASCII becomes
    a question mark. *)
Definition encode_ascii (s : str) : list byte :=
  map (fun c => if (0 <=? c) && (c <? 128) then byte_of_Z c else x3f) s.

Definition load_string (data : list byte) : str :=
  let data :=
    if endswith_nul data then take (length data - 1) data else data in
  decode_latin1 data.

(** [str(value)] and [repr(value)] for an integer: its decimal digits.
    The interpreter refuses the conversion for an integer of more than
    [sys.get_int_max_str_digits()] digits, 4300 unless it was started or
    set otherwise; the sign does not count. *)
Definition int_max_str_digits : Z := 4300.

Definition within_str_digits (z : Z) : bool :=
  Z.abs z <? 10 ^ int_max_str_digits.
Arguments within_str_digits : simpl never.

Definition code_points (text : string) : str :=
  map (fun a => Z.of_N (Ascii.N_of_ascii a)) (String.list_ascii_of_string text).

Definition decimal (z : Z) : str :=
  code_points (DecimalString.NilZero.string_of_int (Z.to_int z)).

Definition str_of_int (z : Z) : result str :=
  if within_str_digits z then Ok (decimal z)
  else Raise (ValueError "Exceeds the limit (4300 digits) for integer string conversion; use sys.set_int_max_str_digits() to increase the limit").

Definition write_string (value : pyval) : result (list byte) :=
  value <~ match value with
           | PyInt z => s <~ str_of_int z ;; Ok (PyStr s)
           | _ => Ok value
           end ;;
  match value with
  | PyBytes b => Ok (b ++ [x00])
  | PyStr s => Ok (encode_ascii s ++ [x00])
  | _ => Raise AttributeError
  end.

(** What printing a value for a message can raise: [repr] of an integer
    is subject to the limit above, and [IFDRational.__repr__] is
    [str(float(self._val))], where the float of a [Fraction] is the true
    division of its numerator by its denominator, correctly rounded, which
    raises [OverflowError] when the result is beyond the largest float
    (from [2^1024 - 2^970] on).  Strings, bytes and floats always print;
    the elements of a tuple and the keys and values of a dict are printed
    in order. *)
Definition float_of_fraction_overflows (q : Fraction.t) : bool :=
  (2 ^ 1024 - 2 ^ 970) * Z.abs (Fraction.denominator q)
  <=? Z.abs (Fraction.numerator q).

Definition repr_rational (r : IFDRational.t) : result unit :=
  match IFDRational._val r with
  | IFDRational.nan => Ok tt
  | IFDRational.exact q =>
      if Fraction.denominator q =? 0 then Raise ZeroDivisionError
      else if float_of_fraction_overflows q then Raise OverflowError
      else Ok tt
  end.

Fixpoint repr_ (v : pyval) : result unit :=
  match v with
  | PyInt z => _ <~ str_of_int z ;; Ok tt
  | PyRational r => repr_rational r
  | PyTuple vs =>
      (fix elements (l : list pyval) : result unit :=
         match l with
         | [] => Ok tt
         | x :: rest => _ <~ repr_ x ;; elements rest
         end) vs
  | PyDict items =>
      (fix pairs (l : list (Z * pyval)) : result unit :=
         match l with
         | [] => Ok tt
         | (k, x) :: rest =>
             _ <~ str_of_int k ;; _ <~ repr_ x ;; pairs rest
         end) items
  | PyFloat _ | PyStr _ | PyBytes _ => Ok tt
  end.

(** *** Serialisation: [tobytes] *)

Record entry : Type := {
  e_tag : Z;
  e_typ : Z;
  e_count : Z;
  e_value : list byte;
  e_data : list byte
}.

Definition _pack (self : t) (c : Fmt) (v : Z) : result (list byte) :=
  pack (_endian self) c v.

Definition _unpack (self : t) (c : Fmt) (data : list byte) : result Z :=
  unpack (_endian self) c data.

(** [data.ljust(n, b"\0")] *)
Definition ljust (n : nat) (data : list byte) : list byte :=
  data ++ replicate (n - length data) x00.

(** The elements a [for] loop sees in what a loader returned. *)
Definition iterate (v : pyval) : result (list pyval) :=
  match v with
  | PyTuple vs => Ok vs
  | PyBytes b => Ok (map (fun x => PyInt (Z_of_byte x)) b)
  | PyStr s => Ok (map (fun c => PyStr [c]) s)
  | PyDict items => Ok (map (fun kv => PyInt (fst kv)) items)
  | _ => Raise TypeError
  end.

(** [sorted(d.items())]: the keys of a dict are distinct, so the pairs are
    ordered by their key alone. *)
Definition key_le (x y : Z * pyval) : Prop := fst x <= fst y.

#[global] Instance key_le_dec : RelDecision key_le.
Proof. intros x y. unfold key_le. apply _. Defined.

Definition sorted_items (d : dict pyval) : list (Z * pyval) :=
  merge_sort key_le d.

Definition fmt (self : t) : Fmt := if _bigtiff self then fmt_Q else fmt_L.
Definition fmt_size (self : t) : nat := if _bigtiff self then 8%nat else 4%nat.
Definition entry_size (self : t) : Z := if _bigtiff self then 20 else 12.

(** ["HHQ8s"] or ["HHL4s"]: an [s] field is cut or NUL-filled to its
    width. *)
Definition pack_entry (self : t) (e : entry) : result (list byte) :=
  tag <~ _pack self fmt_H (e_tag e) ;;
  typ <~ _pack self fmt_H (e_typ e) ;;
  count <~ _pack self (fmt self) (e_count e) ;;
  Ok (tag ++ typ ++ count ++ take (fmt_size self) (ljust (fmt_size self) (e_value e))).

(** One block of pass 3. *)
Definition aux_block (e : entry) : list byte :=
  e_data e ++ (if Z.odd (Z.of_nat (length (e_data e))) then [x00] else []).

Section tobytes.

(** The two dispatch tables are filled when the class is built, one entry
    per TIFF type; a type without an entry is a [KeyError].  A handler
    uses its [self] only to call [self._pack] or [self._unpack], that is
    for the byte order, which is what it receives here.  [py_add] is
    Python's [val + offset].  [sub_ifd_tobytes endian bigtiff tag items
    offset] stands for the bytes of the nested directory built from a
    dict-valued LONG tag: a directory with the header of [self] and group
    [tag], filled by [ifd[ifd_tag] = ifd_value] for every item (which
    consults the tag dictionary [TiffTags]) and serialised by
    [ifd.tobytes(offset)]. *)
Variable _write_dispatch :
  Z -> option (Endian -> list pyval -> result (list byte)).
Variable _load_dispatch :
  Z -> option (Z * (Endian -> list byte -> bool -> result pyval)).
Variable py_add : pyval -> Z -> result pyval.
Variable sub_ifd_tobytes :
  Endian -> bool -> Z -> list (Z * pyval) -> Z -> result (list byte).

(** The payload of one tag: its type, its count and its bytes. *)
Definition write_values (self : t) (typ : Z) (values : list pyval)
  : result (Z * Z * list byte) :=
  w <~ from_option KeyError (_write_dispatch typ) ;;
  data <~ w (_endian self) values ;;
  (* count is sum of lengths for string and arbitrary data *)
  let count :=
    if bool_decide (typ ∈ [TiffTags.BYTE; TiffTags.ASCII; TiffTags.UNDEFINED])
    then Z.of_nat (length data)
    else Z.of_nat (length values) in
  Ok (typ, count, data).

(** One turn of pass 1 up to the test for the slot.  The two debug
    messages are built whether or not they are logged: the first prints the
    value before it is written, the second the tag and its type. *)
Definition encode_tag (self : t) (tag : Z) (value : pyval) (offset : Z)
  : result (Z * Z * list byte) :=
  typ <~ from_option KeyError (dict_get tag (tagtype self)) ;;
  _ <~ repr_ value ;;
  p <~ match value with
       | PyDict items =>
           if typ =? TiffTags.LONG then
             data <~ sub_ifd_tobytes (_endian self) (_bigtiff self) tag items
                                     offset ;;
             Ok (typ, 1, data)
           else write_values self typ [value]
       | PyTuple vs => write_values self typ vs
       | _ => write_values self typ [value]
       end ;;
  _ <~ str_of_int tag ;;
  _ <~ str_of_int typ ;;
  Ok p.

Record pass1_state : Type := {
  entries : list entry;
  offset : Z;
  stripoffsets : option nat
}.

(** pass 1: convert tags to binary format *)
Definition pass1_step (self : t) (st : pass1_state) (item : Z * pyval)
  : result pass1_state :=
  let tag := fst item in
  let value := snd item in
  let stripoffsets :=
    if tag =? STRIPOFFSETS then Some (length (entries st))
    else stripoffsets st in
  p <~ encode_tag self tag value (offset st) ;;
  let '(typ, count, data) := p in
  (* figure out if data fits into the entry *)
  if (length data <=? fmt_size self)%nat then
    Ok {| entries := entries st ++
            [ {| e_tag := tag; e_typ := typ; e_count := count;
                 e_value := ljust (fmt_size self) data; e_data := [] |} ];
          offset := offset st;
          stripoffsets := stripoffsets |}
  else
    v <~ _pack self (fmt self) (offset st) ;;
    Ok {| entries := entries st ++
            [ {| e_tag := tag; e_typ := typ; e_count := count;
                 e_value := v; e_data := data |} ];
          (* pad to word *)
          offset := offset st + (Z.of_nat (length data) + 1) / 2 * 2;
          stripoffsets := stripoffsets |}.

Definition pass1 (self : t) (offset : Z) : result pass1_state :=
  foldM (pass1_step self)
        {| entries := []; offset := offset; stripoffsets := None |}
        (sorted_items (_tags_v2 self)).

(** update strip offset data to point beyond auxiliary data *)
Definition patch_stripoffsets (self : t) (st : pass1_state)
  : result (list entry) :=
  match stripoffsets st with
  | None => Ok (entries st)
  | Some i =>
      e <~ from_option IndexError (entries st !! i) ;;
      if negb (Nat.eqb (length (e_data e)) 0) then
        h <~ from_option KeyError (_load_dispatch (e_typ e)) ;;
        loaded <~ snd h (_endian self) (e_data e) (legacy_api self) ;;
        vals <~ iterate loaded ;;
        values <~ mapM (fun val => py_add val (offset st)) vals ;;
        w <~ from_option KeyError (_write_dispatch (e_typ e)) ;;
        data <~ w (_endian self) values ;;
        Ok (<[ i := {| e_tag := e_tag e; e_typ := e_typ e;
                       e_count := e_count e; e_value := e_value e;
                       e_data := data |} ]> (entries st))
      else
        v <~ _unpack self (fmt self) (e_value e) ;;
        value <~ _pack self (fmt self) (v + offset st) ;;
        Ok (<[ i := {| e_tag := e_tag e; e_typ := e_typ e;
                       e_count := e_count e; e_value := value;
                       e_data := e_data e |} ]> (entries st))
  end.

(** The entries as passes 2 and 3 see them. *)
Definition tobytes_entries (self : t) (offset : Z) : result (list entry) :=
  let n := Z.of_nat (length (_tags_v2 self)) in
  result_ <~ _pack self (if _bigtiff self then fmt_Q else fmt_H) n ;;
  let offset :=
    offset + Z.of_nat (length result_) + n * entry_size self
    + Z.of_nat (fmt_size self) in
  st <~ pass1 self offset ;;
  patch_stripoffsets self st.

Definition tobytes (self : t) (offset : Z) : result (list byte) :=
  let n := Z.of_nat (length (_tags_v2 self)) in
  result_ <~ _pack self (if _bigtiff self then fmt_Q else fmt_H) n ;;
  entries <~ tobytes_entries self offset ;;
  (* pass 2: write entries to file *)
  table <~ mapM (pack_entry self) entries ;;
  (* -- overwrite here for multi-page -- *)
  end_of_entries <~ _pack self (fmt self) 0 ;;
  (* pass 3: write auxiliary data to file *)
  Ok (result_ ++ concat table ++ end_of_entries ++ concat (map aux_block entries)).

End tobytes.

(** *** The handlers of the integer and byte-string types

    [_register_basic] builds a loader and a writer from a [struct] format;
    BYTE, ASCII and UNDEFINED have handlers of their own, which take one
    value.  The two tables below hold the handlers that return bytes
    whenever they return: those of the integer formats and of ASCII for
    writing, and those as well as the loaders of BYTE and UNDEFINED for
    reading.  The handlers of RATIONAL, SIGNED_RATIONAL, FLOAT and DOUBLE
    compute with floats, and [write_byte] and [write_undefined] hand back
    an argument that is not an integer, a rational or bytes as it is, a
    value that [tobytes] cannot use; they have no entry in these tables. *)

Fixpoint unpack_many (k : nat) (e : Endian) (c : Fmt) (data : list byte)
  : result (list Z) :=
  match k with
  | O => Ok []
  | S k' =>
      v <~ unpack e c (take (calcsize c) data) ;;
      vs <~ unpack_many k' e c (drop (calcsize c) data) ;;
      Ok (v :: vs)
  end.

Definition basic_handler (c : Fmt) (endian : Endian) (data : list byte)
  (legacy_api : bool) : result pyval :=
  let k := (length data / calcsize c)%nat in
  if negb (Nat.eqb (k * calcsize c) (length data)) then Raise struct_error
  else
    vs <~ unpack_many k endian c data ;;
    Ok (PyTuple (map PyInt vs)).

Definition basic_writer (c : Fmt) (endian : Endian) (values : list pyval)
  : result (list byte) :=
  chunks <~ mapM (fun v => match v with
                           | PyInt z => pack endian c z
                           | _ => Raise struct_error
                           end) values ;;
  Ok (concat chunks).

(** [int(value)] for an [IFDRational]: truncation, delegated to [_val]. *)
Definition int_of_rational (r : IFDRational.t) : result Z :=
  match IFDRational._val r with
  | IFDRational.nan => Raise (ValueError "cannot convert float NaN to integer")
  | IFDRational.exact q =>
      Ok (Z.quot (Fraction.numerator q) (Fraction.denominator q))
  end.

Definition load_byte (data : list byte) : pyval := PyBytes data.

Definition write_byte (data : pyval) : result pyval :=
  data <~ match data with
          | PyRational r => z <~ int_of_rational r ;; Ok (PyInt z)
          | _ => Ok data
          end ;;
  match data with
  | PyInt z =>
      if (0 <=? z) && (z <? 256) then Ok (PyBytes [byte_of_Z z])
      else Raise (ValueError "bytes must be in range(0, 256)")
  | _ => Ok data
  end.

Definition load_undefined (data : list byte) : pyval := PyBytes data.

Definition write_undefined (value : pyval) : result pyval :=
  value <~ match value with
           | PyRational r => z <~ int_of_rational r ;; Ok (PyInt z)
           | _ => Ok value
           end ;;
  match value with
  | PyInt z => s <~ str_of_int z ;; Ok (PyBytes (encode_ascii s))
  | _ => Ok value
  end.

(** A handler declared with one value parameter, called with [*values]. *)
Definition one_value (w : pyval -> result (list byte)) (endian : Endian)
  (values : list pyval) : result (list byte) :=
  match values with
  | [v] => w v
  | _ => Raise TypeError
  end.

Definition integer_write_dispatch (typ : Z)
  : option (Endian -> list pyval -> result (list byte)) :=
  if typ =? TiffTags.ASCII then Some (one_value write_string)
  else if typ =? TiffTags.SHORT then Some (basic_writer fmt_H)
  else if typ =? TiffTags.LONG then Some (basic_writer fmt_L)
  else if typ =? TiffTags.SIGNED_BYTE then Some (basic_writer fmt_b)
  else if typ =? TiffTags.SIGNED_SHORT then Some (basic_writer fmt_h)
  else if typ =? TiffTags.SIGNED_LONG then Some (basic_writer fmt_l)
  else if typ =? TiffTags.IFD then Some (basic_writer fmt_L)
  else if typ =? TiffTags.LONG8 then Some (basic_writer fmt_Q)
  else None.

Definition integer_load_dispatch (typ : Z)
  : option (Z * (Endian -> list byte -> bool -> result pyval)) :=
  if typ =? TiffTags.BYTE then Some (1, fun _ data _ => Ok (load_byte data))
  else if typ =? TiffTags.ASCII
  then Some (1, fun _ data _ => Ok (PyStr (load_string data)))
  else if typ =? TiffTags.SHORT then Some (2, basic_handler fmt_H)
  else if typ =? TiffTags.LONG then Some (4, basic_handler fmt_L)
  else if typ =? TiffTags.SIGNED_BYTE then Some (1, basic_handler fmt_b)
  else if typ =? TiffTags.UNDEFINED
  then Some (1, fun _ data _ => Ok (load_undefined data))
  else if typ =? TiffTags.SIGNED_SHORT then Some (2, basic_handler fmt_h)
  else if typ =? TiffTags.SIGNED_LONG then Some (4, basic_handler fmt_l)
  else if typ =? TiffTags.IFD then Some (4, basic_handler fmt_L)
  else if typ =? TiffTags.LONG8 then Some (8, basic_handler fmt_Q)
  else None.

(** [val + offset] on what these loaders return: integers, and the
    one-character strings of an ASCII value, which do not add to an [int]. *)
Definition integer_add (val : pyval) (offset : Z) : result pyval :=
  match val with
  | PyInt z => Ok (PyInt (z + offset))
  | _ => Raise TypeError
  end.

(** For a directory that holds no dict-valued LONG tag. *)
Definition no_sub_ifd (endian : Endian) (bigtiff : bool) (tag : Z)
  (items : list (Z * pyval)) (offset : Z) : result (list byte) :=
  Raise TypeError.

Definition tobytes_integer (self : t) (offset : Z) : result (list byte) :=
  tobytes integer_write_dispatch integer_load_dispatch integer_add no_sub_ifd
          self offset.

(** *** The constructor and the file header

    [__init__] is the only place that assigns [_prefix], and it accepts no
    other value than [MM] (with byte order ">") and [II] (with "<"): the
    prefix of a directory is read off its byte order.  The message of the
    first [SyntaxError] also quotes the header. *)

Definition default_ifh : list byte :=
  [x49; x49; x2a; x00; x00; x00; x00; x00].

Definition reset (self : t) : t :=
  {| _endian := _endian self; _bigtiff := _bigtiff self; group := group self;
     tagtype := []; _tags_v1 := []; _tags_v2 := []; _tagdata := [];
     legacy_api := legacy_api self |}.

(** The directory and its attribute [next]. *)
Definition __init__ (ifh : list byte) (prefix : option (list byte))
  (group : option Z) : result (t * Z) :=
  if negb (_accept ifh)
  then Raise (SyntaxError "not a TIFF file (header not valid)")
  else
    let _prefix := match prefix with Some p => p | None => take 2 ifh end in
    endian <~ (if bool_decide (_prefix = MM) then Ok BigEndian
               else if bool_decide (_prefix = II) then Ok LittleEndian
               else Raise (SyntaxError "not a TIFF IFD")) ;;
    magic <~ from_option IndexError (ifh !! 2%nat) ;;
    let bigtiff := Z_of_byte magic =? 43 in
    next <~ (if bigtiff then unpack endian fmt_Q (drop 8 ifh)
             else unpack endian fmt_L (drop 4 ifh)) ;;
    Ok ({| _endian := endian; _bigtiff := bigtiff; group := group;
           tagtype := []; _tags_v1 := []; _tags_v2 := []; _tagdata := [];
           legacy_api := false |}, next).

Definition _prefix (self : t) : list byte :=
  match _endian self with BigEndian => MM | LittleEndian => II end.

Definition _get_ifh (self : t) : result (list byte) :=
  magic <~ _pack self fmt_H (if _bigtiff self then 43 else 42) ;;
  let ifh := _prefix self ++ magic in
  ifh <~ (if _bigtiff self then
            size <~ _pack self fmt_H 8 ;;
            zero <~ _pack self fmt_H 0 ;;
            Ok (ifh ++ size ++ zero)
          else Ok ifh) ;;
  first <~ (if _bigtiff self then _pack self fmt_Q 16 else _pack self fmt_L 8) ;;
  Ok (ifh ++ first).

(** *** Writing a directory to a file *)

Section saving.

Variable _write_dispatch :
  Z -> option (Endian -> list pyval -> result (list byte)).
Variable _load_dispatch :
  Z -> option (Z * (Endian -> list byte -> bool -> result pyval)).
Variable py_add : pyval -> Z -> result pyval.
Variable sub_ifd_tobytes :
  Endian -> bool -> Z -> list (Z * pyval) -> Z -> result (list byte).

Context {F : Type} `{FileLike F}.

Definition save (self : t) : M F Z :=
  fun fp =>
    match (if fp_tell fp =? 0  (* skip TIFF header on subsequent pages *)
           then ifh <~ _get_ifh self ;; Ok (snd (fp_write ifh fp))
           else Ok fp) with
    | Raise e => (Raise e, fp)
    | Ok fp =>
        let offset := fp_tell fp in
        match tobytes _write_dispatch _load_dispatch py_add sub_ifd_tobytes
                      self offset with
        | Raise e => (Raise e, fp)
        | Ok result =>
            (Ok (offset + Z.of_nat (length result)), snd (fp_write result fp))
        end
    end.

End saving.

(** *** The mapping interface *)

(** [set(self._tagdata) | set(self._tags_v2)] *)
Definition __iter__ (self : t) : gset Z :=
  list_to_set (dict_keys (_tagdata self)) ∪ list_to_set (dict_keys (_tags_v2 self)).

Definition __len__ (self : t) : Z := Z.of_nat (size (__iter__ self)).

(** [self.tagtype = types] *)
Definition with_tagtype (types : dict Z) (self : t) : t :=
  {| _endian := _endian self; _bigtiff := _bigtiff self; group := group self;
     tagtype := types; _tags_v1 := _tags_v1 self; _tags_v2 := _tags_v2 self;
     _tagdata := _tagdata self; legacy_api := legacy_api self |}.

(** [dest[tag] = v] with [dest = self._tags_v1 if legacy_api else
    self._tags_v2] *)
Definition store (legacy : bool) (tag : Z) (v : pyval) (self : t) : t :=
  {| _endian := _endian self; _bigtiff := _bigtiff self; group := group self;
     tagtype := tagtype self;
     _tags_v1 := if legacy then dict_set tag v (_tags_v1 self) else _tags_v1 self;
     _tags_v2 := if legacy then _tags_v2 self else dict_set tag v (_tags_v2 self);
     _tagdata := _tagdata self; legacy_api := legacy_api self |}.

Section mapping.

(** [TiffTags.lookup]; Python's [float(v)] for an integer, which raises
    for an integer beyond the range of a float; and the table of
    loaders. *)
Variable lookup : Z -> option Z -> TagInfo.
Variable float_of_int : Z -> result pyval.
Variable _load_dispatch :
  Z -> option (Z * (Endian -> list byte -> bool -> result pyval)).

(** The two list comprehensions that depend on the type of the tag. *)
Definition convert_values (typ : Z) (values : list pyval)
  : result (list pyval) :=
  if typ =? TiffTags.UNDEFINED then
    Ok (map (fun v => match v with
                      | PyStr s => PyBytes (encode_ascii s)
                      | _ => v
                      end) values)
  else if typ =? TiffTags.RATIONAL then
    mapM (fun v => match v with
                   | PyInt z => float_of_int z
                   | _ => Ok v
                   end) values
  else Ok values.

Definition _setitem (tag : Z) (value : pyval) (legacy_api : bool)
  : M t unit :=
  fun self =>
    let info := lookup tag (group self) in
    let self :=
      with_tagtype (_setitem_tagtype self (info_type info) tag value) self in
    match dict_get tag (tagtype self) with
    | None => (Raise KeyError, self)
    | Some typ =>
        match convert_values typ (values_of value) with
        | Raise e => (Raise e, self)
        | Ok values =>
            (* a dict is still a dict here: LONG is none of the two types
               that rebuild [values] as a list *)
            let is_ifd := (typ =? TiffTags.LONG) && is_dict value in
            if is_ifd then (Ok tt, store legacy_api tag value self)
            else
              let values :=
                map (fun value => match value with
                                  | PyStr s => cvt_enum info s
                                  | _ => value
                                  end) values in
              if bool_decide (info_length info = Some 1)
                 || (typ =? TiffTags.BYTE)
                 || (bool_decide (info_length info = None)
                     && Nat.eqb (length values) 1 && negb legacy_api)
              then
                let values :=
                  if legacy_api
                     && bool_decide (typ ∈ [TiffTags.RATIONAL;
                                            TiffTags.SIGNED_RATIONAL])
                  then [PyTuple values]  (* rationals *)
                  else values in
                (* [(dest[tag],) = values], and on [ValueError] the
                   warning, whose message prints the tag, and
                   [dest[tag] = values[0]] *)
                match values with
                | [v] => (Ok tt, store legacy_api tag v self)
                | _ =>
                    match str_of_int tag with
                    | Raise e => (Raise e, self)
                    | Ok _ =>
                        match values with
                        | v :: _ => (Ok tt, store legacy_api tag v self)
                        | [] => (Raise IndexError, self)
                        end
                    end
                end
              else
                (* Spec'd length > 1 or undefined
                   Unspec'd, and length > 1 *)
                (Ok tt, store legacy_api tag (PyTuple values) self)
        end
    end.

Definition __setitem__ (tag : Z) (value : pyval) : M t unit :=
  fun self => _setitem tag value (legacy_api self) self.

Definition __getitem__ (tag : Z) : M t pyval :=
  ((fun self =>
        if negb (dict_contains tag (_tags_v2 self)) then  (* unpack on the fly *)
          (data <- lift (from_option KeyError (dict_get tag (_tagdata self))) ;;
           typ <- lift (from_option KeyError (dict_get tag (tagtype self))) ;;
           h <- lift (from_option KeyError (_load_dispatch typ)) ;;
           value <- lift (snd h (_endian self) data (legacy_api self)) ;;
           __setitem__ tag value) self  (* check type *)
        else (Ok tt, self)) ;;;
   fun self =>
     match dict_get tag (_tags_v2 self) with
     | None => (Raise KeyError, self)
     | Some val =>
         (Ok (if legacy_api self && negb (is_tuple val || is_bytes val)
              then PyTuple [val] else val), self)
     end).

End mapping.

End ImageFileDirectory_v2.

(** ** The legacy view [ImageFileDirectory_v1]

    A subclass of [ImageFileDirectory_v2] whose instances have
    [legacy_api] set; it overrides the mapping methods to work on
    [_tags_v1]. *)

Module ImageFileDirectory_v1.

Section legacy.

Variable lookup : Z -> option Z -> TagInfo.
Variable float_of_int : Z -> result pyval.
Variable _load_dispatch :
  Z -> option (Z * (Endian -> list byte -> bool -> result pyval)).

Definition __contains__ (self : ImageFileDirectory_v2.t) (tag : Z) : bool :=
  dict_contains tag (ImageFileDirectory_v2._tags_v1 self)
  || dict_contains tag (ImageFileDirectory_v2._tagdata self).

Definition __iter__ (self : ImageFileDirectory_v2.t) : gset Z :=
  list_to_set (dict_keys (ImageFileDirectory_v2._tagdata self))
  ∪ list_to_set (dict_keys (ImageFileDirectory_v2._tags_v1 self)).

Definition __len__ (self : ImageFileDirectory_v2.t) : Z :=
  Z.of_nat (size (__iter__ self)).

(** [for legacy_api in (False, True): self._setitem(tag, value, legacy_api)] *)
Definition __setitem__ (tag : Z) (value : pyval)
  : M ImageFileDirectory_v2.t unit :=
  ImageFileDirectory_v2._setitem lookup float_of_int tag value false ;;;
  ImageFileDirectory_v2._setitem lookup float_of_int tag value true.

Definition __getitem__ (tag : Z) : M ImageFileDirectory_v2.t pyval :=
  ((fun self =>
      if negb (dict_contains tag (ImageFileDirectory_v2._tags_v1 self))
      then  (* unpack on the fly *)
        (data <- lift (from_option KeyError
                         (dict_get tag (ImageFileDirectory_v2._tagdata self))) ;;
         typ <- lift (from_option KeyError
                        (dict_get tag (ImageFileDirectory_v2.tagtype self))) ;;
         h <- lift (from_option KeyError (_load_dispatch typ)) ;;
         v2 <- lift (snd h (ImageFileDirectory_v2._endian self) data false) ;;
         ImageFileDirectory_v2._setitem lookup float_of_int tag v2 false ;;;
         v1 <- lift (snd h (ImageFileDirectory_v2._endian self) data true) ;;
         ImageFileDirectory_v2._setitem lookup float_of_int tag v1 true) self
      else (Ok tt, self)) ;;;
   fun self =>
     match dict_get tag (ImageFileDirectory_v2._tags_v1 self) with
     | None => (Raise KeyError, self)
     | Some val =>
         (Ok (if negb (is_tuple val || is_bytes val) then PyTuple [val]
              else val), self)
     end).

End legacy.

End ImageFileDirectory_v1.

(** ** The multi-page reader [TiffImageFile]

    What the frame cursor needs from the file is the outcome of
    [ImageFileDirectory_v2.load] at an offset: a finite map [file].
    [load] assigns [self.next] last, after every read has succeeded; at
    such an offset [file] holds the next-directory pointer stored behind
    the directory.  [load] catches [OSError] alone: when a read falls short
    it warns and returns, and [self.next] keeps the value of the previous
    load; [file] has no entry there.  Any other exception escapes (a seek
    to a data offset that the stream refuses, say), and [file] holds it.
    Loops that the source writes with [while] take a fuel and return [None]
    when it runs out. *)

Definition MF (S A : Type) : Type := S -> option (result A * S).

Definition retF {S A} (a : A) : MF S A := fun s => Some (Ok a, s).
Definition liftF {S A} (m : M S A) : MF S A := fun s => Some (m s).
Definition bindF {S A B} (m : MF S A) (k : A -> MF S B) : MF S B :=
  fun s => match m s with
           | Some (Ok a, s') => k a s'
           | Some (Raise e, s') => Some (Raise e, s')
           | None => None
           end.

Fixpoint whileF {S} (fuel : nat) (cond : S -> bool) (body : MF S unit)
  : MF S unit :=
  fun s =>
    if cond s then
      match fuel with
      | O => None
      | S fuel' =>
          match body s with
          | Some (Ok _, s') => whileF fuel' cond body s'
          | Some (Raise e, s') => Some (Raise e, s')
          | None => None
          end
      end
    else Some (Ok tt, s).

(** [l[i]] with Python's negative indices. *)
Definition py_index {A} (l : list A) (i : Z) : result A :=
  let n := Z.of_nat (length l) in
  let j := if i <? 0 then n + i else i in
  if j <? 0 then Raise IndexError
  else from_option IndexError (l !! Z.to_nat j).

Module TiffImageFile.

Record t : Type := {
  __first : Z;
  __next : Z;
  __frame : Z;
  _frame_pos : list Z;
  _n_frames : option Z;
  is_animated : option bool;
  tag_v2_next : Z  (* self.tag_v2.next *)
}.

Section reader.

Variable file : gmap Z (result Z).

(** [self._setup()] and the refresh of the metadata views that ends
    [_seek], as decided by the directory at the given offset; and
    [ImageFile._seek_check], which [seek] asks before it moves. *)
Variable _setup : Z -> result unit.
Variable _seek_check : t -> Z -> result bool.

(** [self.fp.seek(pos); self.tag_v2.load(self.fp)] *)
Definition load_at (pos : Z) : M t unit :=
  fun st =>
    match file !! pos with
    | Some (Ok next) =>
        (Ok tt,
         {| __first := __first st; __next := __next st;
            __frame := __frame st; _frame_pos := _frame_pos st;
            _n_frames := _n_frames st; is_animated := is_animated st;
            tag_v2_next := next |})
    | Some (Raise e) => (Raise e, st)
    | None => (Ok tt, st)
    end.

(** The body of the [while] loop of [_seek]. *)
Definition _seek_body (frame : Z) : M t unit :=
  fun st =>
    if __next st =? 0 then (Raise (EOFError "no more images in TIFF file"), st)
    else if 2 ^ 63 <=? __next st
    then (Raise (ValueError "Unable to seek to frame"), st)
    else
      let pos := __next st in
      let frame_pos := _frame_pos st ++ [pos] in
      match load_at pos
              {| __first := __first st; __next := __next st;
                 __frame := __frame st; _frame_pos := frame_pos;
                 _n_frames := _n_frames st; is_animated := is_animated st;
                 tag_v2_next := tag_v2_next st |} with
      | (Raise e, st1) => (Raise e, st1)
      | (Ok _, st1) =>
          let next :=
            if bool_decide (tag_v2_next st1 ∈ frame_pos)
            then 0  (* This IFD has already been processed *)
            else tag_v2_next st1 in
          (Ok tt,
           {| __first := __first st1;
              __next := next;
              __frame := __frame st1 + 1;
              _frame_pos := frame_pos;
              _n_frames :=
                if next =? 0 then Some (frame + 1) else _n_frames st1;
              is_animated :=
                if Nat.eqb (length frame_pos) 1 then Some (negb (next =? 0))
                else is_animated st1;
              tag_v2_next := tag_v2_next st1 |})
      end.

(** What follows the loop. *)
Definition _seek_tail (frame : Z) : M t unit :=
  fun st =>
    match py_index (_frame_pos st) frame with
    | Raise e => (Raise e, st)
    | Ok pos =>
        match load_at pos st with
        | (Raise e, st1) => (Raise e, st1)
        | (Ok _, st1) =>
            (_setup pos,
             {| __first := __first st1; __next := __next st1;
                __frame := frame; _frame_pos := _frame_pos st1;
                _n_frames := _n_frames st1; is_animated := is_animated st1;
                tag_v2_next := tag_v2_next st1 |})
        end
    end.

Definition _seek (fuel : nat) (frame : Z) : MF t unit :=
  bindF (whileF fuel
           (fun st => Z.of_nat (length (_frame_pos st)) <=? frame)
           (liftF (_seek_body frame)))
        (fun _ => liftF (_seek_tail frame)).

Definition tell (st : t) : Z := __frame st.

Definition seek (fuel : nat) (frame : Z) : MF t unit :=
  bindF (fun st => Some (_seek_check st frame, st)) (fun go =>
  if negb go then retF tt else _seek fuel frame).

Definition n_frames (fuel : nat) : MF t Z :=
  fun st =>
    match _n_frames st with
    | Some n => Some (Ok n, st)
    | None =>
        let current := tell st in
        bindF (_seek fuel (Z.of_nat (length (_frame_pos st)))) (fun _ =>
        bindF (whileF fuel
                 (fun st => bool_decide (_n_frames st = None))
                 (fun st => _seek fuel (tell st + 1) st)) (fun _ =>
        bindF (seek fuel current) (fun _ =>
        fun st => Some (from_option AssertionError (_n_frames st), st)))) st
    end.

(** The state [_open] sets up before it loads the first frame; [first] is
    the offset of the first directory as the file header gives it. *)
Definition fresh (first : Z) : t :=
  {| __first := first; __next := first; __frame := -1; _frame_pos := [];
     _n_frames := None; is_animated := None; tag_v2_next := first |}.

Definition _open (fuel : nat) (first : Z) : option (result unit * t) :=
  _seek fuel 0 (fresh first).

(** The directories met when the next pointers are followed from [off],
    up to the first pointer that is zero, leads back to a directory already
    met, or leaves the directories that can be read. *)
Fixpoint walk (fuel : nat) (seen : list Z) (off : Z) : list Z :=
  match fuel with
  | O => []
  | S fuel' =>
      off ::
      match file !! off with
      | Some (Ok next) =>
          if (next =? 0) || bool_decide (next ∈ seen ++ [off]) then []
          else walk fuel' (seen ++ [off]) next
      | _ => []
      end
  end.

Definition acyclic_prefix (first : Z) : list Z :=
  walk (S (size file)) [] first.

(** The states of the cursor: the one [_open] leaves, and those that
    calls of [_seek] which return normally lead to. *)
Inductive reachable (first : Z) : t -> Prop :=
| reachable_open (fuel : nat) (st : t) :
    _open fuel first = Some (Ok tt, st) -> reachable first st
| reachable_seek (fuel : nat) (frame : Z) (st st' : t) :
    reachable first st ->
    _seek fuel frame st = Some (Ok tt, st') ->
    reachable first st'.

(** The number of directories that can be read and are not in [seen]. *)
Definition unseen (seen : list Z) : nat :=
  size (dom file ∖ (list_to_set seen : gset Z)).

End reader.

End TiffImageFile.

(** ** The appending multi-page writer

    [AppendingTiffWriter] wraps the stream [self.f].  [setEndian] stores the
    byte order (and the three format strings derived from it and from
    [_bigtiff]); until it has run the attribute [endian] does not exist. *)

Module AppendingTiffWriter.

Record t : Type := {
    f : stream;
    beginning : Z;
    whereToWriteNewIFDOffset : option Z;
    offsetOfNewPage : Z;
    IIMM : list byte;
    _bigtiff : bool;
    isFirst : bool;
    endian : option Endian
  }.

Definition with_f (g : stream) (w : t) : t :=
    {| f := g; beginning := beginning w;
       whereToWriteNewIFDOffset := whereToWriteNewIFDOffset w;
       offsetOfNewPage := offsetOfNewPage w; IIMM := IIMM w;
       _bigtiff := _bigtiff w; isFirst := isFirst w; endian := endian w |}.

(** [w] with its stream holding [data] and positioned at [pos]. *)
Definition at_position (data : list byte) (pos : Z) (w : t) : t :=
  with_f {| sdata := data; spos := pos |} w.

Definition fieldSizes : list Z :=
    [ 0;  (* None *)
      1;  (* byte *)
      1;  (* ascii *)
      2;  (* short *)
      4;  (* long *)
      8;  (* rational *)
      1;  (* sbyte *)
      1;  (* undefined *)
      2;  (* sshort *)
      4;  (* slong *)
      8;  (* srational *)
      4;  (* float *)
      8;  (* double *)
      4;  (* ifd *)
      2;  (* unicode *)
      4;  (* complex *)
      8   (* long8 *) ].

Definition Tags : list Z :=
    [ 273;  (* StripOffsets *)
      288;  (* FreeOffsets *)
      324;  (* TileOffsets *)
      519;  (* JPEGQTables *)
      520;  (* JPEGDCTables *)
      521   (* JPEGACTables *) ].

  (** Operations of [self.f]. *)
Definition f_tell : M t Z := gets (fun w => stream_tell (f w)).

Definition f_seek (pos : Z) : M t unit :=
    fun w => match stream_seek pos (f w) with
             | Ok g => (Ok tt, with_f g w)
             | Raise e => (Raise e, w)
             end.

Definition f_seek_cur (delta : Z) : M t unit :=
    fun w => match stream_seek_cur delta (f w) with
             | Ok g => (Ok tt, with_f g w)
             | Raise e => (Raise e, w)
             end.

Definition f_read (n : Z) : M t (list byte) :=
    fun w => let (bs, g) := stream_read n (f w) in (Ok bs, with_f g w).

Definition f_write (bs : list byte) : M t Z :=
    fun w => let (n, g) := stream_write bs (f w) in (Ok n, with_f g w).

Definition self_endian : M t Endian :=
    fun w => match endian w with
             | Some e => (Ok e, w)
             | None => (Raise AttributeError, w)
             end.

Definition _fmt (field_size : Z) : M t Fmt :=
    if field_size =? 2 then ret fmt_H
    else if field_size =? 4 then ret fmt_L
    else if field_size =? 8 then ret fmt_Q
    else raise (RuntimeError "offset is not supported").

Definition _read (field_size : Z) : M t Z :=
    e <- self_endian ;;
    c <- _fmt field_size ;;
    bs <- f_read field_size ;;
    lift (unpack e c bs).

Definition readShort : M t Z := _read 2.
Definition readLong : M t Z := _read 4.

Definition _verify_bytes_written (bytes_written expected : Z) : M t unit :=
    if negb (bytes_written =? expected)
    then raise (RuntimeError "wrote only part of the bytes")
    else ret tt.

  (** [new_field_size] defaults to 0, which stands for "same as
      [field_size]". *)
Definition _rewriteLast (value field_size new_field_size : Z) : M t unit :=
    f_seek_cur (- field_size) ;;;
    let new_field_size :=
      if new_field_size =? 0 then field_size else new_field_size in
    e <- self_endian ;;
    c <- _fmt new_field_size ;;
    bs <- lift (pack e c value) ;;
    bytes_written <- f_write bs ;;
    _verify_bytes_written bytes_written new_field_size.

Definition _write (value field_size : Z) : M t unit :=
    e <- self_endian ;;
    c <- _fmt field_size ;;
    bs <- lift (pack e c value) ;;
    bytes_written <- f_write bs ;;
    _verify_bytes_written bytes_written field_size.

Definition writeShort (value : Z) : M t unit := _write value 2.
Definition writeLong (value : Z) : M t unit := _write value 4.

  (** The body of the loop of [_fixOffsets]. *)
Definition _fixOffsets_body (count field_size : Z) : M t unit :=
    offset <- _read field_size ;;
    page <- gets offsetOfNewPage ;;
    let offset := offset + page in
    big <- gets _bigtiff ;;
    let new_field_size :=
      if big && ((field_size =? 2) || (field_size =? 4)) && (2 ^ 32 <=? offset)
      then 8  (* offset is now too large - we must convert long to long8 *)
      else if (field_size =? 2) && (2 ^ 16 <=? offset)
      then 4  (* offset is now too large - we must convert short to long *)
      else 0 in
    if negb (new_field_size =? 0) then
      if negb (count =? 1) then raise (RuntimeError "not implemented")
      else
        _rewriteLast offset field_size new_field_size ;;;
        let rewind := - new_field_size - 4 - 2 in
        f_seek_cur rewind ;;;
        writeShort new_field_size ;;;  (* rewrite the type *)
        f_seek_cur (2 - rewind)
    else
      _rewriteLast offset field_size 0.

Definition _fixOffsets (count field_size : Z) : M t unit :=
    for_range (Z.to_nat count) (_fixOffsets_body count field_size).

Definition fixOffsets (count : Z) (isShort isLong : bool) : M t unit :=
    let field_size := if isShort then 2 else if isLong then 4 else 0 in
    _fixOffsets count field_size.

  (** [struct.unpack(self.tagFormat, ...)]: two [H] fields and a count of
      format [Q] (BigTIFF) or [L]. *)
Definition unpack_tagFormat (e : Endian) (big : bool) (bs : list byte)
    : result (Z * Z * Z) :=
    let c := if big then fmt_Q else fmt_L in
    if negb (Nat.eqb (length bs) (4 + calcsize c)) then Raise struct_error
    else
      rbind (unpack e fmt_H (take 2 bs)) (fun tag =>
      rbind (unpack e fmt_H (take 2 (drop 2 bs))) (fun field_type =>
      rbind (unpack e c (drop 4 bs)) (fun count =>
      Ok (tag, field_type, count)))).

Definition fixIFD_body : M t unit :=
    big <- gets _bigtiff ;;
    e <- self_endian ;;
    bs <- f_read (if big then 12 else 8) ;;
    hdr <- lift (unpack_tagFormat e big bs) ;;
    let '(tag, field_type, count) := hdr in
    field_size <- lift (match fieldSizes !! Z.to_nat field_type with
                        | Some s => Ok s
                        | None => Raise IndexError
                        end) ;;
    let total_size := field_size * count in
    let fmt_size := if big then 8 else 4 in
    let is_local := total_size <=? fmt_size in
    page <- gets offsetOfNewPage ;;
    offset <- (if negb is_local then
                 v <- _read fmt_size ;;
                 let offset := v + page in
                 _rewriteLast offset fmt_size 0 ;;;
                 ret offset
               else ret 0) ;;
    if bool_decide (tag ∈ Tags) then
      cur_pos <- f_tell ;;
      if is_local then
        _fixOffsets count field_size ;;;
        f_seek (cur_pos + fmt_size)
      else
        f_seek offset ;;;
        _fixOffsets count field_size ;;;
        f_seek cur_pos
    else if is_local then
      (* skip the locally stored value that is not an offset *)
      f_seek_cur fmt_size
    else ret tt.

Definition fixIFD : M t unit :=
    big <- gets _bigtiff ;;
    num_tags <- _read (if big then 8 else 2) ;;
    for_range (Z.to_nat num_tags) fixIFD_body.

Definition finalize : M t unit :=
    first <- gets isFirst ;;
    if first then ret tt
    else
      (* fix offsets *)
      page <- gets offsetOfNewPage ;;
      f_seek page ;;;
      iimm <- f_read 4 ;;
      if Nat.eqb (length iimm) 0 then
        (* Make it easy to finish a frame without committing to a new one. *)
        ret tt
      else
        first_iimm <- gets IIMM ;;
        if negb (bool_decide (iimm = first_iimm)) then
          raise (RuntimeError "IIMM of new page doesn't match IIMM of first page")
        else
          big <- gets _bigtiff ;;
          (if big then f_seek_cur 4 else ret tt) ;;;
          ifd_offset <- _read (if big then 8 else 4) ;;
          let ifd_offset := ifd_offset + page in
          slot <- gets whereToWriteNewIFDOffset ;;
          match slot with
          | None => raise AssertionError
          | Some where_ =>
              f_seek where_ ;;;
              _write ifd_offset (if big then 8 else 4) ;;;
              f_seek ifd_offset ;;;
              fixIFD
          end.

  (** *** Opening a file for appending *)

Definition f_seek_end (delta : Z) : M t unit :=
    fun w => match stream_seek_end delta (f w) with
             | Ok g => (Ok tt, with_f g w)
             | Raise e => (Raise e, w)
             end.

Definition setEndian (e : Endian) : M t unit :=
    fun w =>
      (Ok tt,
       {| f := f w; beginning := beginning w;
          whereToWriteNewIFDOffset := whereToWriteNewIFDOffset w;
          offsetOfNewPage := offsetOfNewPage w; IIMM := IIMM w;
          _bigtiff := _bigtiff w; isFirst := isFirst w; endian := Some e |}).

Definition set_whereToWriteNewIFDOffset (slot : option Z) : M t unit :=
    fun w =>
      (Ok tt,
       {| f := f w; beginning := beginning w;
          whereToWriteNewIFDOffset := slot;
          offsetOfNewPage := offsetOfNewPage w; IIMM := IIMM w;
          _bigtiff := _bigtiff w; isFirst := isFirst w; endian := endian w |}).

Definition set_offsetOfNewPage (page : Z) : M t unit :=
    fun w =>
      (Ok tt,
       {| f := f w; beginning := beginning w;
          whereToWriteNewIFDOffset := whereToWriteNewIFDOffset w;
          offsetOfNewPage := page; IIMM := IIMM w;
          _bigtiff := _bigtiff w; isFirst := isFirst w; endian := endian w |}).

Definition set_header (iimm : list byte) (big first : bool) : M t unit :=
    fun w =>
      (Ok tt,
       {| f := f w; beginning := beginning w;
          whereToWriteNewIFDOffset := whereToWriteNewIFDOffset w;
          offsetOfNewPage := offsetOfNewPage w; IIMM := iimm;
          _bigtiff := big; isFirst := first; endian := endian w |}).

Definition tell (w : t) : Z := stream_tell (f w) - offsetOfNewPage w.

Definition write (data : list byte) : M t Z := f_write data.

Inductive whence : Type := SEEK_SET | SEEK_CUR | SEEK_END.

Definition seek (offset : Z) (whence_ : whence) : M t Z :=
    page <- gets offsetOfNewPage ;;
    match whence_ with
    | SEEK_SET => f_seek (offset + page)
    | SEEK_CUR => f_seek_cur offset
    | SEEK_END => f_seek_end offset
    end ;;;
    gets tell.

Definition goToEnd : M t unit :=
    f_seek_end 0 ;;;
    pos <- f_tell ;;
    (* pad to 16 byte boundary *)
    let pad_bytes := 16 - pos mod 16 in
    (if (0 <? pad_bytes) && (pad_bytes <? 16)
     then f_write (replicate (Z.to_nat pad_bytes) x00) ;;; ret tt
     else ret tt) ;;;
    pos <- f_tell ;;
    set_offsetOfNewPage pos.

  (** One turn of the [while True] loop of [skipIFDs]; [true] is its
      [break]. *)
Definition skipIFDs_body : M t bool :=
    big <- gets _bigtiff ;;
    ifd_offset <- _read (if big then 8 else 4) ;;
    if ifd_offset =? 0 then
      pos <- f_tell ;;
      set_whereToWriteNewIFDOffset (Some (pos - (if big then 8 else 4))) ;;;
      ret true
    else
      f_seek ifd_offset ;;;
      num_tags <- _read (if big then 8 else 2) ;;
      f_seek_cur (num_tags * (if big then 20 else 12)) ;;;
      ret false.

Fixpoint skipIFDs (fuel : nat) : MF t unit :=
    fun w =>
      match fuel with
      | O => None
      | S fuel' =>
          match skipIFDs_body w with
          | (Ok true, w') => Some (Ok tt, w')
          | (Ok false, w') => skipIFDs fuel' w'
          | (Raise e, w') => Some (Raise e, w')
          end
      end.

Definition setup (fuel : nat) : MF t unit :=
    (* Reset everything. *)
    bindF (liftF (b <- gets beginning ;;
                  f_seek b ;;;
                  set_whereToWriteNewIFDOffset None ;;;
                  set_offsetOfNewPage 0 ;;;
                  f_read 4)) (fun iimm =>
    let big := bool_decide (x2b ∈ iimm) in
    if Nat.eqb (length iimm) 0 then
      (* empty file - first page *)
      liftF (set_header iimm big true)
    else
      bindF (liftF (set_header iimm big false ;;;
                    (if negb (bool_decide (iimm ∈ PREFIXES))
                     then raise (RuntimeError "Invalid TIFF file header")
                     else ret tt) ;;;
                    setEndian (if startswith iimm II then LittleEndian
                               else BigEndian) ;;;
                    (if big then f_seek_cur 4 else ret tt))) (fun _ =>
      bindF (skipIFDs fuel) (fun _ =>
      liftF goToEnd))).

  (** Call this to finish a frame. *)
Definition newFrame (fuel : nat) : MF t unit :=
    bindF (liftF finalize) (fun _ => setup fuel).

Definition rewriteLastShortToLong (value : Z) : M t unit :=
    _rewriteLast value 2 4.

Definition rewriteLastShort (value : Z) : M t unit := _rewriteLast value 2 0.

Definition rewriteLastLong (value : Z) : M t unit := _rewriteLast value 4 0.

#[global] Instance writer_FileLike : FileLike t :=
    {| fp_tell := tell;
       fp_write := fun data w => let (n, g) := stream_write data (f w) in
                                 (n, with_f g w) |}.

End AppendingTiffWriter.

(** * Statements of the specification *)


(** The same with the test that the code makes for LONG. *)
Definition nonneg_int_type (zs : list Z) : Z :=
  if forallb (fun v => (0 <=? v) && (v <? 2 ^ 16)) zs then TiffTags.SHORT
  else if forallb (fun v => (- 2 ^ 15 <? v) && (v <? 2 ^ 15)) zs
  then TiffTags.SIGNED_SHORT
  else if forallb (fun v => 0 <=? v) zs then TiffTags.LONG
  else TiffTags.SIGNED_LONG.

(** How pass 1 of [tobytes] lays out one tag whose payload is [payload]
    when the running offset is [off]: inline and NUL-filled, or as an
    offset with the payload as auxiliary data. *)
Definition laid_out (self : ImageFileDirectory_v2.t) (tag typ count : Z)
  (payload : list byte) (off : Z) (e : ImageFileDirectory_v2.entry) : Prop :=
  ImageFileDirectory_v2.e_tag e = tag
  /\ ImageFileDirectory_v2.e_typ e = typ
  /\ ImageFileDirectory_v2.e_count e = count
  /\ if (length payload <=? ImageFileDirectory_v2.fmt_size self)%nat
     then ImageFileDirectory_v2.e_value e
          = payload ++ replicate (ImageFileDirectory_v2.fmt_size self
                                  - length payload) x00
          /\ ImageFileDirectory_v2.e_data e = []
     else ImageFileDirectory_v2._pack self (ImageFileDirectory_v2.fmt self) off
          = Ok (ImageFileDirectory_v2.e_value e)
          /\ ImageFileDirectory_v2.e_data e = payload.

(** What the update of the strip offsets makes of the entry [e0] that
    pass 1 produced for StripOffsets: an inline slot is read as one
    offset-sized integer and repacked with [end_offset] added; auxiliary
    data is loaded, each value advanced by [end_offset], and written
    again. *)
Definition strip_patched
  (wd : Z -> option (Endian -> list pyval -> result (list byte)))
  (ld : Z -> option (Z * (Endian -> list byte -> bool -> result pyval)))
  (add : pyval -> Z -> result pyval)
  (self : ImageFileDirectory_v2.t) (end_offset : Z)
  (e0 e : ImageFileDirectory_v2.entry) : Prop :=
  (ImageFileDirectory_v2.e_data e0 = [] ->
   ImageFileDirectory_v2.e_data e = []
   /\ exists v,
        ImageFileDirectory_v2._unpack self (ImageFileDirectory_v2.fmt self)
          (ImageFileDirectory_v2.e_value e0) = Ok v
        /\ ImageFileDirectory_v2._pack self (ImageFileDirectory_v2.fmt self)
             (v + end_offset)
           = Ok (ImageFileDirectory_v2.e_value e))
  /\ (ImageFileDirectory_v2.e_data e0 <> [] ->
      ImageFileDirectory_v2.e_value e = ImageFileDirectory_v2.e_value e0
      /\ exists h loaded vals values w,
           ld (ImageFileDirectory_v2.e_typ e0) = Some h
           /\ snd h (ImageFileDirectory_v2._endian self)
                (ImageFileDirectory_v2.e_data e0)
                (ImageFileDirectory_v2.legacy_api self) = Ok loaded
           /\ ImageFileDirectory_v2.iterate loaded = Ok vals
           /\ mapM (fun val => add val end_offset) vals = Ok values
           /\ wd (ImageFileDirectory_v2.e_typ e0) = Some w
           /\ w (ImageFileDirectory_v2._endian self) values
              = Ok (ImageFileDirectory_v2.e_data e)).

(** The bytes all auxiliary blocks of [es] take. *)
Definition aux_length (es : list ImageFileDirectory_v2.entry) : Z :=
  Z.of_nat (length (concat (map ImageFileDirectory_v2.aux_block es))).

(** [bs[start : start + len]] *)
Definition slice (start len : nat) (bs : list byte) : list byte :=
  take len (drop start bs).

(** The widths of the count of tags and of one entry. *)
Definition count_width (self : ImageFileDirectory_v2.t) : nat :=
  if ImageFileDirectory_v2._bigtiff self then 8%nat else 2%nat.

Definition entry_width (self : ImageFileDirectory_v2.t) : nat :=
  if ImageFileDirectory_v2._bigtiff self then 20%nat else 12%nat.

(** The entry that a reader finds at byte [at] of [out]: tag, type and
    count are unpacked and the slot is taken as it is, as [load] does
    with the formats ["HHL4s"] and ["HHQ8s"]. *)
Definition entry_at (self : ImageFileDirectory_v2.t) (out : list byte)
  (at_ : nat) : result (Z * Z * Z * list byte) :=
  let fs := ImageFileDirectory_v2.fmt_size self in
  rbind (ImageFileDirectory_v2._unpack self fmt_H (slice at_ 2 out)) (fun tag =>
  rbind (ImageFileDirectory_v2._unpack self fmt_H (slice (at_ + 2) 2 out))
    (fun typ =>
  rbind (ImageFileDirectory_v2._unpack self (ImageFileDirectory_v2.fmt self)
           (slice (at_ + 4) fs out)) (fun count =>
  Ok (tag, typ, count, slice (at_ + 4 + fs) fs out)))).

(** Auxiliary data as it is stored: followed by one NUL when its length
    is odd. *)
Definition padded (data : list byte) : list byte :=
  data ++ (if Z.odd (Z.of_nat (length data)) then [x00] else []).

(** Where the auxiliary data starts when the directory is written at
    [offset]. *)
Definition aux_start (self : ImageFileDirectory_v2.t) (offset : Z) : Z :=
  offset + Z.of_nat (count_width self)
  + Z.of_nat (length (ImageFileDirectory_v2._tags_v2 self))
    * Z.of_nat (entry_width self)
  + Z.of_nat (ImageFileDirectory_v2.fmt_size self).

(** A known frame count is the number of recorded positions. *)
Definition counted (st : TiffImageFile.t) : Prop :=
  forall n, TiffImageFile._n_frames st = Some n ->
            n = Z.of_nat (length (TiffImageFile._frame_pos st)).

(** What holds of the frame cursor between two calls: no recorded
    position is zero; the next pointer last loaded, and the next pointer of
    every recorded directory, is zero, recorded, or the pending [__next];
    while the count is unknown [__next] is a new non-zero position and the
    recorded positions followed by the walk from [__next] are the acyclic
    prefix; once the count is known [__next] is zero and the recorded
    positions are the acyclic prefix. *)
Record cursor_ok (file : gmap Z (result Z)) (first : Z)
  (st : TiffImageFile.t)
  : Prop := {
  ok_zero : 0 ∉ TiffImageFile._frame_pos st;
  ok_stale :
    TiffImageFile.tag_v2_next st = 0
    \/ TiffImageFile.tag_v2_next st ∈ TiffImageFile._frame_pos st
    \/ TiffImageFile.tag_v2_next st = TiffImageFile.__next st;
  ok_closed : forall p n,
    p ∈ TiffImageFile._frame_pos st -> file !! p = Some (Ok n) ->
    n = 0 \/ n ∈ TiffImageFile._frame_pos st \/ n = TiffImageFile.__next st;
  ok_open :
    TiffImageFile._n_frames st = None ->
    TiffImageFile.__next st <> 0
    /\ (TiffImageFile.__next st ∉ TiffImageFile._frame_pos st)
    /\ (exists k,
         (TiffImageFile.unseen file (TiffImageFile._frame_pos st) < k)%nat
         /\ TiffImageFile.acyclic_prefix file first
            = TiffImageFile._frame_pos st
              ++ TiffImageFile.walk file k (TiffImageFile._frame_pos st)
                   (TiffImageFile.__next st));
  ok_done : forall n,
    TiffImageFile._n_frames st = Some n ->
    TiffImageFile.__next st = 0
    /\ TiffImageFile.acyclic_prefix file first = TiffImageFile._frame_pos st
}.

(** Every directory of the acyclic prefix can be visited: its offset is
    one that [_seek] accepts, loading it raises nothing (a read that falls
    short only warns), and [_setup] accepts it. *)
Definition visitable (file : gmap Z (result Z)) (_setup : Z -> result unit)
  (first : Z) : Prop :=
  forall pos, pos ∈ TiffImageFile.acyclic_prefix file first ->
    pos < 2 ^ 63
    /\ (forall e, file !! pos <> Some (Raise e))
    /\ _setup pos = Ok tt.

(** * Statements about the rest of the code *)

(** What a code point becomes when a string is written as ASCII and read
    back: itself, or a question mark. *)
Definition ascii_or_question_mark (c : Z) : Z :=
  if (0 <=? c) && (c <? 128) then c else 63.

(** A fraction as the constructor of [Fraction] leaves it. *)
Definition normalized (q : Fraction.t) : Prop :=
  0 < Fraction.denominator q
  /\ Z.gcd (Fraction.numerator q) (Fraction.denominator q) = 1.

(** What holds at every turn but the first of the loop of
    [limit_denominator] on a fraction of denominator [D] above the bound
    [m]. *)
Definition loop_inv (m D q0 q1 n d : Z) : Prop :=
  0 <= q0 <= m /\ 0 < q1 <= m /\ 0 <= d < n
  /\ D = q1 * n + q0 * d /\ Z.gcd n d = 1.

(** What [_setitem] may change in a directory, whether it returns or
    raises: the store it writes to, at the tag given, and the type of that
    tag if it had none. *)
Definition setitem_touches_only (legacy : bool) (tag : Z)
  (self self' : ImageFileDirectory_v2.t) : Prop :=
  ImageFileDirectory_v2._endian self' = ImageFileDirectory_v2._endian self
  /\ ImageFileDirectory_v2._bigtiff self' = ImageFileDirectory_v2._bigtiff self
  /\ ImageFileDirectory_v2.group self' = ImageFileDirectory_v2.group self
  /\ ImageFileDirectory_v2.legacy_api self'
     = ImageFileDirectory_v2.legacy_api self
  /\ ImageFileDirectory_v2._tagdata self' = ImageFileDirectory_v2._tagdata self
  /\ (if legacy
      then ImageFileDirectory_v2._tags_v2 self'
           = ImageFileDirectory_v2._tags_v2 self
      else ImageFileDirectory_v2._tags_v1 self'
           = ImageFileDirectory_v2._tags_v1 self)
  /\ (dict_contains tag (ImageFileDirectory_v2.tagtype self) = true ->
      ImageFileDirectory_v2.tagtype self' = ImageFileDirectory_v2.tagtype self)
  /\ (forall k, k <> tag ->
        dict_get k (ImageFileDirectory_v2.tagtype self')
        = dict_get k (ImageFileDirectory_v2.tagtype self)
        /\ dict_get k (ImageFileDirectory_v2._tags_v1 self')
           = dict_get k (ImageFileDirectory_v2._tags_v1 self)
        /\ dict_get k (ImageFileDirectory_v2._tags_v2 self')
           = dict_get k (ImageFileDirectory_v2._tags_v2 self)).

(** The unsigned format of a field size. *)
Definition field_fmt (fs : Z) (c : Fmt) : Prop :=
  (fs = 2 /\ c = fmt_H) \/ (fs = 4 /\ c = fmt_L) \/ (fs = 8 /\ c = fmt_Q).

(** A writer with the slot for the next directory recorded at [slot]. *)
Definition with_slot (slot : Z) (w : AppendingTiffWriter.t)
  : AppendingTiffWriter.t :=
  snd (AppendingTiffWriter.set_whereToWriteNewIFDOffset (Some slot) w).

(** What [finalize] keeps while it relocates the new page: the fields of
    the writer, the length of the file, and every byte before
    [offsetOfNewPage] of the data [d0] it started with, those at the
    positions [excl] apart. *)
Definition page_kept (page : Z) (big : bool) (en : option Endian)
  (slot : option Z) (first : bool) (iimm0 d0 : list byte) (excl : Z -> Prop)
  (w : AppendingTiffWriter.t) : Prop :=
  AppendingTiffWriter.offsetOfNewPage w = page
  /\ AppendingTiffWriter._bigtiff w = big
  /\ AppendingTiffWriter.endian w = en
  /\ AppendingTiffWriter.whereToWriteNewIFDOffset w = slot
  /\ AppendingTiffWriter.isFirst w = first
  /\ AppendingTiffWriter.IIMM w = iimm0
  /\ (length d0 <= length (sdata (AppendingTiffWriter.f w)))%nat
  /\ forall i : nat, Z.of_nat i < page -> ~ excl (Z.of_nat i) ->
       (i < length d0)%nat ->
       sdata (AppendingTiffWriter.f w) !! i = d0 !! i.

(** A statement run at stream position [p] keeps all that, and [Q] holds
    of what it returns and of the position it ends at. *)
Definition page_hoare (page : Z) (big : bool) (en : option Endian)
  (slot : option Z) (first : bool) (iimm0 d0 : list byte) (excl : Z -> Prop)
  {A} (p : Z) (m : M AppendingTiffWriter.t A) (Q : A -> Z -> Prop) : Prop :=
  forall w,
    page_kept page big en slot first iimm0 d0 excl w ->
    spos (AppendingTiffWriter.f w) = p ->
    page_kept page big en slot first iimm0 d0 excl (snd (m w))
    /\ forall a, fst (m w) = Ok a ->
         Q a (spos (AppendingTiffWriter.f (snd (m w)))).

(** * Sample inputs *)

(** A little-endian writer on the stream [data], positioned at [pos], whose
    new page starts at [page]. *)
Definition sample_writer (big : bool) (data : list byte) (pos page : Z)
  : AppendingTiffWriter.t :=
  {| AppendingTiffWriter.f := {| sdata := data; spos := pos |};
     AppendingTiffWriter.beginning := 0;
     AppendingTiffWriter.whereToWriteNewIFDOffset := Some 4;
     AppendingTiffWriter.offsetOfNewPage := page;
     AppendingTiffWriter.IIMM :=
       if big then [x49; x49; x2b; x00] else [x49; x49; x2a; x00];
     AppendingTiffWriter._bigtiff := big;
     AppendingTiffWriter.isFirst := false;
     AppendingTiffWriter.endian := Some LittleEndian |}.

(** A BigTIFF directory entry: StripOffsets (273), LONG (4), count 1,
    value 16. *)
Definition bigtiff_stripoffsets_entry : list byte :=
  [ x11; x01;  x04; x00;
    x01; x00; x00; x00; x00; x00; x00; x00;
    x10; x00; x00; x00; x00; x00; x00; x00 ].

(** A Classic directory entry: StripOffsets (273), SHORT (3), count 1,
    value 16. *)
Definition classic_stripoffsets_entry : list byte :=
  [ x11; x01;  x03; x00;  x01; x00; x00; x00;  x10; x00; x00; x00 ].

(** A little-endian Classic directory with the given tags and types. *)
Definition sample_directory (tags : dict pyval) (types : dict Z)
  : ImageFileDirectory_v2.t :=
  {| ImageFileDirectory_v2._endian := LittleEndian;
     ImageFileDirectory_v2._bigtiff := false;
     ImageFileDirectory_v2.group := None;
     ImageFileDirectory_v2.tagtype := types;
     ImageFileDirectory_v2._tags_v1 := [];
     ImageFileDirectory_v2._tags_v2 := tags;
     ImageFileDirectory_v2._tagdata := [];
     ImageFileDirectory_v2.legacy_api := false |}.

(** Tag 300 with three SHORT values, set before tag 256 with one. *)
Definition two_tag_directory : ImageFileDirectory_v2.t :=
  sample_directory
    [(300, PyTuple [PyInt 1; PyInt 2; PyInt 3]); (256, PyInt 7)]
    [(300, TiffTags.SHORT); (256, TiffTags.SHORT)].

(** StripOffsets as a single SHORT with value 8. *)
Definition short_strip_directory : ImageFileDirectory_v2.t :=
  sample_directory [(STRIPOFFSETS, PyInt 8)] [(STRIPOFFSETS, TiffTags.SHORT)].

(** A file of two directories, at offsets 8 and 100, whose second next
    pointer leads back to the first. *)
Definition two_directory_cycle : gmap Z (result Z) :=
  {[ 8 := Ok 100; 100 := Ok 8 ]}.

(** Every frame sets up; and the answer of [_seek_check] for a frame
    that it lets pass, one inside the sequence or, while the count is not
    known and the upper limit is not checked, any frame from 0 on: whether
    the cursor has to move. *)
Definition sample_setup (pos : Z) : result unit := Ok tt.

Definition sample_seek_check (st : TiffImageFile.t) (frame : Z)
  : result bool :=
  Ok (negb (TiffImageFile.tell st =? frame)).

(** The cursor that [_open] leaves on that file. *)
Definition cycle_opened : TiffImageFile.t :=
  {| TiffImageFile.__first := 8; TiffImageFile.__next := 100;
     TiffImageFile.__frame := 0; TiffImageFile._frame_pos := [8];
     TiffImageFile._n_frames := None;
     TiffImageFile.is_animated := Some true;
     TiffImageFile.tag_v2_next := 100 |}.

(** What [TiffTags.lookup] returns for a tag the tag dictionary does not
    know: no type, no length, and a [cvt_enum] that returns its argument. *)
Definition unknown_tag (tag : Z) (group : option Z) : TagInfo :=
  {| info_type := None; info_length := None; cvt_enum := PyStr |}.

(** [float(z)] for an integer below 2^53 in magnitude, which binary64
    represents exactly; larger integers are outside the samples. *)
Definition float_of_int_53 (z : Z) : result pyval :=
  if z =? 0 then Ok (PyFloat 0)
  else if Z.abs z <? 2 ^ 53 then
    let e := Z.log2 (Z.abs z) in
    Ok (PyFloat ((if z <? 0 then 2 ^ 63 else 0)
                 + (1023 + e) * 2 ^ 52
                 + (Z.abs z * 2 ^ (52 - e) - 2 ^ 52)))
  else Raise (ValueError "integer beyond the samples").

(** A directory that holds tag 700 as raw data only: two SHORTs. *)
Definition raw_short_directory : ImageFileDirectory_v2.t :=
  {| ImageFileDirectory_v2._endian := LittleEndian;
     ImageFileDirectory_v2._bigtiff := false;
     ImageFileDirectory_v2.group := None;
     ImageFileDirectory_v2.tagtype := [(700, TiffTags.SHORT)];
     ImageFileDirectory_v2._tags_v1 := [];
     ImageFileDirectory_v2._tags_v2 := [];
     ImageFileDirectory_v2._tagdata := [(700, [x01; x00; x02; x00])];
     ImageFileDirectory_v2.legacy_api := false |}.

(** A first page of sixteen bytes followed by a big-endian header. *)
Definition mixed_order_file : list byte :=
  [x49; x49; x2a; x00; x08; x00; x00; x00;
   x00; x00; x00; x00; x00; x00; x00; x00;
   x4d; x4d; x00; x2a; x00; x00; x00; x08].

(** The cursor on the two-directory cycle after both directories have been
    visited. *)
Definition cycle_counted : TiffImageFile.t :=
  {| TiffImageFile.__first := 8; TiffImageFile.__next := 0;
     TiffImageFile.__frame := 1; TiffImageFile._frame_pos := [8; 100];
     TiffImageFile._n_frames := Some 2;
     TiffImageFile.is_animated := Some true;
     TiffImageFile.tag_v2_next := 8 |}.

(** The header and the directory that [save] writes for
    [short_strip_directory] on an empty file. *)
Definition saved_header : list byte :=
  [x49; x49; x2a; x00; x08; x00; x00; x00].

Definition saved_directory : list byte :=
  [ x01; x00;
    x11; x01;  x03; x00;  x01; x00; x00; x00;  x22; x00; x00; x00;
    x00; x00; x00; x00 ].

(** A first page of sixteen bytes with an empty directory, followed by a
    second page as [save] writes it at position 0: header, one inline
    SHORT tag (256, value 7) and a zero next pointer. *)
Definition two_page_file : list byte :=
  [x49; x49; x2a; x00; x08; x00; x00; x00;
   x00; x00;  x00; x00; x00; x00;  x00; x00;
   x49; x49; x2a; x00; x08; x00; x00; x00;
   x01; x00;
   x00; x01;  x03; x00;  x01; x00; x00; x00;  x07; x00; x00; x00;
   x00; x00; x00; x00].

(** * Properties *)

(** ** Rationals *)

Lemma limit_loop_fuel (fuel : nat) (m p0 q0 p1 q1 n d : Z) :
  (Z.abs_nat d < fuel)%nat ->
  Fraction.limit_loop fuel m p0 q0 p1 q1 n d <> None.
Proof.
  revert p0 q0 p1 q1 n d.
  induction fuel as [|fuel IH]; intros p0 q0 p1 q1 n d Hd; [lia|].
  simpl. destruct (Z.eqb_spec d 0) as [->|Hne]; [discriminate|].
  destruct (m <? q0 + n / d * q1); [discriminate|].
  apply IH.
  assert (n - n / d * d = n mod d) as -> by (rewrite Z.mod_eq by done; lia).
  pose proof (Z.mod_pos_bound n d). pose proof (Z.mod_neg_bound n d). lia.
Qed.

Lemma limit_denominator_small (q : Fraction.t) (m : Z) :
  1 <= m -> Fraction.denominator q <= m ->
  Fraction.limit_denominator q m = Ok q.
Proof.
  intros Hm Hq. unfold Fraction.limit_denominator.
  destruct (Z.ltb_spec m 1); [lia|].
  destruct (Z.leb_spec (Fraction.denominator q) m); [done|lia].
Qed.

(** C8.  For integers [n] and [d] with [0 < d <= 2^32 - 1] and
    [gcd(n, d) = 1], [IFDRational(n, d).limit_rational(2^32 - 1)] returns
    the pair [(n, d)] itself. *)
Theorem limit_rational_lowest_terms_identity (n d : Z) :
  0 < d -> d <= 2 ^ 32 - 1 -> Z.gcd n d = 1 ->
  IFDRational.limit_rational (IFDRational.__init__ n d) (2 ^ 32 - 1)
  = Ok (n, d).
Proof.
  intros Hpos Hmax Hgcd.
  unfold IFDRational.limit_rational, IFDRational.__init__,
    IFDRational.denominator, IFDRational.numerator. simpl.
  destruct (Z.eqb_spec d 0) as [?|_]; [lia|].
  destruct (Z.eqb_spec d 1) as [->|Hd1].
  - rewrite limit_denominator_small by (simpl; lia). done.
  - unfold Fraction.make.
    destruct (Z.eqb_spec d 0) as [?|_]; [lia|].
    destruct (Z.ltb_spec d 0) as [?|_]; [lia|].
    rewrite Hgcd, !Z.div_1_r.
    rewrite limit_denominator_small by (simpl; lia). done.
Qed.

Lemma limit_rational_lowest_terms_identity_witness :
  IFDRational.limit_rational (IFDRational.__init__ 22 7) (2 ^ 32 - 1)
  = Ok (22, 7).
Proof.
  apply (limit_rational_lowest_terms_identity 22 7); [lia | lia | reflexivity].
Defined.

(** ** The ASCII codec *)

Lemma Z_of_byte_of_Z (c : Z) : 0 <= c < 256 -> Z_of_byte (byte_of_Z c) = c.
Proof.
  intros Hc. unfold Z_of_byte, byte_of_Z.
  rewrite Z.mod_small by lia.
  destruct (Byte.of_N (Z.to_N c)) as [b|] eqn:Hb.
  - apply Byte.to_of_N in Hb. rewrite Hb. lia.
  - apply Byte.of_N_None_iff in Hb. lia.
Qed.

Lemma decode_encode_ascii (s : str) :
  Forall (fun c => 0 <= c < 128) s ->
  ImageFileDirectory_v2.decode_latin1 (ImageFileDirectory_v2.encode_ascii s) = s.
Proof.
  unfold ImageFileDirectory_v2.decode_latin1, ImageFileDirectory_v2.encode_ascii.
  induction 1 as [|c s Hc _ IH]; [done|].
  simpl. rewrite IH. f_equal.
  destruct (Z.leb_spec 0 c); [|lia]. destruct (Z.ltb_spec c 128); [|lia].
  simpl. apply Z_of_byte_of_Z. lia.
Qed.

Lemma load_string_terminated (data : list byte) :
  ImageFileDirectory_v2.load_string (data ++ [x00])
  = ImageFileDirectory_v2.decode_latin1 data.
Proof.
  unfold ImageFileDirectory_v2.load_string, ImageFileDirectory_v2.endswith_nul.
  rewrite last_snoc. rewrite bool_decide_eq_true_2 by done.
  rewrite length_app. simpl.
  replace (length data + 1 - 1)%nat with (length data) by lia.
  by rewrite take_app_length.
Qed.

(** C7.  For a string [s] of ASCII characters the writer produces the
    ASCII bytes of [s] followed by one NUL byte, and the loader applied to
    these bytes strips that NUL and returns [s]. *)
Theorem ascii_write_load_roundtrip (s : str) :
  Forall (fun c => 0 <= c < 128) s ->
  ImageFileDirectory_v2.write_string (PyStr s)
  = Ok (ImageFileDirectory_v2.encode_ascii s ++ [x00])
  /\ ImageFileDirectory_v2.load_string
       (ImageFileDirectory_v2.encode_ascii s ++ [x00]) = s.
Proof.
  intros Hs. split; [done|].
  rewrite load_string_terminated. by apply decode_encode_ascii.
Qed.

Lemma ascii_write_load_roundtrip_witness :
  ImageFileDirectory_v2.write_string (PyStr [80; 73; 76; 0])
  = Ok (ImageFileDirectory_v2.encode_ascii [80; 73; 76; 0] ++ [x00])
  /\ ImageFileDirectory_v2.load_string
       (ImageFileDirectory_v2.encode_ascii [80; 73; 76; 0] ++ [x00])
     = [80; 73; 76; 0].
Proof.
  apply (ascii_write_load_roundtrip [80; 73; 76; 0]).
  repeat constructor; lia.
Defined.

(** ** Deleting a tag *)

Lemma dict_contains_pop {V} (k : Z) (d : dict V) :
  dict_contains k (dict_pop k d) = false.
Proof.
  unfold dict_contains, dict_pop.
  induction d as [|[k' v] d IH]; [done|].
  rewrite filter_cons. simpl. case_decide as Hk; [|done].
  simpl. rewrite IH. destruct (Z.eqb_spec k' k); [done|done].
Qed.

Lemma dict_contains_pop_ne {V} (k j : Z) (d : dict V) :
  j <> k -> dict_contains j (dict_pop k d) = dict_contains j d.
Proof.
  intros Hne. unfold dict_contains, dict_pop.
  induction d as [|[k' v] d IH]; [done|].
  rewrite filter_cons. simpl. case_decide as Hk; simpl.
  - by rewrite IH.
  - rewrite IH. destruct (Z.eqb_spec k' j); [congruence|done].
Qed.

Lemma dict_pop_absent {V} (k : Z) (d : dict V) :
  dict_contains k d = false -> dict_pop k d = d.
Proof.
  unfold dict_contains, dict_pop.
  induction d as [|[k' v] d IH]; [done|].
  simpl. intros [Hk Hd]%orb_false_elim.
  rewrite filter_cons. simpl.
  destruct (Z.eqb_spec k' k); [done|].
  rewrite decide_True by done. by rewrite IH.
Qed.

(** C9.  [__delitem__] is total, so it cannot raise.  Afterwards the tag
    is in none of the three stores and the membership test is false; other
    tags are members exactly as before; and a tag that was in no store
    leaves the directory as it was. *)
Theorem delitem_removes_and_never_raises
  (self : ImageFileDirectory_v2.t) (tag : Z) :
  let self' := ImageFileDirectory_v2.__delitem__ self tag in
  ImageFileDirectory_v2.__contains__ self' tag = false
  /\ dict_contains tag (ImageFileDirectory_v2._tags_v2 self') = false
  /\ dict_contains tag (ImageFileDirectory_v2._tags_v1 self') = false
  /\ dict_contains tag (ImageFileDirectory_v2._tagdata self') = false
  /\ (forall other, other <> tag ->
        ImageFileDirectory_v2.__contains__ self' other
        = ImageFileDirectory_v2.__contains__ self other)
  /\ (dict_contains tag (ImageFileDirectory_v2._tags_v2 self) = false ->
      dict_contains tag (ImageFileDirectory_v2._tags_v1 self) = false ->
      dict_contains tag (ImageFileDirectory_v2._tagdata self) = false ->
      self' = self).
Proof.
  unfold ImageFileDirectory_v2.__contains__, ImageFileDirectory_v2.__delitem__.
  simpl. rewrite !dict_contains_pop. repeat split; try done.
  - intros other Hne. by rewrite !dict_contains_pop_ne.
  - intros H2 H1 Hd. rewrite !dict_pop_absent by done. by destruct self.
Qed.

(** ** Type inference *)

Lemma int_flags_fold (zs : list Z) (a b c : bool) :
  fold_left ImageFileDirectory_v2.int_flags_step zs (a, b, c)
  = (a && forallb (fun v => (0 <=? v) && (v <? 2 ^ 16)) zs,
     b && forallb (fun v => (- 2 ^ 15 <? v) && (v <? 2 ^ 15)) zs,
     c && forallb (fun v => 0 <=? v) zs).
Proof.
  revert a b c. induction zs as [|z zs IH]; intros a b c.
  - simpl. by rewrite !andb_true_r.
  - cbn [fold_left forallb]. unfold ImageFileDirectory_v2.int_flags_step at 2.
    rewrite IH. f_equal; [f_equal|].
    + destruct a, ((0 <=? z) && (z <? 2 ^ 16)); done.
    + destruct b, ((- 2 ^ 15 <? z) && (z <? 2 ^ 15)); done.
    + destruct c, (Z.ltb_spec z 0), (Z.leb_spec 0 z); simpl; try done; lia.
Qed.

Lemma forallb_is_int_map (zs : list Z) : forallb is_int (map PyInt zs) = true.
Proof. induction zs; [done|]. simpl. done. Qed.

Lemma infer_tagtype_ints (zs : list Z) :
  zs <> [] ->
  ImageFileDirectory_v2.infer_tagtype (map PyInt zs) = nonneg_int_type zs.
Proof.
  intros Hne. unfold ImageFileDirectory_v2.infer_tagtype, nonneg_int_type, all.
  rewrite forallb_is_int_map.
  assert (forallb is_IFDRational (map PyInt zs) = false) as ->
    by (by destruct zs).
  rewrite map_map. simpl (map _ _).
  rewrite map_id, int_flags_fold. by rewrite !andb_true_l.
Qed.

Lemma dict_get_set {V} (k : Z) (v : V) (d : dict V) :
  dict_get k (dict_set k v d) = Some v.
Proof.
  induction d as [|[k' v'] d IH]; simpl.
  - by rewrite Z.eqb_refl.
  - destruct (Z.eqb_spec k' k) as [->|Hne]; simpl.
    + by rewrite Z.eqb_refl.
    + destruct (Z.eqb_spec k' k); [done|]. apply IH.
Qed.

Lemma setitem_tagtype_unknown (self : ImageFileDirectory_v2.t) (tag : Z)
  (value : pyval) :
  dict_contains tag (ImageFileDirectory_v2.tagtype self) = false ->
  dict_get tag (ImageFileDirectory_v2._setitem_tagtype self None tag value)
  = Some (ImageFileDirectory_v2.infer_tagtype
            (ImageFileDirectory_v2.values_of value)).
Proof.
  intros Hnew. unfold ImageFileDirectory_v2._setitem_tagtype.
  rewrite Hnew. simpl. apply dict_get_set.
Qed.




(** ** The appending writer *)

Lemma for_range_raise {S} (body : M S unit) (i n : nat) (s si s' : S) (e : exn) :
  (i < n)%nat ->
  for_range i body s = (Ok tt, si) ->
  body si = (Raise e, s') ->
  for_range n body s = (Raise e, s').
Proof.
  revert n s. induction i as [|i IH]; intros n s Hlt Hrun Hbody.
  - simpl in Hrun. unfold ret in Hrun. injection Hrun as <-.
    destruct n as [|n]; [lia|]. simpl. unfold bind. by rewrite Hbody.
  - destruct n as [|n]; [lia|]. simpl in *. unfold bind in *.
    destruct (body s) as [[[]|e0] s0] eqn:Hs; [|done].
    apply IH; [lia|done|done].
Qed.

Lemma read_keeps_data (field_size v : Z) (w w1 : AppendingTiffWriter.t) :
  AppendingTiffWriter._read field_size w = (Ok v, w1) ->
  exists g, w1 = AppendingTiffWriter.with_f g w
            /\ sdata g = sdata (AppendingTiffWriter.f w).
Proof.
  unfold AppendingTiffWriter._read, AppendingTiffWriter.self_endian,
    AppendingTiffWriter._fmt, AppendingTiffWriter.f_read, bind, lift, ret, raise.
  destruct (AppendingTiffWriter.endian w) as [e|]; [|done].
  destruct (field_size =? 2), (field_size =? 4), (field_size =? 8);
    try done; simpl;
    match goal with |- context [unpack ?e ?c ?bs] => destruct (unpack e c bs) end;
    intros [= <- <-]; eexists; (split; [reflexivity|done]).
Qed.

(** C3.  Let [_fixOffsets] run with a count other than 1.  If its first
    [i] offsets were relocated in place and the next offset read, [v],
    needs a wider field once [offsetOfNewPage] is added (2^16 or more in a
    2-byte field, or 2^32 or more in a 2- or 4-byte field of a BigTIFF
    file), then [_fixOffsets] raises [RuntimeError("not implemented")], and
    the bytes of the file are as they were before that offset was read:
    it is not rewritten and no type code is touched. *)
Theorem fixOffsets_wider_field_not_implemented
  (w wi w1 : AppendingTiffWriter.t) (count field_size v : Z) (i : nat) :
  count <> 1 ->
  (i < Z.to_nat count)%nat ->
  for_range i (AppendingTiffWriter._fixOffsets_body count field_size) w
  = (Ok tt, wi) ->
  AppendingTiffWriter._read field_size wi = (Ok v, w1) ->
  (field_size = 2 /\ 2 ^ 16 <= v + AppendingTiffWriter.offsetOfNewPage wi)
  \/ (AppendingTiffWriter._bigtiff wi = true
      /\ (field_size = 2 \/ field_size = 4)
      /\ 2 ^ 32 <= v + AppendingTiffWriter.offsetOfNewPage wi) ->
  AppendingTiffWriter._fixOffsets count field_size w
  = (Raise (RuntimeError "not implemented"), w1)
  /\ sdata (AppendingTiffWriter.f w1) = sdata (AppendingTiffWriter.f wi).
Proof.
  intros Hcount Hi Hrun Hread Hwide.
  destruct (read_keeps_data _ _ _ _ Hread) as (g & -> & Hg).
  split; [|done].
  unfold AppendingTiffWriter._fixOffsets.
  apply (for_range_raise _ i _ _ wi); [done|done|].
  unfold AppendingTiffWriter._fixOffsets_body, bind at 1.
  rewrite Hread. unfold bind, gets, raise. simpl.
  destruct (Z.eqb_spec count 1) as [?|_]; [done|]. simpl.
  destruct Hwide as [[-> Hv]|(Hbig & Hfs & Hv)].
  - destruct (Z.leb_spec (2 ^ 16) (v + AppendingTiffWriter.offsetOfNewPage wi));
      [|lia].
    by destruct (AppendingTiffWriter._bigtiff wi && _ && _).
  - rewrite Hbig.
    destruct (Z.leb_spec (2 ^ 32) (v + AppendingTiffWriter.offsetOfNewPage wi));
      [|lia].
    by destruct Hfs as [-> | ->].
Qed.

(** C10.  When the page under construction is not the first and the file
    ends at or before [offsetOfNewPage], [finalize] returns normally; the
    bytes of the file are unchanged and only the position of the stream has
    moved, to [offsetOfNewPage]. *)
Theorem finalize_without_page_writes_nothing (w : AppendingTiffWriter.t) :
  AppendingTiffWriter.isFirst w = false ->
  Z.of_nat (length (sdata (AppendingTiffWriter.f w)))
  <= AppendingTiffWriter.offsetOfNewPage w ->
  AppendingTiffWriter.finalize w
  = (Ok tt,
     AppendingTiffWriter.with_f
       {| sdata := sdata (AppendingTiffWriter.f w);
          spos := AppendingTiffWriter.offsetOfNewPage w |} w).
Proof.
  intros Hfirst Hend.
  unfold AppendingTiffWriter.finalize, bind at 1. unfold gets at 1.
  rewrite Hfirst.
  unfold bind at 1. unfold gets at 1.
  unfold bind at 1. unfold AppendingTiffWriter.f_seek, stream_seek.
  destruct (Z.ltb_spec (AppendingTiffWriter.offsetOfNewPage w) 0); [lia|].
  unfold bind at 1. unfold AppendingTiffWriter.f_read, stream_read. simpl.
  rewrite drop_ge by lia. rewrite take_nil. simpl. unfold ret.
  by rewrite Z.add_0_r.
Qed.

Lemma fixOffsets_wider_field_not_implemented_witness :
  let w := sample_writer false [x00; x00; x00; x00] 0 (2 ^ 16) in
  AppendingTiffWriter._fixOffsets 2 2 w
  = (Raise (RuntimeError "not implemented"),
     sample_writer false [x00; x00; x00; x00] 2 (2 ^ 16))
  /\ sdata (AppendingTiffWriter.f
              (sample_writer false [x00; x00; x00; x00] 2 (2 ^ 16)))
     = sdata (AppendingTiffWriter.f w).
Proof.
  intros w.
  apply (fixOffsets_wider_field_not_implemented w w _ 2 2 0 0%nat);
    [lia | simpl; lia | reflexivity | reflexivity | left; split; [reflexivity|]].
  simpl. lia.
Defined.

Lemma finalize_without_page_writes_nothing_witness :
  let w := sample_writer false
             [x49; x49; x2a; x00; x08; x00; x00; x00;
              x00; x00; x00; x00; x00; x00; x00; x00] 0 16 in
  AppendingTiffWriter.finalize w
  = (Ok tt,
     AppendingTiffWriter.with_f
       {| sdata := sdata (AppendingTiffWriter.f w);
          spos := AppendingTiffWriter.offsetOfNewPage w |} w).
Proof.
  intros w. apply (finalize_without_page_writes_nothing w);
    [reflexivity | simpl; lia].
Defined.

(** C1 in a BigTIFF file.  A LONG StripOffsets entry with count 1 and
    value 16 is relocated by 2^32.  The 8-byte value becomes 2^32 + 16, but
    the two bytes written next are the new field size 8, not the type code
    16 of LONG8, and they land six bytes before the end of the value
    field, inside the 8-byte count: the type code is still 4 and the
    count reads 524289. *)
Theorem fixOffsets_bigtiff_promotion_miswrites_type :
  let w := sample_writer true bigtiff_stripoffsets_entry 12 (2 ^ 32) in
  exists w',
    AppendingTiffWriter._fixOffsets 1 4 w = (Ok tt, w')
    /\ sdata (AppendingTiffWriter.f w')
       = [ x11; x01;  x04; x00;
           x01; x00; x08; x00; x00; x00; x00; x00;
           x10; x00; x00; x00; x01; x00; x00; x00 ]
    /\ unpack LittleEndian fmt_H
         (take 2 (drop 2 (sdata (AppendingTiffWriter.f w')))) = Ok 4
    /\ unpack LittleEndian fmt_Q
         (take 8 (drop 4 (sdata (AppendingTiffWriter.f w')))) = Ok 524289
    /\ unpack LittleEndian fmt_Q
         (take 8 (drop 12 (sdata (AppendingTiffWriter.f w')))) = Ok (2 ^ 32 + 16).
Proof. eexists. split; [vm_compute; reflexivity|]. repeat split. Qed.

(** The same entry in a Classic file, SHORT relocated by 2^16: here the
    type code becomes 4 (LONG) and the count stays 1. *)
Lemma fixOffsets_classic_promotion_sample :
  let w := sample_writer false classic_stripoffsets_entry 8 (2 ^ 16) in
  exists w',
    AppendingTiffWriter._fixOffsets 1 2 w = (Ok tt, w')
    /\ sdata (AppendingTiffWriter.f w')
       = [ x11; x01;  x04; x00;  x01; x00; x00; x00;  x10; x00; x01; x00 ].
Proof. eexists. split; vm_compute; reflexivity. Qed.

(** *** Relocation with promotion, byte by byte *)

Section promotion.

Import AppendingTiffWriter.

Lemma f_read_at (w : t) (A B C : list byte) :
  f_read (Z.of_nat (length B)) (at_position (A ++ B ++ C) (Z.of_nat (length A)) w)
  = (Ok B, at_position (A ++ B ++ C) (Z.of_nat (length A) + Z.of_nat (length B)) w).
Proof.
  unfold f_read, at_position, stream_read. simpl.
  rewrite !Nat2Z.id, drop_app_length, take_app_length. done.
Qed.

Lemma f_write_at (w : t) (A R bs : list byte) :
  f_write bs (at_position (A ++ R) (Z.of_nat (length A)) w)
  = (Ok (Z.of_nat (length bs)),
     at_position (A ++ bs ++ drop (length bs) R)
         (Z.of_nat (length A) + Z.of_nat (length bs)) w).
Proof.
  unfold f_write, at_position, stream_write. simpl.
  rewrite Nat2Z.id, length_app.
  replace (length A - (length A + length R))%nat with 0%nat by lia.
  simpl. rewrite app_nil_r, take_app_length, drop_app_add'; done.
Qed.

Lemma f_seek_cur_at (w : t) (D : list byte) (p delta : Z) :
  0 <= p + delta ->
  f_seek_cur delta (at_position D p w) = (Ok tt, at_position D (p + delta) w).
Proof.
  intros Hp. unfold f_seek_cur, at_position, stream_seek_cur, stream_seek. simpl.
  destruct (Z.ltb_spec (p + delta) 0); [lia|done].
Qed.

Lemma le_bytes_length (n : nat) (v : Z) : length (le_bytes n v) = n.
Proof. revert v. induction n; intros v; simpl; [done|]. by rewrite IHn. Qed.

Lemma pack_length (e : Endian) (c : Fmt) (v : Z) (bs : list byte) :
  pack e c v = Ok bs -> length bs = calcsize c.
Proof.
  unfold pack. destruct (_ && _); [|done]. intros [= <-].
  destruct e; simpl; rewrite ?length_rev; apply le_bytes_length.
Qed.

Lemma bind_ok {S A B} (m : M S A) (k : A -> M S B) (s s' : S) (a : A) :
  m s = (Ok a, s') -> bind m k s = k a s'.
Proof. intros H. unfold bind. by rewrite H. Qed.

Lemma read_at (e : Endian) (c : Fmt) (n v : Z) (w : t) (A B C : list byte) :
  endian w = Some e ->
  _fmt n = ret c ->
  n = Z.of_nat (length B) ->
  unpack e c B = Ok v ->
  _read n (at_position (A ++ B ++ C) (Z.of_nat (length A)) w)
  = (Ok v, at_position (A ++ B ++ C) (Z.of_nat (length A) + n) w).
Proof.
  intros He Hc -> Hv. unfold _read.
  erewrite bind_ok by (unfold self_endian, at_position; simpl; rewrite He; reflexivity).
  rewrite Hc. unfold bind at 1, ret at 1.
  rewrite (bind_ok _ _ _ _ _ (f_read_at w A B C)).
  unfold lift. by rewrite Hv.
Qed.

Lemma write_at (e : Endian) (c : Fmt) (n v : Z) (w : t) (A R bs : list byte) :
  endian w = Some e ->
  _fmt n = ret c ->
  n = Z.of_nat (calcsize c) ->
  pack e c v = Ok bs ->
  _write v n (at_position (A ++ R) (Z.of_nat (length A)) w)
  = (Ok tt, at_position (A ++ bs ++ drop (length bs) R) (Z.of_nat (length A) + n) w).
Proof.
  intros He Hc Hn Hbs. unfold _write.
  erewrite bind_ok by (unfold self_endian, at_position; simpl; rewrite He; reflexivity).
  rewrite Hc. unfold bind at 1, ret at 1.
  erewrite bind_ok by (unfold lift; rewrite Hbs; reflexivity).
  rewrite (bind_ok _ _ _ _ _ (f_write_at w A R bs)).
  unfold _verify_bytes_written. rewrite (pack_length _ _ _ _ Hbs), <- Hn.
  rewrite Z.eqb_refl. simpl. done.
Qed.

Lemma rewriteLast_at (e : Endian) (c : Fmt) (fs nfs n v : Z) (w : t)
  (A R bs : list byte) :
  endian w = Some e ->
  n = (if nfs =? 0 then fs else nfs) ->
  _fmt n = ret c ->
  n = Z.of_nat (calcsize c) ->
  pack e c v = Ok bs ->
  _rewriteLast v fs nfs (at_position (A ++ R) (Z.of_nat (length A) + fs) w)
  = (Ok tt, at_position (A ++ bs ++ drop (length bs) R) (Z.of_nat (length A) + n) w).
Proof.
  intros He Hn Hc Hsize Hbs. unfold _rewriteLast.
  erewrite bind_ok by (apply f_seek_cur_at; lia).
  replace (Z.of_nat (length A) + fs + - fs) with (Z.of_nat (length A)) by lia.
  rewrite <- Hn.
  erewrite bind_ok by (unfold self_endian, at_position; simpl; rewrite He; reflexivity).
  rewrite Hc. unfold bind at 1, ret at 1.
  erewrite bind_ok by (unfold lift; rewrite Hbs; reflexivity).
  rewrite (bind_ok _ _ _ _ _ (f_write_at w A R bs)).
  unfold _verify_bytes_written. rewrite (pack_length _ _ _ _ Hbs), <- Hsize.
  rewrite Z.eqb_refl. simpl. done.
Qed.

(** Promotion in a Classic file, in general.  The stream holds an entry
    (tag, type, 4-byte count, value) whose value field starts with a SHORT
    [v], and is positioned at the value field; [v + offsetOfNewPage] needs
    more than 16 bits and fits 32.  [_fixOffsets(1, 2)] stores the relocated
    offset as a LONG in the value field, overwrites the type code with 4
    (LONG) and leaves the tag and the count as they were. *)
Lemma fixOffsets_classic_promotion (e : Endian) (w : t)
  (pre tagb typb cntb valb post : list byte) (v : Z) :
  endian w = Some e -> _bigtiff w = false ->
  length tagb = 2%nat -> length typb = 2%nat -> length cntb = 4%nat ->
  length valb = 2%nat ->
  unpack e fmt_H valb = Ok v ->
  2 ^ 16 <= v + offsetOfNewPage w < 2 ^ 32 ->
  exists typb' valb',
    pack e fmt_H 4 = Ok typb'
    /\ pack e fmt_L (v + offsetOfNewPage w) = Ok valb'
    /\ _fixOffsets 1 2
         (at_position (pre ++ tagb ++ typb ++ cntb ++ valb ++ post)
              (Z.of_nat (length pre) + 8) w)
       = (Ok tt,
          at_position (pre ++ tagb ++ typb' ++ cntb ++ valb' ++ drop 2 post)
              (Z.of_nat (length pre) + 16) w).
Proof.
  intros He Hbig Htag Htyp Hcnt Hval Hv Hrange.
  destruct (pack e fmt_H 4) as [typb'|] eqn:Htypb'; [|by destruct e].
  destruct (pack e fmt_L (v + offsetOfNewPage w)) as [valb'|] eqn:Hvalb'.
  2:{ unfold pack in Hvalb'. revert Hvalb'.
      destruct (Z.leb_spec (fmt_min fmt_L) (v + offsetOfNewPage w)) as [|Hlo];
        [|simpl in Hlo; unfold fmt_min in Hlo; simpl in Hlo; lia].
      destruct (Z.ltb_spec (v + offsetOfNewPage w) (fmt_max fmt_L)) as [|Hhi];
        [done|]. unfold fmt_max, fmt_bits in Hhi. simpl in Hhi. lia. }
  exists typb', valb'. split; [done|]. split; [done|].
  pose proof (pack_length _ _ _ _ Htypb') as Hlt. simpl in Hlt.
  pose proof (pack_length _ _ _ _ Hvalb') as Hlv. simpl in Hlv.
  unfold _fixOffsets. simpl. unfold bind at 1.
  unfold _fixOffsets_body.
  (* read the SHORT offset *)
  replace (pre ++ tagb ++ typb ++ cntb ++ valb ++ post)
    with ((pre ++ tagb ++ typb ++ cntb) ++ valb ++ post)
    by (by rewrite <- !app_assoc).
  replace (Z.of_nat (length pre) + 8)
    with (Z.of_nat (length (pre ++ tagb ++ typb ++ cntb)))
    by (rewrite !length_app; lia).
  erewrite bind_ok by (apply (read_at e fmt_H); [done|done|lia|done]).
  unfold bind at 1, gets at 1. unfold bind at 1, gets at 1.
  change (offsetOfNewPage (at_position _ _ w)) with (offsetOfNewPage w).
  change (_bigtiff (at_position _ _ w)) with (_bigtiff w).
  rewrite Hbig. simpl.
  destruct (Z.leb_spec (2 ^ 16) (v + offsetOfNewPage w)) as [_|]; [|lia].
  simpl.
  (* widen the value *)
  erewrite bind_ok.
  2:{ apply (rewriteLast_at e fmt_L 2 4 4); [done|done|done|done|exact Hvalb']. }
  (* move back to the type code and overwrite it *)
  erewrite bind_ok by (apply f_seek_cur_at; rewrite !length_app; lia).
  rewrite Hlv. simpl (drop 4 (valb ++ post)).
  replace (drop 4 (valb ++ post)) with (drop 2 post).
  2:{ destruct valb as [|a [|b [|]]]; try done. }
  replace ((pre ++ tagb ++ typb ++ cntb) ++ valb' ++ drop 2 post)
    with ((pre ++ tagb) ++ typb ++ cntb ++ valb' ++ drop 2 post)
    by (by rewrite <- !app_assoc).
  match goal with
  | |- context [at_position _ ?p w] =>
      replace p with (Z.of_nat (length (pre ++ tagb)))
        by (rewrite !length_app; lia)
  end.
  unfold writeShort.
  erewrite bind_ok.
  2:{ apply (write_at e fmt_H 2 4); [done|done|done|exact Htypb']. }
  rewrite Hlt.
  replace (drop 2 (typb ++ cntb ++ valb' ++ drop 2 post))
    with (cntb ++ valb' ++ drop 2 post).
  2:{ destruct typb as [|a [|b [|]]]; try done. }
  rewrite f_seek_cur_at by (rewrite !length_app; lia).
  unfold ret. f_equal. f_equal; [by rewrite <- !app_assoc|].
  rewrite !length_app. lia.
Qed.

(** Promotion in a BigTIFF file, in general.  The entry has an 8-byte
    count and its value field starts with a LONG [v]; [v + offsetOfNewPage]
    needs more than 32 bits.  [_fixOffsets(1, 4)] stores the relocated offset
    in the 8-byte value field, but the type code keeps its bytes and the
    number 8 is written over bytes 2 and 3 of the count. *)
Lemma fixOffsets_bigtiff_promotion (e : Endian) (w : t)
  (pre tagb typb cntb valb post : list byte) (v : Z) :
  endian w = Some e -> _bigtiff w = true ->
  length tagb = 2%nat -> length typb = 2%nat -> length cntb = 8%nat ->
  length valb = 4%nat ->
  unpack e fmt_L valb = Ok v ->
  2 ^ 32 <= v + offsetOfNewPage w < 2 ^ 64 ->
  exists eight valb',
    pack e fmt_H 8 = Ok eight
    /\ pack e fmt_Q (v + offsetOfNewPage w) = Ok valb'
    /\ _fixOffsets 1 4
         (at_position (pre ++ tagb ++ typb ++ cntb ++ valb ++ post)
              (Z.of_nat (length pre) + 12) w)
       = (Ok tt,
          at_position (pre ++ tagb ++ typb
               ++ (take 2 cntb ++ eight ++ drop 4 cntb)
               ++ valb' ++ drop 4 post)
              (Z.of_nat (length pre) + 24) w).
Proof.
  intros He Hbig Htag Htyp Hcnt Hval Hv Hrange.
  destruct (pack e fmt_H 8) as [eight|] eqn:Height; [|by destruct e].
  destruct (pack e fmt_Q (v + offsetOfNewPage w)) as [valb'|] eqn:Hvalb'.
  2:{ unfold pack in Hvalb'. revert Hvalb'.
      destruct (Z.leb_spec (fmt_min fmt_Q) (v + offsetOfNewPage w)) as [|Hlo];
        [|simpl in Hlo; unfold fmt_min in Hlo; simpl in Hlo; lia].
      destruct (Z.ltb_spec (v + offsetOfNewPage w) (fmt_max fmt_Q)) as [|Hhi];
        [done|]. unfold fmt_max, fmt_bits in Hhi. simpl in Hhi. lia. }
  exists eight, valb'. split; [done|]. split; [done|].
  pose proof (pack_length _ _ _ _ Height) as Hle. simpl in Hle.
  pose proof (pack_length _ _ _ _ Hvalb') as Hlv. simpl in Hlv.
  unfold _fixOffsets. simpl. unfold bind at 1.
  unfold _fixOffsets_body.
  (* read the LONG offset *)
  replace (pre ++ tagb ++ typb ++ cntb ++ valb ++ post)
    with ((pre ++ tagb ++ typb ++ cntb) ++ valb ++ post)
    by (by rewrite <- !app_assoc).
  replace (Z.of_nat (length pre) + 12)
    with (Z.of_nat (length (pre ++ tagb ++ typb ++ cntb)))
    by (rewrite !length_app; lia).
  erewrite bind_ok by (apply (read_at e fmt_L); [done|done|lia|done]).
  unfold bind at 1, gets at 1. unfold bind at 1, gets at 1.
  change (offsetOfNewPage (at_position _ _ w)) with (offsetOfNewPage w).
  change (_bigtiff (at_position _ _ w)) with (_bigtiff w).
  rewrite Hbig. simpl.
  destruct (Z.leb_spec (2 ^ 32) (v + offsetOfNewPage w)) as [_|]; [|lia].
  simpl.
  (* widen the value *)
  erewrite bind_ok.
  2:{ apply (rewriteLast_at e fmt_Q 4 8 8); [done|done|done|done|exact Hvalb']. }
  (* move back by 14 bytes and write the field size *)
  erewrite bind_ok by (apply f_seek_cur_at; rewrite !length_app; lia).
  rewrite Hlv.
  replace (drop 8 (valb ++ post)) with (drop 4 post).
  2:{ destruct valb as [|a [|b [|c [|d [|]]]]]; try done. }
  rewrite <- (take_drop 2 cntb) at 1.
  replace ((pre ++ tagb ++ typb ++ take 2 cntb ++ drop 2 cntb)
           ++ valb' ++ drop 4 post)
    with ((pre ++ tagb ++ typb ++ take 2 cntb)
          ++ drop 2 cntb ++ valb' ++ drop 4 post)
    by (by rewrite <- !app_assoc).
  match goal with
  | |- context [at_position _ ?p w] =>
      replace p with (Z.of_nat (length (pre ++ tagb ++ typb ++ take 2 cntb)))
        by (rewrite !length_app, length_take; lia)
  end.
  unfold writeShort.
  erewrite bind_ok.
  2:{ apply (write_at e fmt_H 2 8); [done|done|done|exact Height]. }
  rewrite Hle.
  replace (drop 2 (drop 2 cntb ++ valb' ++ drop 4 post))
    with (drop 4 cntb ++ valb' ++ drop 4 post).
  2:{ destruct cntb as [|a [|b [|c [|d l]]]]; try done. }
  rewrite f_seek_cur_at by (rewrite !length_app, length_take; lia).
  unfold ret. f_equal. f_equal; [by rewrite <- !app_assoc|].
  rewrite !length_app, length_take. lia.
Qed.

End promotion.

(** ** Serialisation of a directory *)

#[local] Instance key_le_trans : Transitive ImageFileDirectory_v2.key_le.
Proof. intros x y z. unfold ImageFileDirectory_v2.key_le. lia. Qed.

#[local] Instance key_le_total : Total ImageFileDirectory_v2.key_le.
Proof. intros x y. unfold ImageFileDirectory_v2.key_le. lia. Qed.

Lemma sorted_items_perm (d : dict pyval) :
  ImageFileDirectory_v2.sorted_items d ≡ₚ d.
Proof. apply merge_sort_Permutation. Qed.

Lemma sorted_items_sorted (d : dict pyval) :
  StronglySorted ImageFileDirectory_v2.key_le
                 (ImageFileDirectory_v2.sorted_items d).
Proof. apply StronglySorted_merge_sort; apply _. Qed.

Lemma strictly_sorted_keys (l : list (Z * pyval)) :
  StronglySorted ImageFileDirectory_v2.key_le l ->
  NoDup (map fst l) ->
  StronglySorted Z.lt (map fst l).
Proof.
  induction 1 as [|x l Hl IH Hx]; intros Hnd; simpl; [constructor|].
  apply NoDup_cons in Hnd as [Hnotin Hnd].
  constructor; [by apply IH|].
  apply Forall_forall. intros k Hk.
  apply list_elem_of_fmap in Hk as (y & -> & Hy).
  rewrite Forall_forall in Hx. specialize (Hx y Hy).
  unfold ImageFileDirectory_v2.key_le in Hx.
  assert (fst x <> fst y); [|lia].
  intros Heq. apply Hnotin. rewrite Heq.
  apply list_elem_of_fmap. by exists y.
Qed.

Lemma sorted_items_strict (d : dict pyval) :
  NoDup (dict_keys d) ->
  StronglySorted Z.lt (map fst (ImageFileDirectory_v2.sorted_items d)).
Proof.
  intros Hnd. apply strictly_sorted_keys; [apply sorted_items_sorted|].
  unfold dict_keys in Hnd. by rewrite (sorted_items_perm d).
Qed.

Lemma NoDup_keys_inj (l : list (Z * pyval)) (x y : Z * pyval) :
  NoDup (map fst l) -> x ∈ l -> y ∈ l -> fst x = fst y -> x = y.
Proof.
  induction l as [|z l IH]; intros Hnd Hx Hy Heq; [by inv Hx|].
  simpl in Hnd. apply NoDup_cons in Hnd as [Hnotin Hnd].
  inv Hx; inv Hy; try done.
  - exfalso. apply Hnotin. rewrite Heq. apply list_elem_of_fmap. by exists y.
  - exfalso. apply Hnotin. rewrite <- Heq. apply list_elem_of_fmap. by exists x.
  - by apply IH.
Qed.

Lemma sorted_items_order_independent (d1 d2 : dict pyval) :
  d1 ≡ₚ d2 -> NoDup (dict_keys d1) ->
  ImageFileDirectory_v2.sorted_items d1 = ImageFileDirectory_v2.sorted_items d2.
Proof.
  intros Hperm Hnd.
  apply (StronglySorted_unique_strong ImageFileDirectory_v2.key_le);
    [|apply sorted_items_sorted..|].
  - intros x y Hx Hy Hxy Hyx. unfold ImageFileDirectory_v2.key_le in *.
    apply (NoDup_keys_inj d1); [done| | |lia].
    + by rewrite <- (sorted_items_perm d1).
    + by rewrite Hperm, <- (sorted_items_perm d2).
  - by rewrite !sorted_items_perm.
Qed.

Lemma padded_length (n : Z) :
  0 <= n -> n + (if Z.odd n then 1 else 0) = (n + 1) / 2 * 2.
Proof.
  intros Hn. destruct (Z.odd n) eqn:Hodd.
  - apply Z.odd_spec in Hodd as [m ->].
    replace (2 * m + 1 + 1) with ((m + 1) * 2) by lia.
    rewrite Z.div_mul by lia. lia.
  - rewrite <- Z.negb_even in Hodd. apply negb_false_iff, Z.even_spec in Hodd
      as [m ->].
    replace (2 * m + 1) with (1 + m * 2) by lia.
    rewrite Z.div_add by lia. change (1 / 2) with 0. lia.
Qed.

Section tobytes_properties.

Variable wd : Z -> option (Endian -> list pyval -> result (list byte)).
Variable ld : Z -> option (Z * (Endian -> list byte -> bool -> result pyval)).
Variable add : pyval -> Z -> result pyval.
Variable sub : Endian -> bool -> Z -> list (Z * pyval) -> Z -> result (list byte).

Lemma aux_length_cons (e : ImageFileDirectory_v2.entry)
  (es : list ImageFileDirectory_v2.entry) :
  aux_length (e :: es) = aux_length [e] + aux_length es.
Proof.
  unfold aux_length. simpl. rewrite app_nil_r, length_app. lia.
Qed.

Lemma pass1_step_spec (self : ImageFileDirectory_v2.t)
  (st st' : ImageFileDirectory_v2.pass1_state) (item : Z * pyval) :
  ImageFileDirectory_v2.pass1_step wd sub self st item = Ok st' ->
  exists typ count payload e,
    ImageFileDirectory_v2.encode_tag wd sub self (fst item) (snd item)
      (ImageFileDirectory_v2.offset st) = Ok (typ, count, payload)
    /\ laid_out self (fst item) typ count payload
         (ImageFileDirectory_v2.offset st) e
    /\ ImageFileDirectory_v2.entries st'
       = ImageFileDirectory_v2.entries st ++ [e]
    /\ ImageFileDirectory_v2.offset st'
       = ImageFileDirectory_v2.offset st + aux_length [e]
    /\ ImageFileDirectory_v2.stripoffsets st'
       = if fst item =? STRIPOFFSETS
         then Some (length (ImageFileDirectory_v2.entries st))
         else ImageFileDirectory_v2.stripoffsets st.
Proof.
  unfold ImageFileDirectory_v2.pass1_step.
  destruct (ImageFileDirectory_v2.encode_tag _ _ _ _ _ _)
    as [[[typ count] data]|]; [|done].
  simpl. destruct (length data <=? _)%nat eqn:Hfit.
  - intros [= <-]. eexists typ, count, data, _.
    split; [done|]. split; [|split; [reflexivity|split; [|done]]].
    + unfold laid_out. simpl. rewrite Hfit. done.
    + simpl. unfold aux_length. simpl. lia.
  - destruct (ImageFileDirectory_v2._pack _ _ _) as [v|] eqn:Hv; [|done].
    simpl. intros [= <-]. eexists typ, count, data, _.
    split; [done|]. split; [|split; [reflexivity|split; [|done]]].
    + unfold laid_out. simpl. rewrite Hfit. done.
    + simpl. unfold aux_length, ImageFileDirectory_v2.aux_block. simpl.
      rewrite app_nil_r, length_app.
      rewrite <- padded_length by lia.
      destruct (Z.odd _); simpl; lia.
Qed.

Lemma pass1_fold (self : ImageFileDirectory_v2.t) (items : list (Z * pyval)) :
  forall st st',
  foldM (ImageFileDirectory_v2.pass1_step wd sub self) st items = Ok st' ->
  exists new,
    ImageFileDirectory_v2.entries st'
    = ImageFileDirectory_v2.entries st ++ new
    /\ map ImageFileDirectory_v2.e_tag new = map fst items
    /\ ImageFileDirectory_v2.offset st'
       = ImageFileDirectory_v2.offset st + aux_length new
    /\ (forall i item, items !! i = Some item ->
        exists e typ count payload,
          new !! i = Some e
          /\ ImageFileDirectory_v2.encode_tag wd sub self (fst item) (snd item)
               (ImageFileDirectory_v2.offset st + aux_length (take i new))
             = Ok (typ, count, payload)
          /\ laid_out self (fst item) typ count payload
               (ImageFileDirectory_v2.offset st + aux_length (take i new)) e)
    /\ (forall j, ImageFileDirectory_v2.stripoffsets st' = Some j ->
        ImageFileDirectory_v2.stripoffsets st = Some j
        \/ exists i item,
             j = (length (ImageFileDirectory_v2.entries st) + i)%nat
             /\ items !! i = Some item /\ fst item = STRIPOFFSETS).
Proof.
  induction items as [|item items IH]; intros st st' Hrun.
  - simpl in Hrun. injection Hrun as <-. exists [].
    rewrite app_nil_r. repeat split; try done.
    + unfold aux_length. simpl. lia.
    + auto.
  - simpl in Hrun.
    destruct (ImageFileDirectory_v2.pass1_step wd sub self st item)
      as [st1|] eqn:Hstep; [|done].
    simpl in Hrun.
    destruct (pass1_step_spec _ _ _ _ Hstep)
      as (typ & count & payload & e & Henc & Hlaid & Hent & Hoff & Hstrip).
    destruct (IH _ _ Hrun) as (new & Hent' & Htags & Hoff' & Hat & Hso).
    exists (e :: new). repeat split.
    + rewrite Hent', Hent, <- app_assoc. done.
    + simpl. rewrite Htags. f_equal. apply Hlaid.
    + rewrite Hoff', Hoff, (aux_length_cons e new). lia.
    + intros [|i] it Hit; simpl in Hit.
      * injection Hit as <-. exists e, typ, count, payload.
        simpl. unfold aux_length at 1 2. simpl. rewrite Z.add_0_r. done.
      * destruct (Hat i it Hit) as (e' & typ' & count' & payload' & He' & Henc' & Hl').
        exists e', typ', count', payload'. simpl.
        rewrite (aux_length_cons e (take i new)).
        rewrite Hoff, <- Z.add_assoc in Henc', Hl'. done.
    + intros j Hj. destruct (Hso j Hj) as [Hprev|(i & it & -> & Hit & H273)].
      * rewrite Hstrip in Hprev.
        destruct (Z.eqb_spec (fst item) STRIPOFFSETS) as [Heq|_]; [|by left].
        right. exists 0%nat, item. injection Hprev as <-.
        split; [lia|done].
      * right. exists (S i), it. rewrite Hent, length_app. simpl.
        split; [lia|done].
Qed.

Lemma insert_pointwise {A} (es : list A) (j : nat) (ej e' : A) :
  es !! j = Some ej ->
  forall i e0, es !! i = Some e0 ->
  exists e, <[j := e']> es !! i = Some e
            /\ (i <> j -> e = e0) /\ (i = j -> e = e' /\ e0 = ej).
Proof.
  intros Hj i e0 Hi. destruct (decide (i = j)) as [->|Hne].
  - exists e'. rewrite list_lookup_insert_eq by (by eapply lookup_lt_Some).
    repeat split; [done|congruence].
  - exists e0. rewrite list_lookup_insert_ne by done. done.
Qed.

(** What the update of the strip offsets does to the entries of pass 1. *)
Lemma patch_stripoffsets_spec (self : ImageFileDirectory_v2.t)
  (st : ImageFileDirectory_v2.pass1_state)
  (es : list ImageFileDirectory_v2.entry) :
  ImageFileDirectory_v2.patch_stripoffsets wd ld add self st = Ok es ->
  forall i e0, ImageFileDirectory_v2.entries st !! i = Some e0 ->
  exists e,
    es !! i = Some e
    /\ ImageFileDirectory_v2.e_tag e = ImageFileDirectory_v2.e_tag e0
    /\ (ImageFileDirectory_v2.stripoffsets st <> Some i -> e = e0)
    /\ (ImageFileDirectory_v2.stripoffsets st = Some i ->
        (ImageFileDirectory_v2.e_data e0 = [] ->
         ImageFileDirectory_v2.e_data e = []
         /\ exists v,
              ImageFileDirectory_v2._unpack self
                (ImageFileDirectory_v2.fmt self)
                (ImageFileDirectory_v2.e_value e0) = Ok v
              /\ ImageFileDirectory_v2._pack self
                   (ImageFileDirectory_v2.fmt self)
                   (v + ImageFileDirectory_v2.offset st)
                 = Ok (ImageFileDirectory_v2.e_value e))
        /\ (ImageFileDirectory_v2.e_data e0 <> [] ->
            ImageFileDirectory_v2.e_value e
            = ImageFileDirectory_v2.e_value e0
            /\ exists h loaded vals values w,
                 ld (ImageFileDirectory_v2.e_typ e0) = Some h
                 /\ snd h (ImageFileDirectory_v2._endian self)
                      (ImageFileDirectory_v2.e_data e0)
                      (ImageFileDirectory_v2.legacy_api self) = Ok loaded
                 /\ ImageFileDirectory_v2.iterate loaded = Ok vals
                 /\ mapM (fun val =>
                            add val (ImageFileDirectory_v2.offset st)) vals
                    = Ok values
                 /\ wd (ImageFileDirectory_v2.e_typ e0) = Some w
                 /\ w (ImageFileDirectory_v2._endian self) values
                    = Ok (ImageFileDirectory_v2.e_data e))).
Proof.
  unfold ImageFileDirectory_v2.patch_stripoffsets.
  destruct (ImageFileDirectory_v2.stripoffsets st) as [j|].
  2:{ intros [= <-] i e0 Hi. exists e0. repeat split; done. }
  destruct (ImageFileDirectory_v2.entries st !! j) as [ej|] eqn:Hj; [|done].
  simpl. destruct (Nat.eqb_spec (length (ImageFileDirectory_v2.e_data ej)) 0)
    as [Hempty|Hfull]; simpl.
  - destruct (ImageFileDirectory_v2._unpack _ _ _) as [v|] eqn:Hv; [|done].
    simpl.
    destruct (ImageFileDirectory_v2._pack _ _ _) as [value|] eqn:Hval; [|done].
    simpl. intros [= <-] i e0 Hi.
    destruct (insert_pointwise _ j ej
                {| ImageFileDirectory_v2.e_tag := ImageFileDirectory_v2.e_tag ej;
                   ImageFileDirectory_v2.e_typ := ImageFileDirectory_v2.e_typ ej;
                   ImageFileDirectory_v2.e_count := ImageFileDirectory_v2.e_count ej;
                   ImageFileDirectory_v2.e_value := value;
                   ImageFileDirectory_v2.e_data := ImageFileDirectory_v2.e_data ej |}
                Hj i e0 Hi) as (e & He & Hne & Heq).
    exists e. split; [done|].
    destruct (decide (i = j)) as [->|Hij].
    + destruct (Heq eq_refl) as [-> ->]. simpl.
      split; [done|]. split; [congruence|]. intros _. split.
      * intros Hnil. split; [done|]. by exists v.
      * intros Hdata. by destruct (ImageFileDirectory_v2.e_data ej).
    + rewrite (Hne Hij). split; [done|]. split; [done|congruence].
  - destruct (ld (ImageFileDirectory_v2.e_typ ej)) as [h|] eqn:Hh; [|done].
    simpl. destruct (snd h _ _ _) as [loaded|] eqn:Hload; [|done].
    simpl. destruct (ImageFileDirectory_v2.iterate loaded) as [vals|] eqn:Hit;
      [|done].
    simpl. destruct (mapM _ vals) as [values|] eqn:Hvalues; [|done].
    simpl. destruct (wd (ImageFileDirectory_v2.e_typ ej)) as [w|] eqn:Hw;
      [|done].
    simpl. destruct (w _ values) as [data|] eqn:Hdata; [|done].
    simpl. intros [= <-] i e0 Hi.
    destruct (insert_pointwise _ j ej
                {| ImageFileDirectory_v2.e_tag := ImageFileDirectory_v2.e_tag ej;
                   ImageFileDirectory_v2.e_typ := ImageFileDirectory_v2.e_typ ej;
                   ImageFileDirectory_v2.e_count := ImageFileDirectory_v2.e_count ej;
                   ImageFileDirectory_v2.e_value := ImageFileDirectory_v2.e_value ej;
                   ImageFileDirectory_v2.e_data := data |}
                Hj i e0 Hi) as (e & He & Hne & Heq).
    exists e. split; [done|].
    destruct (decide (i = j)) as [->|Hij].
    + destruct (Heq eq_refl) as [-> ->]. simpl.
      split; [done|]. split; [congruence|]. intros _. split.
      * intros Hnil. rewrite Hnil in Hfull. done.
      * intros _. split; [done|]. by exists h, loaded, vals, values, w.
    + rewrite (Hne Hij). split; [done|]. split; [done|congruence].
Qed.

Lemma patch_stripoffsets_tags (self : ImageFileDirectory_v2.t)
  (st : ImageFileDirectory_v2.pass1_state)
  (es : list ImageFileDirectory_v2.entry) :
  ImageFileDirectory_v2.patch_stripoffsets wd ld add self st = Ok es ->
  map ImageFileDirectory_v2.e_tag es
  = map ImageFileDirectory_v2.e_tag (ImageFileDirectory_v2.entries st).
Proof.
  intros Hpatch. apply list_eq. intros i.
  rewrite !list_lookup_fmap.
  destruct (ImageFileDirectory_v2.entries st !! i) as [e0|] eqn:Hi.
  - destruct (patch_stripoffsets_spec _ _ _ Hpatch i e0 Hi)
      as (e & -> & Htag & _). simpl. by rewrite Htag.
  - revert Hpatch. unfold ImageFileDirectory_v2.patch_stripoffsets.
    destruct (ImageFileDirectory_v2.stripoffsets st) as [j|];
      [|by intros [= <-]; rewrite Hi].
    intros Hpatch.
    assert (exists e', es = <[j := e']> (ImageFileDirectory_v2.entries st))
      as [e' ->].
    { repeat match type of Hpatch with
             | rbind ?r _ = _ => destruct r; simpl in Hpatch; [|done]
             | (if ?b then _ else _) = _ => destruct b; simpl in Hpatch
             end; injection Hpatch as <-; eauto. }
    rewrite (proj2 (list_lookup_insert_None _ _ _ _) Hi). done.
Qed.

Lemma tobytes_entries_tags (self : ImageFileDirectory_v2.t) (offset : Z)
  (es : list ImageFileDirectory_v2.entry) :
  ImageFileDirectory_v2.tobytes_entries wd ld add sub self offset = Ok es ->
  map ImageFileDirectory_v2.e_tag es
  = map fst (ImageFileDirectory_v2.sorted_items
               (ImageFileDirectory_v2._tags_v2 self)).
Proof.
  unfold ImageFileDirectory_v2.tobytes_entries.
  destruct (ImageFileDirectory_v2._pack _ _ _) as [result_|]; [|done]. simpl.
  destruct (ImageFileDirectory_v2.pass1 _ _ _ _) as [st|] eqn:Hpass; [|done].
  simpl. intros Hpatch.
  rewrite (patch_stripoffsets_tags _ _ _ Hpatch).
  destruct (pass1_fold _ _ _ _ Hpass) as (new & -> & Htags & _). done.
Qed.

Lemma tobytes_with_tags_v2 (self : ImageFileDirectory_v2.t) (offset : Z)
  (tags' : dict pyval) :
  tags' ≡ₚ ImageFileDirectory_v2._tags_v2 self ->
  NoDup (dict_keys (ImageFileDirectory_v2._tags_v2 self)) ->
  ImageFileDirectory_v2.tobytes wd ld add sub
    (ImageFileDirectory_v2.with_tags_v2 tags' self) offset
  = ImageFileDirectory_v2.tobytes wd ld add sub self offset.
Proof.
  intros Hperm Hnd. destruct self as [e big g ty v1 tags td la].
  simpl in Hperm, Hnd.
  unfold ImageFileDirectory_v2.tobytes, ImageFileDirectory_v2.tobytes_entries,
    ImageFileDirectory_v2.pass1, ImageFileDirectory_v2.with_tags_v2.
  cbn [ImageFileDirectory_v2._tags_v2].
  rewrite (Permutation_length Hperm).
  rewrite (sorted_items_order_independent tags' tags); [done|done|].
  unfold dict_keys. by rewrite Hperm.
Qed.


End tobytes_properties.

(** The inline-or-spill boundary on the two-tag directory: tag 256 holds
    one SHORT inline, tag 300 holds three SHORTs (6 bytes) at offset 38,
    right after the 30 bytes of the directory written at offset 8. *)
Lemma tobytes_two_tag_directory :
  ImageFileDirectory_v2.tobytes_integer two_tag_directory 8
  = Ok [ x02; x00;
         x00; x01; x03; x00; x01; x00; x00; x00; x07; x00; x00; x00;
         x2c; x01; x03; x00; x03; x00; x00; x00; x26; x00; x00; x00;
         x00; x00; x00; x00;
         x01; x00; x02; x00; x03; x00 ].
Proof. vm_compute. reflexivity. Qed.


(** ** The frame cursor *)

Section reader_properties.

Variable file : gmap Z (result Z).
Variable _setup : Z -> result unit.
Variable _seek_check : TiffImageFile.t -> Z -> result bool.
Variable first : Z.

Lemma unseen_snoc (seen : list Z) (pos : Z) :
  is_Some (file !! pos) -> pos ∉ seen ->
  (TiffImageFile.unseen file (seen ++ [pos]) < TiffImageFile.unseen file seen)%nat.
Proof.
  intros Hpos Hnew. unfold TiffImageFile.unseen. apply subset_size.
  apply elem_of_dom in Hpos. split.
  - intros x. rewrite !elem_of_difference, !elem_of_list_to_set, elem_of_app.
    tauto.
  - intros Hsub. specialize (Hsub pos).
    rewrite !elem_of_difference, !elem_of_list_to_set, elem_of_app,
      list_elem_of_singleton in Hsub. tauto.
Qed.

Lemma walk_unfold (k : nat) (seen : list Z) (off : Z) :
  TiffImageFile.walk file (S k) seen off
  = off :: match file !! off with
           | Some (Ok next) =>
               if (next =? 0) || bool_decide (next ∈ seen ++ [off]) then []
               else TiffImageFile.walk file k (seen ++ [off]) next
           | _ => []
           end.
Proof. done. Qed.

Lemma walk_NoDup (k : nat) : forall seen off,
  NoDup seen -> off ∉ seen -> NoDup (seen ++ TiffImageFile.walk file k seen off).
Proof.
  induction k as [|k IH]; intros seen off Hnd Hoff; simpl.
  - by rewrite app_nil_r.
  - assert (NoDup (seen ++ [off])) as Hnd'.
    { apply NoDup_app. split; [done|]. split; [|apply NoDup_singleton].
      intros x Hx Hx'. apply list_elem_of_singleton in Hx' as ->. done. }
    destruct (file !! off) as [[nx|e]|]; [|done..].
    destruct (Z.eqb_spec nx 0); simpl; [done|].
    case_bool_decide as Hin; [done|].
    rewrite cons_middle, app_assoc. by apply IH.
Qed.

Lemma walk_linked (k : nat) : forall seen off i a b,
  TiffImageFile.walk file k seen off !! i = Some a ->
  TiffImageFile.walk file k seen off !! S i = Some b ->
  file !! a = Some (Ok b).
Proof.
  induction k as [|k IH]; intros seen off i a b; simpl; [done|].
  destruct (file !! off) as [[nx|e]|] eqn:Hoff; [|by destruct i..].
  destruct ((nx =? 0) || bool_decide (nx ∈ seen ++ [off])); [by destruct i|].
  destruct i as [|i]; simpl.
  - intros [= <-]. destruct k; simpl; [done|]. by intros [= <-].
  - apply IH.
Qed.

(** The cursor after one more position has been recorded. *)
Lemma cursor_ok_step (st : TiffImageFile.t) (next' frame' tag' : Z)
  (nf' : option Z) (anim' : option bool) :
  cursor_ok file first st ->
  TiffImageFile.__next st <> 0 ->
  let pos := TiffImageFile.__next st in
  let fp' := TiffImageFile._frame_pos st ++ [pos] in
  (tag' = 0 \/ tag' ∈ fp' \/ tag' = next') ->
  (forall n, file !! pos = Some (Ok n) -> n = 0 \/ n ∈ fp' \/ n = next') ->
  (nf' = None ->
   next' <> 0 /\ (next' ∉ fp')
   /\ exists k, (TiffImageFile.unseen file fp' < k)%nat
                /\ TiffImageFile.acyclic_prefix file first
                   = fp' ++ TiffImageFile.walk file k fp' next') ->
  (forall n, nf' = Some n ->
   next' = 0 /\ TiffImageFile.acyclic_prefix file first = fp') ->
  cursor_ok file first
    {| TiffImageFile.__first := TiffImageFile.__first st;
       TiffImageFile.__next := next';
       TiffImageFile.__frame := frame';
       TiffImageFile._frame_pos := fp';
       TiffImageFile._n_frames := nf';
       TiffImageFile.is_animated := anim';
       TiffImageFile.tag_v2_next := tag' |}.
Proof.
  intros Hok Hnz pos fp' Htag Hpos Hopen Hdone.
  constructor; simpl; try done.
  - unfold fp'. rewrite elem_of_app, list_elem_of_singleton.
    intros [Hin|Heq]; [by apply (ok_zero _ _ _ Hok)|by subst pos].
  - intros p n Hp Hpn. unfold fp' in Hp.
    apply elem_of_app in Hp as [Hp|Hp].
    + destruct (ok_closed _ _ _ Hok p n Hp Hpn) as [?|[?|?]]; [by left|..];
        right; left; unfold fp'; rewrite elem_of_app, list_elem_of_singleton;
        auto.
    + apply list_elem_of_singleton in Hp as ->. by apply Hpos.
Qed.

Lemma seek_body_ok (frame : Z) (st st' : TiffImageFile.t) :
  cursor_ok file first st ->
  TiffImageFile._seek_body file frame st = (Ok tt, st') ->
  cursor_ok file first st'
  /\ TiffImageFile._frame_pos st'
     = TiffImageFile._frame_pos st ++ [TiffImageFile.__next st]
  /\ TiffImageFile._n_frames st = None
  /\ (forall n, TiffImageFile._n_frames st' = Some n -> n = frame + 1)
  /\ (TiffImageFile._n_frames st' = None ->
      is_Some (file !! TiffImageFile.__next st))
  /\ TiffImageFile.__frame st' = TiffImageFile.__frame st + 1.
Proof.
  intros Hok. unfold TiffImageFile._seek_body.
  destruct (Z.eqb_spec (TiffImageFile.__next st) 0) as [|Hnz]; [done|].
  destruct (2 ^ 63 <=? TiffImageFile.__next st); [done|].
  assert (TiffImageFile._n_frames st = None) as Hnone.
  { destruct (TiffImageFile._n_frames st) as [n|] eqn:Hn; [|done].
    by destruct (ok_done _ _ _ Hok n Hn). }
  destruct (ok_open _ _ _ Hok Hnone) as (_ & Hnew & k & Hk & Hprefix).
  destruct k as [|k]; [lia|]. rewrite walk_unfold in Hprefix.
  pose proof (ok_stale _ _ _ Hok) as Hstale.
  unfold TiffImageFile.load_at. simpl.
  set (pos := TiffImageFile.__next st) in *.
  set (fp := TiffImageFile._frame_pos st) in *.
  assert (forall x, x ∈ fp \/ x = pos -> x ∈ fp ++ [pos]) as Hfp'.
  { intros x. rewrite elem_of_app, list_elem_of_singleton. tauto. }
  destruct (file !! pos) as [[nx|e]|] eqn:Hload; simpl; [| done |].
  - destruct (decide (nx ∈ fp ++ [pos])) as [Hin|Hnotin].
    + rewrite bool_decide_eq_true_2 by done. simpl. intros [= <-]. simpl.
      rewrite bool_decide_eq_true_2, orb_true_r in Hprefix by done.
      split; [|repeat split; simpl; congruence].
      apply cursor_ok_step; [done|done|..]; fold pos fp.
      * auto.
      * intros n Hn. rewrite Hload in Hn. injection Hn as <-. auto.
      * done.
      * intros n _. done.
    + rewrite bool_decide_eq_false_2 by done.
      rewrite bool_decide_eq_false_2, orb_false_r in Hprefix by done.
      destruct (Z.eqb_spec nx 0) as [->|Hnx]; simpl.
      * intros [= <-]. simpl.
        split; [|repeat split; simpl; congruence].
        apply cursor_ok_step; [done|done|..]; fold pos fp.
        -- auto.
        -- intros n Hn. rewrite Hload in Hn. injection Hn as <-. auto.
        -- done.
        -- intros n _. done.
      * intros [= <-]. simpl.
        split; [|split; [done|split; [done|split; [congruence|split; [by eauto|done]]]]].
        apply cursor_ok_step; [done|done|..]; fold pos fp.
        -- auto.
        -- intros n Hn. rewrite Hload in Hn. injection Hn as <-. auto.
        -- intros _. split; [done|]. split; [done|]. exists k. split.
           ++ pose proof (unseen_snoc fp pos ltac:(by eexists) Hnew). lia.
           ++ rewrite Hprefix. by rewrite <- app_assoc.
        -- intros n Hn. congruence.
  - assert (TiffImageFile.tag_v2_next st = 0
            \/ TiffImageFile.tag_v2_next st ∈ fp ++ [pos]) as Hst.
    { destruct Hstale as [?|[?|?]]; auto. }
    assert ((if bool_decide (TiffImageFile.tag_v2_next st ∈ fp ++ [pos])
             then 0 else TiffImageFile.tag_v2_next st) = 0) as ->.
    { case_bool_decide; [done|]. by destruct Hst. }
    simpl. intros [= <-]. simpl.
    split; [|repeat split; simpl; congruence].
    apply cursor_ok_step; [done|done|..]; fold pos fp.
    + destruct Hst; auto.
    + intros n Hn. rewrite Hload in Hn. done.
    + done.
    + intros n _. done.
Qed.
Lemma py_index_elem_of {A} (l : list A) (i : Z) (x : A) :
  py_index l i = Ok x -> x ∈ l.
Proof.
  unfold py_index. destruct (_ <? 0); [done|].
  destruct (l !! _) as [y|] eqn:Hy; [|done].
  intros [= <-]. by eapply list_elem_of_lookup_2.
Qed.

Lemma seek_tail_ok (frame : Z) (st st' : TiffImageFile.t) (r : result unit) :
  cursor_ok file first st ->
  TiffImageFile._seek_tail file _setup frame st = (r, st') ->
  cursor_ok file first st'
  /\ TiffImageFile._frame_pos st' = TiffImageFile._frame_pos st
  /\ TiffImageFile._n_frames st' = TiffImageFile._n_frames st
  /\ (r = Ok tt -> TiffImageFile.__frame st' = frame).
Proof.
  intros Hok. unfold TiffImageFile._seek_tail.
  destruct (py_index _ _) as [pos|e] eqn:Hpos; [|by intros [= <- <-]].
  apply py_index_elem_of in Hpos.
  unfold TiffImageFile.load_at.
  destruct (file !! pos) as [[nx|e]|] eqn:Hload; simpl; intros [= <- <-];
    simpl; (split; [|done]).
  - destruct Hok as [Hz Hs Hc Ho Hd].
    constructor; simpl; try done. by apply (Hc pos).
  - done.
  - by destruct Hok.
Qed.

Lemma whileF_done {S} (fuel : nat) (cond : S -> bool) (body : MF S unit)
  (s : S) :
  cond s = false -> whileF fuel cond body s = Some (Ok tt, s).
Proof. intros Hc. destruct fuel; simpl; by rewrite Hc. Qed.

Lemma seek_loop_ok (frame : Z) (fuel : nat) :
  forall st st',
  cursor_ok file first st ->
  (forall n, TiffImageFile._n_frames st = Some n ->
             n = Z.of_nat (length (TiffImageFile._frame_pos st))
             \/ Z.of_nat (length (TiffImageFile._frame_pos st)) <= frame) ->
  whileF fuel
    (fun st => Z.of_nat (length (TiffImageFile._frame_pos st)) <=? frame)
    (liftF (TiffImageFile._seek_body file frame)) st = Some (Ok tt, st') ->
  cursor_ok file first st' /\ counted st'.
Proof.
  induction fuel as [|fuel IH]; intros st st' Hok Hcount; simpl;
    destruct (Z.leb_spec (Z.of_nat (length (TiffImageFile._frame_pos st))) frame)
      as [Hle|Hgt]; try done.
  - intros [= <-]. split; [done|]. intros n Hn.
    destruct (Hcount n Hn); [done|lia].
  - unfold liftF at 1.
    destruct (TiffImageFile._seek_body file frame st) as [[[]|e] st1] eqn:Hbody;
      [|done].
    destruct (seek_body_ok _ _ _ Hok Hbody) as (Hok1 & Hfp & _ & Hn1 & _).
    apply IH; [done|]. intros n Hn. rewrite (Hn1 n Hn), Hfp, length_app.
    simpl. lia.
  - intros [= <-]. split; [done|]. intros n Hn.
    destruct (Hcount n Hn); [done|lia].
Qed.

Lemma seek_ok (fuel : nat) (frame : Z) (st st' : TiffImageFile.t) :
  cursor_ok file first st -> counted st ->
  TiffImageFile._seek file _setup fuel frame st = Some (Ok tt, st') ->
  cursor_ok file first st' /\ counted st'.
Proof.
  intros Hok Hcount. unfold TiffImageFile._seek, bindF.
  destruct (whileF _ _ _ st) as [[[[]|e] st1]|] eqn:Hloop; [|done|done].
  apply seek_loop_ok in Hloop as [Hok1 Hcount1]; [|done|by left; apply Hcount].
  unfold liftF.
  destruct (TiffImageFile._seek_tail file _setup frame st1) as [r st2] eqn:Htail.
  intros [= -> ->].
  destruct (seek_tail_ok _ _ _ _ Hok1 Htail) as (Hok2 & Hfp & Hn & _).
  split; [done|]. intros n. rewrite Hn, Hfp. apply Hcount1.
Qed.

Lemma fresh_ok : first <> 0 -> cursor_ok file first (TiffImageFile.fresh first).
Proof.
  intros Hnz. constructor; simpl; try done.
  - apply not_elem_of_nil.
  - auto.
  - intros p n Hp. by apply not_elem_of_nil in Hp.
  - intros _. split; [done|]. split; [apply not_elem_of_nil|].
    exists (S (size file)). split; [|done].
    unfold TiffImageFile.unseen. simpl.
    rewrite difference_empty_L, size_dom. lia.
Qed.

Lemma reachable_ok (st : TiffImageFile.t) :
  TiffImageFile.reachable file _setup first st ->
  cursor_ok file first st /\ counted st.
Proof.
  induction 1 as [fuel st Hopen|fuel frame st st' _ [Hok Hcount] Hseek].
  - unfold TiffImageFile._open in Hopen.
    destruct (decide (first = 0)) as [->|Hnz].
    + exfalso. revert Hopen. unfold TiffImageFile._seek, bindF.
      destruct fuel; simpl; [done|]. done.
    + eapply seek_ok; [by apply fresh_ok| |done]. by intros n.
  - by eapply seek_ok.
Qed.

(** One step of the probe: [_seek] to the first frame not yet recorded. *)
Lemma seek_next_frame (fuel : nat) (st : TiffImageFile.t) :
  cursor_ok file first st ->
  TiffImageFile._n_frames st = None ->
  (1 <= fuel)%nat ->
  exists r st',
    TiffImageFile._seek file _setup fuel
      (Z.of_nat (length (TiffImageFile._frame_pos st))) st = Some (r, st')
    /\ (r = Ok tt ->
        cursor_ok file first st' /\ counted st'
        /\ TiffImageFile.__frame st' + 1
           = Z.of_nat (length (TiffImageFile._frame_pos st'))
        /\ (TiffImageFile._n_frames st' = None ->
            (TiffImageFile.unseen file (TiffImageFile._frame_pos st')
             < TiffImageFile.unseen file (TiffImageFile._frame_pos st))%nat)).
Proof.
  intros Hok Hnone Hfuel. destruct fuel as [|fuel]; [lia|].
  unfold TiffImageFile._seek, bindF. simpl.
  rewrite Z.leb_refl. unfold liftF at 1.
  destruct (TiffImageFile._seek_body file _ st) as [[[]|e] st1] eqn:Hbody.
  2:{ eexists _, _. split; [done|]. done. }
  destruct (seek_body_ok _ _ _ Hok Hbody)
    as (Hok1 & Hfp & _ & Hn1 & Hloaded & _).
  rewrite whileF_done.
  2:{ rewrite Hfp, length_app. simpl. apply Z.leb_gt. lia. }
  unfold liftF.
  destruct (TiffImageFile._seek_tail file _setup _ st1) as [r st2] eqn:Htail.
  destruct (seek_tail_ok _ _ _ _ Hok1 Htail) as (Hok2 & Hfp2 & Hn2 & Hframe).
  exists r, st2. split; [done|]. intros Hr.
  split; [done|]. rewrite Hfp2, Hn2, Hfp, length_app. simpl.
  split; [|split].
  - intros n Hn. rewrite Hn2 in Hn. rewrite (Hn1 n Hn), Hfp2, Hfp, length_app.
    simpl. lia.
  - rewrite (Hframe Hr). lia.
  - intros Hnone1. apply unseen_snoc; [by apply Hloaded|].
    by destruct (ok_open _ _ _ Hok Hnone) as (_ & ? & _).
Qed.

(** The loop of the probe ends within one turn more than there are
    directories left to read. *)
Lemma probe_loop (fuel : nat) :
  (1 <= fuel)%nat ->
  forall (wfuel m : nat) (st : TiffImageFile.t),
  cursor_ok file first st -> counted st ->
  TiffImageFile.__frame st + 1
  = Z.of_nat (length (TiffImageFile._frame_pos st)) ->
  (TiffImageFile.unseen file (TiffImageFile._frame_pos st) <= m)%nat ->
  (m + 1 <= wfuel)%nat ->
  exists r st',
    whileF wfuel
      (fun st => bool_decide (TiffImageFile._n_frames st = None))
      (fun st => TiffImageFile._seek file _setup fuel
                   (TiffImageFile.tell st + 1) st) st = Some (r, st')
    /\ (r = Ok tt ->
        cursor_ok file first st' /\ counted st'
        /\ TiffImageFile._n_frames st' <> None).
Proof.
  intros Hfuel. induction wfuel as [|wfuel IH];
    intros m st Hok Hcount Hframe Hm Hw; [lia|].
  destruct (TiffImageFile._n_frames st) as [n|] eqn:Hn.
  { rewrite whileF_done by (by rewrite Hn). eexists _, _. split; [done|].
    intros _. rewrite Hn. done. }
  simpl. rewrite Hn. simpl. unfold TiffImageFile.tell. rewrite Hframe.
  destruct (seek_next_frame fuel st Hok Hn Hfuel)
    as (r1 & st1 & -> & Hstep).
  destruct r1 as [[]|e]; [|by eexists _, _].
  destruct (Hstep eq_refl) as (Hok1 & Hcount1 & Hframe1 & Hless).
  destruct (TiffImageFile._n_frames st1) as [n1|] eqn:Hn1.
  - rewrite whileF_done by (by rewrite Hn1). eexists _, _. split; [done|].
    intros _. rewrite Hn1. done.
  - specialize (Hless eq_refl).
    apply (IH (m - 1)%nat); [done|done|done|lia|lia].
Qed.

(** Once the count is known [_seek] appends nothing: its loop is not
    entered, or stops at once with [EOFError]. *)
Lemma seek_when_counted (fuel : nat) (frame n : Z) (st : TiffImageFile.t) :
  cursor_ok file first st ->
  TiffImageFile._n_frames st = Some n ->
  (1 <= fuel)%nat ->
  exists r st',
    TiffImageFile._seek file _setup fuel frame st = Some (r, st')
    /\ TiffImageFile._n_frames st' = Some n.
Proof.
  intros Hok Hn Hfuel. destruct fuel as [|fuel]; [lia|].
  destruct (ok_done _ _ _ Hok n Hn) as [Hnext _].
  unfold TiffImageFile._seek, bindF. simpl.
  destruct (_ <=? frame).
  - unfold liftF at 1, TiffImageFile._seek_body at 1. rewrite Hnext. simpl.
    by eexists _, _.
  - unfold liftF.
    destruct (TiffImageFile._seek_tail file _setup frame st) as [r st2] eqn:Htail.
    destruct (seek_tail_ok _ _ _ _ Hok Htail) as (_ & _ & Hn2 & _).
    exists r, st2. split; [done|]. congruence.
Qed.

Lemma unseen_le_size (seen : list Z) :
  (TiffImageFile.unseen file seen <= size file)%nat.
Proof.
  unfold TiffImageFile.unseen. rewrite <- (size_dom (D := gset Z) file).
  apply subseteq_size. intros x. rewrite elem_of_difference. tauto.
Qed.

Lemma n_frames_probe (fuel : nat) (st : TiffImageFile.t) :
  TiffImageFile.reachable file _setup first st ->
  (size file + 1 <= fuel)%nat ->
  exists r st',
    TiffImageFile.n_frames file _setup _seek_check fuel st = Some (r, st')
    /\ forall n, r = Ok n ->
         n = Z.of_nat (length (TiffImageFile.acyclic_prefix file first)).
Proof.
  intros Hreach Hfuel.
  destruct (reachable_ok st Hreach) as [Hok Hcount].
  unfold TiffImageFile.n_frames.
  destruct (TiffImageFile._n_frames st) as [n|] eqn:Hn.
  { eexists _, _. split; [done|]. intros ? [= <-].
    rewrite (Hcount n Hn). destruct (ok_done _ _ _ Hok n Hn) as [_ ->]. done. }
  unfold bindF at 1.
  destruct (seek_next_frame fuel st Hok Hn ltac:(lia)) as (r1 & st1 & -> & Hstep).
  destruct r1 as [[]|e]; [|by eexists _, _].
  destruct (Hstep eq_refl) as (Hok1 & Hcount1 & Hframe1 & _).
  unfold bindF at 1.
  destruct (probe_loop fuel ltac:(lia) fuel (size file) st1 Hok1 Hcount1 Hframe1
              (unseen_le_size _) Hfuel) as (r2 & st2 & -> & Hloop).
  destruct r2 as [[]|e]; [|by eexists _, _].
  destruct (Hloop eq_refl) as (Hok2 & Hcount2 & Hknown).
  destruct (TiffImageFile._n_frames st2) as [n2|] eqn:Hn2; [|done].
  assert (n2 = Z.of_nat (length (TiffImageFile.acyclic_prefix file first)))
    as Hn2'.
  { rewrite (Hcount2 n2 Hn2). by destruct (ok_done _ _ _ Hok2 n2 Hn2) as [_ ->]. }
  unfold bindF at 1. unfold TiffImageFile.seek, bindF at 1.
  destruct (_seek_check st2 (TiffImageFile.tell st)) as [go|e];
    [|by eexists _, _].
  destruct go; simpl.
  - destruct (seek_when_counted fuel (TiffImageFile.tell st) n2 st2 Hok2 Hn2
                ltac:(lia)) as (r3 & st3 & -> & Hn3).
    destruct r3 as [[]|e]; [|by eexists _, _].
    rewrite Hn3. simpl. eexists _, _. split; [done|]. by intros ? [= <-].
  - unfold retF. rewrite Hn2. simpl. eexists _, _. split; [done|].
    by intros ? [= <-].
Qed.

Lemma seek_body_appends (frame : Z) (st st' : TiffImageFile.t) :
  TiffImageFile._seek_body file frame st = (Ok tt, st') ->
  length (TiffImageFile._frame_pos st')
  = S (length (TiffImageFile._frame_pos st)).
Proof.
  unfold TiffImageFile._seek_body.
  destruct (_ =? 0); [done|]. destruct (2 ^ 63 <=? _); [done|].
  unfold TiffImageFile.load_at. simpl.
  destruct (file !! _) as [[nx|e]|]; simpl; [|done|];
    intros [= <-]; simpl; rewrite length_app; simpl; lia.
Qed.

(** The loop of [_seek] records one position at every turn, so it takes
    at most [frame + 1 - len(_frame_pos)] turns, whatever the cursor. *)
Lemma seek_terminates (frame : Z) (fuel : nat) :
  forall st,
  (Z.to_nat (frame + 1 - Z.of_nat (length (TiffImageFile._frame_pos st)))
   <= fuel)%nat ->
  exists r st', TiffImageFile._seek file _setup fuel frame st = Some (r, st').
Proof.
  unfold TiffImageFile._seek, bindF.
  induction fuel as [|fuel IH]; intros st Hfuel; simpl;
    destruct (Z.leb_spec (Z.of_nat (length (TiffImageFile._frame_pos st))) frame)
      as [Hle|Hgt]; try lia.
  - unfold liftF. destruct (TiffImageFile._seek_tail _ _ _ _). by eexists _, _.
  - unfold liftF at 1.
    destruct (TiffImageFile._seek_body file frame st) as [[[]|e] st1] eqn:Hbody;
      [|by eexists _, _].
    apply IH. rewrite (seek_body_appends _ _ _ Hbody). lia.
  - unfold liftF. destruct (TiffImageFile._seek_tail _ _ _ _). by eexists _, _.
Qed.

(** The cycle check: when the directory loaded at [__next] points at a
    position already recorded (itself included), the cursor's next pointer
    becomes 0 and the frame count is set. *)
Lemma seek_body_cycle_detected (frame next : Z) (st : TiffImageFile.t) :
  TiffImageFile.__next st <> 0 ->
  TiffImageFile.__next st < 2 ^ 63 ->
  file !! TiffImageFile.__next st = Some (Ok next) ->
  next ∈ TiffImageFile._frame_pos st ++ [TiffImageFile.__next st] ->
  exists st',
    TiffImageFile._seek_body file frame st = (Ok tt, st')
    /\ TiffImageFile.__next st' = 0
    /\ TiffImageFile._n_frames st' = Some (frame + 1)
    /\ TiffImageFile._frame_pos st'
       = TiffImageFile._frame_pos st ++ [TiffImageFile.__next st].
Proof.
  intros Hnz Hsmall Hload Hin. unfold TiffImageFile._seek_body.
  destruct (Z.eqb_spec (TiffImageFile.__next st) 0); [done|].
  destruct (Z.leb_spec (2 ^ 63) (TiffImageFile.__next st)); [lia|].
  unfold TiffImageFile.load_at. simpl. rewrite Hload. simpl.
  rewrite bool_decide_eq_true_2 by done. simpl. by eexists.
Qed.

(** The acyclic prefix starts at the first directory, repeats no
    position, and each of its positions is where the next pointer of the
    one before leads. *)
Lemma acyclic_prefix_chain :
  (exists rest, TiffImageFile.acyclic_prefix file first = first :: rest)
  /\ NoDup (TiffImageFile.acyclic_prefix file first)
  /\ forall i a b,
       TiffImageFile.acyclic_prefix file first !! i = Some a ->
       TiffImageFile.acyclic_prefix file first !! S i = Some b ->
       file !! a = Some (Ok b).
Proof.
  unfold TiffImageFile.acyclic_prefix. split; [|split].
  - rewrite walk_unfold. by eexists.
  - apply (walk_NoDup (S (size file)) [] first); [constructor|].
    apply not_elem_of_nil.
  - apply walk_linked.
Qed.

End reader_properties.


(** The two-directory cycle: the probe reports 2 frames, the length of the
    acyclic prefix [8; 100], and leaves the cursor on frame 0. *)
Lemma n_frames_two_directory_cycle :
  TiffImageFile._open two_directory_cycle sample_setup 1 8
  = Some (Ok tt, cycle_opened)
  /\ TiffImageFile.acyclic_prefix two_directory_cycle 8 = [8; 100]
  /\ exists st',
       TiffImageFile.n_frames two_directory_cycle sample_setup
         sample_seek_check 3 cycle_opened = Some (Ok 2, st')
       /\ TiffImageFile._frame_pos st' = [8; 100]
       /\ TiffImageFile.__next st' = 0
       /\ TiffImageFile.tell st' = 0.
Proof.
  split; [vm_compute; reflexivity|]. split; [vm_compute; reflexivity|].
  eexists. split; [vm_compute; reflexivity|]. done.
Qed.

(** * Further properties of the code *)

(** ** The integer formats of [struct] *)

Lemma Z_of_byte_range (b : byte) : 0 <= Z_of_byte b < 256.
Proof.
  unfold Z_of_byte. pose proof (Byte.to_N_bounded b). lia.
Qed.

Lemma le_value_range (bs : list byte) : 0 <= le_value bs < 256 ^ Z.of_nat (length bs).
Proof.
  induction bs as [|b bs IH]; simpl le_value; [simpl; lia|].
  rewrite length_cons, Nat2Z.inj_succ, Z.pow_succ_r by lia.
  pose proof (Z_of_byte_range b). lia.
Qed.

Lemma le_value_le_bytes (n : nat) (v : Z) :
  0 <= v < 256 ^ Z.of_nat n -> le_value (le_bytes n v) = v.
Proof.
  revert v. induction n as [|n IH]; intros v Hv.
  - simpl in *. lia.
  - rewrite Nat2Z.inj_succ, Z.pow_succ_r in Hv by lia.
    simpl. rewrite IH.
    + unfold byte_of_Z.
      destruct (Byte.of_N (Z.to_N (v mod 256))) as [b|] eqn:Hb.
      * apply Byte.to_of_N in Hb. unfold Z_of_byte. rewrite Hb.
        rewrite Z2N.id by (apply Z.mod_pos_bound; lia).
        pose proof (Z.div_mod v 256). lia.
      * apply Byte.of_N_None_iff in Hb.
        pose proof (Z.mod_pos_bound v 256). lia.
    + split; [apply Z.div_pos; lia|].
      apply Z.div_lt_upper_bound; lia.
Qed.

Lemma le_bytes_le_value (bs : list byte) :
  le_bytes (length bs) (le_value bs) = bs.
Proof.
  induction bs as [|b bs IH]; [done|].
  simpl. pose proof (Z_of_byte_range b).
  f_equal.
  - unfold byte_of_Z.
    replace ((Z_of_byte b + 256 * le_value bs) mod 256) with (Z_of_byte b)
      by (apply (Z.mod_unique _ 256 (le_value bs)); lia).
    unfold Z_of_byte. rewrite N2Z.id. by rewrite Byte.of_to_N.
  - replace ((Z_of_byte b + 256 * le_value bs) / 256) with (le_value bs)
      by (apply (Z.div_unique _ 256 _ (Z_of_byte b)); lia).
    done.
Qed.

Lemma in_order_involutive (e : Endian) (bs : list byte) :
  in_order e (in_order e bs) = bs.
Proof. destruct e; simpl; [done|apply rev_involutive]. Qed.

Lemma in_order_length (e : Endian) (bs : list byte) :
  length (in_order e bs) = length bs.
Proof. destruct e; simpl; [done|apply length_rev]. Qed.

Lemma fmt_bits_pow (c : Fmt) : 2 ^ fmt_bits c = 256 ^ Z.of_nat (calcsize c).
Proof. by destruct c. Qed.

Lemma unpack_pack (e : Endian) (c : Fmt) (v : Z) (bs : list byte) :
  pack e c v = Ok bs -> unpack e c bs = Ok v.
Proof.
  unfold pack, unpack.
  destruct ((fmt_min c <=? v) && (v <? fmt_max c)) eqn:Hr; [|done].
  intros [= <-]. apply andb_true_iff in Hr as [Hlo Hhi].
  apply Z.leb_le in Hlo. apply Z.ltb_lt in Hhi.
  rewrite in_order_length, in_order_involutive.
  assert (Hlen : length (le_bytes (calcsize c) (v mod 2 ^ fmt_bits c)) = calcsize c).
  { generalize (v mod 2 ^ fmt_bits c). generalize (calcsize c).
    intros n. induction n; intros; simpl; [done|]. by rewrite IHn. }
  rewrite Hlen, Nat.eqb_refl.
  rewrite le_value_le_bytes
    by (rewrite <- fmt_bits_pow; apply Z.mod_pos_bound; by destruct c).
  f_equal.
  destruct c; unfold fmt_min, fmt_max, fmt_bits in *;
    cbn [calcsize is_signed andb] in *;
    repeat match goal with
    | H : context [2 ^ ?k] |- _ =>
        let m := eval vm_compute in (2 ^ k) in change (2 ^ k) with m in H
    | |- context [2 ^ ?k] =>
        let m := eval vm_compute in (2 ^ k) in change (2 ^ k) with m
    end;
    repeat match goal with
    | |- context [?a <=? ?b] => destruct (Z.leb_spec a b)
    end;
    try (rewrite Z.mod_small by lia; lia);
    try (rewrite Z.mod_small in * by lia; lia);
    (destruct (Z.lt_ge_cases v 0);
       [ match goal with |- context [v mod ?m] =>
           replace (v mod m) with (v + m) in *
             by (apply (Z.mod_unique v m (-1) (v + m)); lia) end; lia
       | rewrite Z.mod_small in * by lia; lia ]).
Qed.

Lemma pack_unpack (e : Endian) (c : Fmt) (bs : list byte) (v : Z) :
  unpack e c bs = Ok v -> pack e c v = Ok bs.
Proof.
  unfold pack, unpack.
  destruct (Nat.eqb_spec (length bs) (calcsize c)) as [Hlen|]; [|done].
  intros [= <-].
  pose proof (le_value_range (in_order e bs)) as Hu.
  rewrite in_order_length, Hlen, <- fmt_bits_pow in Hu.
  set (u := le_value (in_order e bs)) in *.
  assert (Hm : 0 < 2 ^ fmt_bits c) by (by destruct c).
  assert (Hv : (if is_signed c && (fmt_max c <=? u) then u - 2 ^ fmt_bits c else u)
               mod 2 ^ fmt_bits c = u).
  { destruct (is_signed c && (fmt_max c <=? u)).
    - symmetry. apply (Z.mod_unique _ _ (-1)); lia.
    - apply Z.mod_small. lia. }
  rewrite Hv.
  assert (Hr : (fmt_min c <=? (if is_signed c && (fmt_max c <=? u)
                               then u - 2 ^ fmt_bits c else u))
               && ((if is_signed c && (fmt_max c <=? u)
                    then u - 2 ^ fmt_bits c else u) <? fmt_max c) = true).
  { clear Hv. apply andb_true_iff.
    rewrite Z.leb_le, Z.ltb_lt.
    destruct c; unfold fmt_min, fmt_max, fmt_bits in *;
      cbn [calcsize is_signed andb] in *;
      repeat match goal with
      | H : context [2 ^ ?k] |- _ =>
          let m := eval vm_compute in (2 ^ k) in change (2 ^ k) with m in H
      | |- context [2 ^ ?k] =>
          let m := eval vm_compute in (2 ^ k) in change (2 ^ k) with m
      end;
      repeat match goal with
      | |- context [?a <=? ?b] => destruct (Z.leb_spec a b)
      end; lia. }
  rewrite Hr. f_equal. unfold u.
  rewrite <- Hlen, <- (in_order_length e bs), le_bytes_le_value.
  apply in_order_involutive.
Qed.


(** X1.  [_pack] and [_unpack] are inverse to each other, for every byte
    order and every integer format: the bytes [_pack] gives for [v] unpack
    to [v], and whatever [_unpack] reads from [bs] packs to [bs]. *)
Theorem pack_unpack_inverse (self : ImageFileDirectory_v2.t) (c : Fmt) (v : Z)
  (bs : list byte) :
  ImageFileDirectory_v2._pack self c v = Ok bs
  <-> ImageFileDirectory_v2._unpack self c bs = Ok v.
Proof.
  unfold ImageFileDirectory_v2._pack, ImageFileDirectory_v2._unpack.
  split; [apply unpack_pack|apply pack_unpack].
Qed.

(** ** The loaders and writers of the basic types *)

Section basic_types.

Import ImageFileDirectory_v2.

Lemma unpack_many_packed (e : Endian) (c : Fmt) (zs : list Z)
  (chunks : list (list byte)) :
  mapM (fun v => match v with PyInt z => pack e c z | _ => Raise struct_error end)
       (map PyInt zs) = Ok chunks ->
  unpack_many (length zs) e c (concat chunks) = Ok zs
  /\ length (concat chunks) = (length zs * calcsize c)%nat.
Proof.
  revert chunks. induction zs as [|z zs IH]; intros chunks.
  - simpl. by intros [= <-].
  - simpl. destruct (pack e c z) as [bs|] eqn:Hp; [|done]. simpl.
    destruct (mapM _ (map PyInt zs)) as [rest|] eqn:Hrest; [|done]. simpl.
    intros [= <-]. destruct (IH rest eq_refl) as [IH1 IH2].
    assert (Hlen : length bs = calcsize c).
    { unfold pack in Hp. destruct (_ && _); [|done]. injection Hp as <-.
      rewrite in_order_length.
      generalize (z mod 2 ^ fmt_bits c). generalize (calcsize c).
      intros n. induction n; intros; simpl; [done|]. by rewrite IHn. }
    cbn [length concat unpack_many].
    replace (take (calcsize c) (bs ++ concat rest)) with bs
      by (rewrite <- Hlen; by rewrite take_app_length).
    replace (drop (calcsize c) (bs ++ concat rest)) with (concat rest)
      by (rewrite <- Hlen; by rewrite drop_app_length).
    rewrite (unpack_pack _ _ _ _ Hp). cbn [rbind]. rewrite IH1. cbn [rbind].
    split; [done|]. rewrite length_app, IH2. lia.
Qed.

Lemma mapM_pack_ints (e : Endian) (c : Fmt) (values : list pyval)
  (chunks : list (list byte)) :
  mapM (fun v => match v with PyInt z => pack e c z | _ => Raise struct_error end)
       values = Ok chunks ->
  exists zs, values = map PyInt zs.
Proof.
  revert chunks. induction values as [|v values IH]; intros chunks.
  - by exists [].
  - simpl. destruct v; try done.
    destruct (pack e c z); [|done]. simpl.
    destruct (mapM _ values) as [rest|] eqn:Hrest; [|done]. simpl. intros _.
    destruct (IH rest eq_refl) as [zs ->]. by exists (z :: zs).
Qed.

(** X2.  What the writer of a basic type ([_register_basic]) produces for a
    sequence of values, its loader reads back as the tuple of these values;
    the writer takes integers only, and emits [calcsize] bytes for each. *)
Theorem basic_writer_then_handler (c : Fmt) (e : Endian) (values : list pyval)
  (data : list byte) (legacy : bool) :
  basic_writer c e values = Ok data ->
  basic_handler c e data legacy = Ok (PyTuple values)
  /\ length data = (length values * calcsize c)%nat.
Proof.
  unfold basic_writer, basic_handler.
  destruct (mapM _ values) as [chunks|] eqn:Hm; [|done]. simpl.
  intros [= <-].
  destruct (mapM_pack_ints _ _ _ _ Hm) as [zs ->].
  destruct (unpack_many_packed _ _ _ _ Hm) as [Hu Hlen].
  rewrite length_map. split; [|done].
  rewrite Hlen.
  assert (Hc : (0 < calcsize c)%nat) by (destruct c; simpl; lia).
  rewrite Nat.div_mul by lia. rewrite Nat.eqb_refl. simpl.
  by rewrite Hu.
Qed.

Lemma unpack_many_sized (k : nat) (e : Endian) (c : Fmt) (data : list byte) :
  length data = (k * calcsize c)%nat ->
  exists zs, unpack_many k e c data = Ok zs
    /\ length zs = k
    /\ basic_writer c e (map PyInt zs) = Ok data.
Proof.
  unfold basic_writer.
  revert data. induction k as [|k IH]; intros data Hlen.
  - exists []. destruct data; [done|simpl in Hlen; lia].
  - assert (Hc : (0 < calcsize c)%nat) by (destruct c; simpl; lia).
    cbn [unpack_many].
    assert (Ht : length (take (calcsize c) data) = calcsize c)
      by (rewrite length_take; lia).
    destruct (unpack e c (take (calcsize c) data)) as [v|] eqn:Hu.
    2: { unfold unpack in Hu. rewrite Ht, Nat.eqb_refl in Hu. done. }
    destruct (IH (drop (calcsize c) data)) as (zs & Hzs & Hl & Hw).
    { rewrite length_drop. lia. }
    exists (v :: zs). cbn [rbind]. rewrite Hzs. cbn [rbind].
    split; [done|]. split; [simpl; lia|].
    cbn [map mapM]. rewrite (pack_unpack _ _ _ _ Hu). cbn [rbind].
    destruct (mapM _ (map PyInt zs)) as [rest|]; [|done].
    cbn [rbind] in *. injection Hw as Hw. simpl. rewrite Hw.
    by rewrite take_drop.
Qed.

(** X3.  The loader of a basic type accepts exactly the data whose length
    is a multiple of the size of the format: it then returns one integer
    per unit, and writing these integers gives the data back; on any other
    length it raises [struct.error]. *)
Theorem basic_handler_sized (c : Fmt) (e : Endian) (data : list byte)
  (legacy : bool) :
  (if decide ((length data) `mod` (calcsize c) = 0)%nat
   then exists zs,
          basic_handler c e data legacy = Ok (PyTuple (map PyInt zs))
          /\ (length zs * calcsize c)%nat = length data
          /\ basic_writer c e (map PyInt zs) = Ok data
   else basic_handler c e data legacy = Raise struct_error).
Proof.
  assert (Hc : (calcsize c <> 0)%nat) by (destruct c; simpl; lia).
  unfold basic_handler.
  pose proof (Nat.div_mod_eq (length data) (calcsize c)) as Hdm.
  case_decide as Hm.
  - rewrite Hm, Nat.add_0_r in Hdm.
    destruct (unpack_many_sized (length data / calcsize c) e c data)
      as (zs & Hzs & Hl & Hw); [lia|].
    exists zs.
    replace (length data / calcsize c * calcsize c)%nat with (length data) by lia.
    rewrite Nat.eqb_refl. cbn [negb]. rewrite Hzs. cbn [rbind].
    split; [done|]. split; [lia|done].
  - destruct (Nat.eqb_spec (length data / calcsize c * calcsize c) (length data));
      [lia|done].
Qed.

End basic_types.

Lemma basic_writer_then_handler_witness :
  ImageFileDirectory_v2.basic_handler fmt_H BigEndian [x00; x01; x01; x00] false
  = Ok (PyTuple [PyInt 1; PyInt 256])
  /\ length [x00; x01; x01; x00]
     = (length [PyInt 1; PyInt 256] * calcsize fmt_H)%nat.
Proof.
  apply (basic_writer_then_handler fmt_H BigEndian [PyInt 1; PyInt 256]
           [x00; x01; x01; x00] false).
  reflexivity.
Defined.

(** ** Strings that are not ASCII, and integers written as text *)

Section strings.

Import ImageFileDirectory_v2.

Lemma decode_encode_replace (s : str) :
  decode_latin1 (encode_ascii s) = map ascii_or_question_mark s.
Proof.
  unfold decode_latin1, encode_ascii, ascii_or_question_mark.
  rewrite map_map. apply map_ext. intros c.
  destruct (Z.leb_spec 0 c); [|done]. destruct (Z.ltb_spec c 128); [|done].
  simpl. apply Z_of_byte_of_Z. lia.
Qed.

(** X4.  [write_string] accepts every string: it gives one byte below 128
    per character and a closing NUL, and [load_string] reads these bytes
    back as the string with every character outside ASCII replaced by a
    question mark. *)
Theorem write_load_replaces_non_ascii (s : str) :
  exists data,
    write_string (PyStr s) = Ok data
    /\ length data = S (length s)
    /\ last data = Some x00
    /\ Forall (fun b => Z_of_byte b < 128) data
    /\ load_string data = map ascii_or_question_mark s.
Proof.
  exists (encode_ascii s ++ [x00]). split; [done|].
  split; [unfold encode_ascii; rewrite length_app, length_map; simpl; lia|].
  split; [apply last_snoc|].
  split.
  - apply Forall_app. split; [|by repeat constructor].
    unfold encode_ascii. apply Forall_map, Forall_forall. intros c _. simpl.
    destruct (Z.leb_spec 0 c); [|done]. destruct (Z.ltb_spec c 128); [|done].
    simpl. rewrite Z_of_byte_of_Z; lia.
  - rewrite load_string_terminated. apply decode_encode_replace.
Qed.

Lemma string_of_uint_digits (d : Decimal.uint) :
  Forall (fun a => (48 <= N_of_ascii a <= 57)%N)
         (String.list_ascii_of_string (NilEmpty.string_of_uint d)).
Proof.
  induction d; cbn [NilEmpty.string_of_uint String.list_ascii_of_string];
    [constructor|..]; (constructor; [vm_compute; split; discriminate|done]).
Qed.

Lemma decimal_ascii (z : Z) : Forall (fun c => 0 <= c < 128) (decimal z).
Proof.
  unfold decimal, code_points. apply Forall_map.
  assert (Hu : forall d,
    Forall (fun a => 0 <= Z.of_N (N_of_ascii a) < 128)
           (String.list_ascii_of_string (NilZero.string_of_uint d))).
  { intros d. unfold NilZero.string_of_uint.
    assert (Hd := string_of_uint_digits d).
    destruct d; try (eapply Forall_impl; [exact Hd|simpl; intros; lia]).
    repeat constructor; vm_compute; done. }
  unfold NilZero.string_of_int. destruct (Z.to_int z) as [d|d].
  - apply Hu.
  - cbn [String.list_ascii_of_string]. constructor; [|apply Hu].
    vm_compute. split; [discriminate|done].
Qed.

(** The decimal text of an integer reads back as that integer. *)
Lemma decimal_text_denotes (z : Z) :
  option_map Z.of_int
    (NilZero.int_of_string (NilZero.string_of_int (Z.to_int z))) = Some z.
Proof.
  rewrite NilZero.isi.
  - cbn [option_map]. f_equal. apply DecimalZ.of_to.
  - destruct z as [|p|p]; [done| |done].
    intros [= Hp]. by apply DecimalPos.Unsigned.to_uint_nonnil in Hp.
  - destruct z as [|p|p]; [done|done|].
    intros [= Hp]. by apply DecimalPos.Unsigned.to_uint_nonnil in Hp.
Qed.

(** X5.  An integer of at most 4300 digits given to [write_string] is
    written as its decimal text and a closing NUL; [load_string] reads the
    text back, and the text denotes the integer.  An integer of more
    digits is refused with [ValueError], the interpreter's limit on the
    conversion of integers to strings. *)
Theorem write_load_int (z : Z) :
  if Z.abs z <? 10 ^ int_max_str_digits then
    exists (text : string) (data : list byte),
      write_string (PyInt z) = Ok data
      /\ length data = S (String.length text)
      /\ last data = Some x00
      /\ load_string data = code_points text
      /\ option_map Z.of_int (NilZero.int_of_string text) = Some z
  else
    exists msg, write_string (PyInt z) = Raise (ValueError msg).
Proof.
  unfold write_string, str_of_int, within_str_digits.
  destruct (Z.abs z <? 10 ^ int_max_str_digits); cbn [rbind].
  - exists (NilZero.string_of_int (Z.to_int z)),
           (encode_ascii (decimal z) ++ [x00]).
    split; [done|]. split.
    { unfold encode_ascii, decimal, code_points.
      rewrite length_app, !length_map. cbn [length].
      rewrite Nat.add_1_r. f_equal.
      induction (NilZero.string_of_int (Z.to_int z)) as [|a t IH];
        cbn [String.list_ascii_of_string String.length length]; congruence. }
    split; [apply last_snoc|]. split.
    + rewrite load_string_terminated. apply decode_encode_ascii, decimal_ascii.
    + apply decimal_text_denotes.
  - by eexists.
Qed.

End strings.

(** ** The denominator that [limit_rational] returns *)

Lemma make_normalized (n d : Z) (q : Fraction.t) :
  Fraction.make n d = Ok q -> normalized q.
Proof.
  unfold Fraction.make, normalized.
  destruct (Z.eqb_spec d 0) as [|Hd]; [done|].
  intros [= <-]. cbn [Fraction.numerator Fraction.denominator].
  pose proof (Z.gcd_nonneg n d) as Hg0.
  assert (Hg : Z.gcd n d <> 0) by (rewrite Z.gcd_eq_0; lia).
  destruct (Z.gcd_divide_l n d) as [a Ha].
  destruct (Z.gcd_divide_r n d) as [b Hb].
  set (g := Z.gcd n d) in *.
  assert (Hab : Z.gcd a b = 1).
  { assert (H : Z.gcd (n / g) (d / g) = 1) by (apply Z.gcd_div_gcd; [done|done]).
    rewrite Ha, Hb in H at 1. by rewrite !Z.div_mul in H by done. }
  destruct (Z.ltb_spec d 0).
  - replace (n / - g) with (- a)
      by (apply (Z.div_unique_exact); lia).
    replace (d / - g) with (- b)
      by (apply (Z.div_unique_exact); lia).
    rewrite Z.gcd_opp_l, Z.gcd_opp_r. split; [nia|done].
  - replace (n / g) with a by (apply (Z.div_unique_exact); lia).
    replace (d / g) with b by (apply (Z.div_unique_exact); lia).
    split; [nia|done].
Qed.

Section limit.

Variables m D : Z.
Hypothesis Hm : 1 <= m.
Hypothesis HD : m < D.

Lemma limit_loop_inv (fuel : nat) : forall p0 q0 p1 q1 n d r,
  loop_inv m D q0 q1 n d ->
  Fraction.limit_loop fuel m p0 q0 p1 q1 n d = Some r ->
  exists p0' q0' p1' q1' n' d',
    r = Ok (p0', q0', p1', q1', n', d')
    /\ 0 <= q0' <= m /\ 0 < q1' <= m.
Proof.
  induction fuel as [|fuel IH]; intros p0 q0 p1 q1 n d r Hinv; [done|].
  destruct Hinv as (Hq0 & Hq1 & Hd & HDeq & Hg).
  cbn [Fraction.limit_loop].
  destruct (Z.eqb_spec d 0) as [->|Hd0].
  { rewrite Z.gcd_0_r in Hg. nia. }
  destruct (Z.ltb_spec m (q0 + n / d * q1)).
  - intros [= <-]. by exists p0, q0, p1, q1, n, d.
  - apply IH. unfold loop_inv.
    assert (Ha : 1 <= n / d) by (apply Z.div_le_lower_bound; lia).
    pose proof (Z.mod_pos_bound n d ltac:(lia)) as Hmod.
    rewrite Z.mod_eq in Hmod by lia.
    replace (n - n / d * d) with (n - d * (n / d)) by lia.
    split; [lia|]. split; [nia|]. split; [lia|]. split; [nia|].
    rewrite <- Z.mod_eq by lia. rewrite Z.gcd_comm, Z.gcd_mod by lia.
    by rewrite Z.gcd_comm.
Qed.

End limit.

Lemma limit_denominator_bound (q : Fraction.t) (m : Z) :
  normalized q -> 1 <= m ->
  exists f, Fraction.limit_denominator q m = Ok f
    /\ 0 < Fraction.denominator f <= m.
Proof.
  intros [Hd Hg] Hm. unfold Fraction.limit_denominator.
  destruct (Z.ltb_spec m 1); [lia|].
  destruct (Z.leb_spec (Fraction.denominator q) m).
  { exists q. split; [done|lia]. }
  set (N := Fraction.numerator q) in *. set (D := Fraction.denominator q) in *.
  pose proof (limit_loop_fuel (S (Z.abs_nat D)) m 0 1 1 0 N D ltac:(lia)) as Hfuel.
  destruct (Fraction.limit_loop (S (Z.abs_nat D)) m 0 1 1 0 N D) as [r|] eqn:Hloop;
    [clear Hfuel|done].
  cbn [Fraction.limit_loop] in Hloop.
  destruct (Z.eqb_spec D 0); [lia|].
  replace (1 + N / D * 0) with 1 in Hloop by lia.
  destruct (Z.ltb_spec m 1); [lia|].
  assert (Hinv : loop_inv m D 0 1 D (N - N / D * D)).
  { unfold loop_inv.
    pose proof (Z.mod_pos_bound N D ltac:(lia)) as Hmod.
    rewrite Z.mod_eq in Hmod by lia.
    replace (N - N / D * D) with (N - D * (N / D)) by lia.
    split; [lia|]. split; [lia|]. split; [lia|]. split; [nia|].
    rewrite <- Z.mod_eq by lia. rewrite Z.gcd_comm, Z.gcd_mod by lia.
    by rewrite Z.gcd_comm. }
  eapply (limit_loop_inv m D) in Hloop; [|lia|exact Hinv].
  destruct Hloop as (p0 & q0 & p1 & q1 & n' & d' & -> & Hq0 & Hq1).
  destruct (Z.eqb_spec q1 0); [lia|].
  assert (Hk : 0 <= (m - q0) / q1) by (apply Z.div_pos; lia).
  assert (Hk2 : q1 * ((m - q0) / q1) <= m - q0) by (apply Z.mul_div_le; lia).
  assert (Hk3 : q0 = 0 -> 1 <= (m - q0) / q1)
    by (intros ->; apply Z.div_le_lower_bound; lia).
  destruct (_ <=? _); eexists; (split; [done|]);
    cbn [Fraction.denominator]; [lia|nia].
Qed.

(** X6.  For a bound of at least 1, [limit_rational] of [IFDRational(n, d)]
    never raises: with [d = 0] it returns [(n, 0)], otherwise a pair whose
    denominator is positive and at most the bound. *)
Theorem limit_rational_denominator_bound (n d m : Z) :
  1 <= m ->
  exists p q,
    IFDRational.limit_rational (IFDRational.__init__ n d) m = Ok (p, q)
    /\ (if d =? 0 then p = n /\ q = 0 else 0 < q <= m).
Proof.
  intros Hm. unfold IFDRational.limit_rational, IFDRational.__init__.
  cbn [IFDRational.denominator IFDRational.numerator IFDRational._denominator
       IFDRational._numerator IFDRational._val].
  destruct (Z.eqb_spec d 0) as [->|Hd]; [by exists n, 0|].
  destruct (Z.eqb_spec d 1) as [->|Hd1].
  - destruct (limit_denominator_bound (Fraction.of_int n) m) as (f & -> & Hf);
      [split; [simpl; lia|simpl; apply Z.gcd_1_r]|done|].
    by exists (Fraction.numerator f), (Fraction.denominator f).
  - destruct (Fraction.make n d) as [q|] eqn:Hq.
    + destruct (limit_denominator_bound q m) as (f & -> & Hf);
        [by eapply make_normalized|done|].
      by exists (Fraction.numerator f), (Fraction.denominator f).
    + unfold Fraction.make in Hq. by destruct (Z.eqb_spec d 0).
Qed.

Lemma limit_rational_denominator_bound_witness :
  exists p q,
    IFDRational.limit_rational (IFDRational.__init__ 355 113) 100 = Ok (p, q)
    /\ (if 113 =? 0 then p = 355 /\ q = 0 else 0 < q <= 100).
Proof. apply (limit_rational_denominator_bound 355 113 100). lia. Defined.

(** ** The file header *)

(** X7.  The header [_get_ifh] builds is accepted by [_accept] and has 8
    bytes (Classic) or 16 (BigTIFF).  The constructor reads it back as an
    empty directory of the same byte order and kind whose [next] is the
    length of the header, except for a big-endian BigTIFF directory: the
    constructor tests the third byte of the header for 43, which is where
    the little-endian magic has it, takes the header for a Classic one and
    raises [struct.error] on its length. *)
Theorem init_of_get_ifh (self : ImageFileDirectory_v2.t) (g : option Z) :
  exists ifh,
    ImageFileDirectory_v2._get_ifh self = Ok ifh
    /\ length ifh = (if ImageFileDirectory_v2._bigtiff self then 16 else 8)%nat
    /\ _accept ifh = true
    /\ ImageFileDirectory_v2.__init__ ifh None g
       = match ImageFileDirectory_v2._endian self,
               ImageFileDirectory_v2._bigtiff self with
         | BigEndian, true => Raise struct_error
         | e, big =>
             Ok ({| ImageFileDirectory_v2._endian := e;
                    ImageFileDirectory_v2._bigtiff := big;
                    ImageFileDirectory_v2.group := g;
                    ImageFileDirectory_v2.tagtype := [];
                    ImageFileDirectory_v2._tags_v1 := [];
                    ImageFileDirectory_v2._tags_v2 := [];
                    ImageFileDirectory_v2._tagdata := [];
                    ImageFileDirectory_v2.legacy_api := false |},
                 Z.of_nat (length ifh))
         end.
Proof.
  destruct self as [e big gr tt t1 t2 td la].
  unfold ImageFileDirectory_v2._get_ifh, ImageFileDirectory_v2._pack,
    ImageFileDirectory_v2._prefix.
  cbn [ImageFileDirectory_v2._endian ImageFileDirectory_v2._bigtiff].
  destruct e, big; (eexists; split; [reflexivity|]);
    (split; [reflexivity|]); (split; [reflexivity|]); reflexivity.
Qed.


Section saving_properties.

Variable wd : Z -> option (Endian -> list pyval -> result (list byte)).
Variable ld : Z -> option (Z * (Endian -> list byte -> bool -> result pyval)).
Variable add : pyval -> Z -> result pyval.
Variable sub : Endian -> bool -> Z -> list (Z * pyval) -> Z -> result (list byte).

Lemma stream_write_at_end (bs data : list byte) :
  stream_write bs {| sdata := data; spos := Z.of_nat (length data) |}
  = (Z.of_nat (length bs),
     {| sdata := data ++ bs;
        spos := Z.of_nat (length data) + Z.of_nat (length bs) |}).
Proof.
  unfold stream_write. cbn [sdata spos]. rewrite Nat2Z.id, Nat.sub_diag.
  cbn [replicate]. rewrite app_nil_r, take_ge by lia.
  rewrite drop_ge by lia. by rewrite app_nil_r.
Qed.

Lemma get_ifh_ok (self : ImageFileDirectory_v2.t) :
  exists ifh,
    ImageFileDirectory_v2._get_ifh self = Ok ifh
    /\ length ifh = (if ImageFileDirectory_v2._bigtiff self then 16 else 8)%nat
    /\ (if ImageFileDirectory_v2._bigtiff self
        then unpack (ImageFileDirectory_v2._endian self) fmt_Q (drop 8 ifh)
        else unpack (ImageFileDirectory_v2._endian self) fmt_L (drop 4 ifh))
       = Ok (Z.of_nat (length ifh))
    /\ take 2 ifh = ImageFileDirectory_v2._prefix self.
Proof.
  destruct self as [e big gr tt t1 t2 td la].
  unfold ImageFileDirectory_v2._get_ifh, ImageFileDirectory_v2._pack,
    ImageFileDirectory_v2._prefix.
  cbn [ImageFileDirectory_v2._endian ImageFileDirectory_v2._bigtiff].
  destruct e, big; (eexists; split; [reflexivity|]);
    (split; [reflexivity|]); (split; reflexivity).
Qed.

(** X8.  [save] on a file positioned at its end: on an empty file it writes
    the header first, whose first-directory field holds the length of the
    header, which is the offset the directory is then serialised for and
    written at; on a file that has content it writes no header.  The
    directory is appended, and the value returned is the new length of the
    file.  If [tobytes] raises, so does [save]. *)
Theorem save_appends (self : ImageFileDirectory_v2.t) (data : list byte) :
  exists ifh,
    ImageFileDirectory_v2._get_ifh self = Ok ifh
    /\ (if ImageFileDirectory_v2._bigtiff self
        then unpack (ImageFileDirectory_v2._endian self) fmt_Q (drop 8 ifh)
        else unpack (ImageFileDirectory_v2._endian self) fmt_L (drop 4 ifh))
       = Ok (Z.of_nat (length ifh))
    /\ let header := if Nat.eqb (length data) 0 then ifh else [] in
       let offset := Z.of_nat (length data) + Z.of_nat (length header) in
       match ImageFileDirectory_v2.tobytes wd ld add sub self offset with
       | Ok body =>
           ImageFileDirectory_v2.save wd ld add sub self
             {| sdata := data; spos := Z.of_nat (length data) |}
           = (Ok (offset + Z.of_nat (length body)),
              {| sdata := data ++ header ++ body;
                 spos := offset + Z.of_nat (length body) |})
       | Raise e =>
           exists fp,
             ImageFileDirectory_v2.save wd ld add sub self
               {| sdata := data; spos := Z.of_nat (length data) |}
             = (Raise e, fp)
       end.
Proof.
  destruct (get_ifh_ok self) as (ifh & Hifh & _ & Hfirst & _).
  exists ifh. split; [done|]. split; [done|].
  unfold ImageFileDirectory_v2.save. cbn [fp_tell fp_write stream_FileLike].
  unfold stream_tell. cbn [spos]. rewrite Hifh. cbn [rbind].
  destruct data as [|b data].
  - cbn [length Nat.eqb].
    change (stream_write ifh {| sdata := []; spos := Z.of_nat 0 |})
      with (stream_write ifh {| sdata := []; spos := Z.of_nat (length (@nil byte)) |}).
    rewrite stream_write_at_end.
    change (Z.of_nat 0) with 0.
    cbn [snd spos length Z.add Z.eqb app].
    destruct (ImageFileDirectory_v2.tobytes _ _ _ _ _ _) as [body|e];
      [|by eexists].
    by rewrite stream_write_at_end.
  - destruct (Z.eqb_spec (Z.of_nat (length (b :: data))) 0) as [H0|_];
      [simpl in H0; lia|].
    cbn [Nat.eqb length app spos]. rewrite Z.add_0_r.
    destruct (ImageFileDirectory_v2.tobytes _ _ _ _ _ _) as [body|e];
      [|by eexists].
    by rewrite stream_write_at_end.
Qed.

End saving_properties.

(** ** The directory as a mapping *)

Lemma dict_contains_keys {V} (k : Z) (d : dict V) :
  dict_contains k d = true <-> k ∈ dict_keys d.
Proof.
  unfold dict_contains, dict_keys.
  induction d as [|[k' v] d IH]; simpl.
  - split; [done|]. by intros ?%elem_of_nil.
  - rewrite elem_of_cons, orb_true_iff, IH, Z.eqb_eq.
    split; (intros [->|?]; [by left|by right]).
Qed.

Lemma elem_of_keys_pop {V} (x k : Z) (d : dict V) :
  x ∈ dict_keys (dict_pop k d) <-> x ∈ dict_keys d /\ x <> k.
Proof.
  unfold dict_keys, dict_pop.
  induction d as [|[k' v] d IH].
  - simpl. split; [by intros ?%elem_of_nil|by intros [?%elem_of_nil _]].
  - rewrite filter_cons. cbn [fst map].
    destruct (decide (k' <> k)) as [Hk|Hk]; cbn [map fst].
    + rewrite !elem_of_cons, IH.
      split; [intros [->|[? ?]]; [split; [by left|done]|split; [by right|done]]
             |intros [[->|?] ?]; [by left|by right]].
    + apply dec_stable in Hk. subst k'. rewrite IH, elem_of_cons.
      split; [intros [? ?]; split; [by right|done]
             |intros [[->|?] ?]; [done|done]].
Qed.

Lemma dict_keys_pop {V} (k : Z) (d : dict V) :
  (list_to_set (dict_keys (dict_pop k d)) : gset Z)
  = list_to_set (dict_keys d) ∖ {[k]}.
Proof.
  apply set_eq. intros x.
  rewrite elem_of_difference, !elem_of_list_to_set, not_elem_of_singleton.
  apply elem_of_keys_pop.
Qed.

(** X9.  Iteration, membership and length agree: a tag is iterated over
    exactly when [__contains__] holds of it, and [__delitem__] lowers
    [__len__] by one for a tag of the directory and by nothing
    otherwise. *)
Theorem len_iter_contains (self : ImageFileDirectory_v2.t) (tag : Z) :
  (tag ∈ ImageFileDirectory_v2.__iter__ self
   <-> ImageFileDirectory_v2.__contains__ self tag = true)
  /\ ImageFileDirectory_v2.__len__ (ImageFileDirectory_v2.__delitem__ self tag)
     = ImageFileDirectory_v2.__len__ self
       - (if ImageFileDirectory_v2.__contains__ self tag then 1 else 0).
Proof.
  assert (Hiff : tag ∈ ImageFileDirectory_v2.__iter__ self
                 <-> ImageFileDirectory_v2.__contains__ self tag = true).
  { unfold ImageFileDirectory_v2.__iter__, ImageFileDirectory_v2.__contains__.
    rewrite elem_of_union, !elem_of_list_to_set, orb_true_iff,
      !dict_contains_keys. tauto. }
  split; [done|].
  assert (Hdel : ImageFileDirectory_v2.__iter__
                   (ImageFileDirectory_v2.__delitem__ self tag)
                 = ImageFileDirectory_v2.__iter__ self ∖ {[tag]}).
  { unfold ImageFileDirectory_v2.__iter__, ImageFileDirectory_v2.__delitem__.
    cbn [ImageFileDirectory_v2._tagdata ImageFileDirectory_v2._tags_v2].
    rewrite !dict_keys_pop. apply set_eq. intros x.
    rewrite !elem_of_difference, !elem_of_union, !elem_of_difference. tauto. }
  unfold ImageFileDirectory_v2.__len__. rewrite Hdel.
  destruct (ImageFileDirectory_v2.__contains__ self tag) eqn:Hc.
  - rewrite size_difference by (apply singleton_subseteq_l, Hiff; done).
    rewrite size_singleton.
    assert (size (ImageFileDirectory_v2.__iter__ self) <> 0)%nat; [|lia].
    apply size_non_empty_iff. intros He.
    assert (Hin : tag ∈ ImageFileDirectory_v2.__iter__ self) by by apply Hiff.
    rewrite He in Hin. by apply elem_of_empty in Hin.
  - rewrite difference_disjoint_L; [lia|].
    apply disjoint_singleton_r. intros Hin%Hiff. congruence.
Qed.

Lemma dict_get_set_ne {V} (k j : Z) (v : V) (d : dict V) :
  j <> k -> dict_get j (dict_set k v d) = dict_get j d.
Proof.
  intros Hne. induction d as [|[k' v'] d IH]; simpl.
  - destruct (Z.eqb_spec k j); [congruence|done].
  - destruct (Z.eqb_spec k' k) as [->|Hk]; simpl.
    + destruct (Z.eqb_spec k j); [congruence|done].
    + destruct (Z.eqb_spec k' j); [done|apply IH].
Qed.

Lemma dict_contains_get {V} (k : Z) (d : dict V) :
  dict_contains k d = true <-> exists v, dict_get k d = Some v.
Proof.
  unfold dict_contains. induction d as [|[k' v] d IH]; simpl.
  - split; [done|by intros [? ?]].
  - destruct (Z.eqb_spec k' k); simpl; [|done].
    split; [by exists v|done].
Qed.

Lemma dict_contains_set {V} (k : Z) (v : V) (d : dict V) :
  dict_contains k (dict_set k v d) = true.
Proof. apply dict_contains_get. exists v. apply dict_get_set. Qed.

Section mapping_properties.

Variable lookup : Z -> option Z -> TagInfo.
Variable float_of_int : Z -> result pyval.
Variable ld : Z -> option (Z * (Endian -> list byte -> bool -> result pyval)).

Import ImageFileDirectory_v2.

Lemma setitem_tagtype_frame (self : t) (info : option Z) (tag : Z)
  (value : pyval) :
  dict_contains tag (_setitem_tagtype self info tag value) = true
  /\ (dict_contains tag (tagtype self) = true ->
      _setitem_tagtype self info tag value = tagtype self)
  /\ (forall k, k <> tag ->
        dict_get k (_setitem_tagtype self info tag value)
        = dict_get k (tagtype self)).
Proof.
  unfold _setitem_tagtype.
  destruct (dict_contains tag (tagtype self)) eqn:Hc; simpl.
  - done.
  - destruct info as [ty|]; [destruct (ty =? 0)|]; simpl;
      (split; [apply dict_contains_set|]);
      (split; [done|]); intros k Hk; by apply dict_get_set_ne.
Qed.

Lemma store_frame (legacy : bool) (tag : Z) (v : pyval) (self : t) :
  let self' := store legacy tag v self in
  _endian self' = _endian self /\ _bigtiff self' = _bigtiff self
  /\ group self' = group self /\ legacy_api self' = legacy_api self
  /\ tagtype self' = tagtype self /\ _tagdata self' = _tagdata self
  /\ (if legacy then _tags_v2 self' = _tags_v2 self
      else _tags_v1 self' = _tags_v1 self)
  /\ dict_get tag (if legacy then _tags_v1 self' else _tags_v2 self') = Some v
  /\ (forall k, k <> tag ->
        dict_get k (_tags_v1 self') = dict_get k (_tags_v1 self)
        /\ dict_get k (_tags_v2 self') = dict_get k (_tags_v2 self)).
Proof.
  destruct legacy; simpl; repeat (split; [done|]);
    (split; [apply dict_get_set|]); intros k Hk;
    (split; [|]); try done; by apply dict_get_set_ne.
Qed.

Lemma setitem_spec (tag : Z) (value : pyval) (legacy : bool) (self : t) :
  let '(r, self') := _setitem lookup float_of_int tag value legacy self in
  setitem_touches_only legacy tag self self'
  /\ dict_contains tag (tagtype self') = true
  /\ (r = Ok tt ->
      exists v, dict_get tag (if legacy then _tags_v1 self' else _tags_v2 self')
                = Some v).
Proof.
  unfold _setitem.
  set (info := lookup tag (group self)).
  pose proof (setitem_tagtype_frame self (info_type info) tag value)
    as (Hin & Hkeep & Hother).
  set (types := _setitem_tagtype self (info_type info) tag value) in *.
  set (self1 := with_tagtype types self).
  assert (Hbase : setitem_touches_only legacy tag self self1).
  { unfold setitem_touches_only, self1. simpl.
    repeat (split; [done|]). split; [by destruct legacy|].
    split; [done|]. intros k Hk. by rewrite Hother. }
  assert (Hstore : forall v,
    setitem_touches_only legacy tag self (store legacy tag v self1)
    /\ dict_contains tag (tagtype (store legacy tag v self1)) = true
    /\ exists v', dict_get tag (if legacy then _tags_v1 (store legacy tag v self1)
                                else _tags_v2 (store legacy tag v self1))
                  = Some v').
  { intros v.
    pose proof (store_frame legacy tag v self1)
      as (H1 & H2 & H3 & H4 & H5 & H6 & H7 & H8 & H9).
    destruct Hbase as (B1 & B2 & B3 & B4 & B5 & B6 & B7 & B8).
    split; [|split; [by rewrite H5|by exists v]].
    unfold setitem_touches_only.
    split; [congruence|]. split; [congruence|]. split; [congruence|].
    split; [congruence|]. split; [congruence|].
    split; [destruct legacy; congruence|].
    split; [intros Hc; rewrite H5; by apply B7|].
    intros k Hk. destruct (H9 k Hk) as [Ha Hb]. destruct (B8 k Hk) as (Hc & Hd & He).
    rewrite H5. split; [done|]. split; congruence. }
  change (tagtype self1) with types.
  destruct (dict_get tag types) as [typ|] eqn:Htyp; simpl.
  2: { split; [done|]. split; [done|]. done. }
  destruct (convert_values float_of_int typ (values_of value)) as [values|e].
  2: { split; [done|]. split; [done|]. done. }
  destruct ((typ =? TiffTags.LONG) && is_dict value).
  { destruct (Hstore value) as (? & ? & ?). done. }
  destruct (_ || _).
  - destruct (if legacy && _ then _ else _) as [|v [|v' rest]].
    + destruct (str_of_int tag); (split; [done|]); (split; [done|]); done.
    + destruct (Hstore v) as (? & ? & ?). done.
    + destruct (str_of_int tag).
      * destruct (Hstore v) as (? & ? & ?). done.
      * split; [done|]. split; [done|]. done.
  - match goal with |- context [store legacy tag ?v self1] =>
      destruct (Hstore v) as (? & ? & ?) end. done.
Qed.

(** X10.  Whether [_setitem] returns or raises, it leaves the byte order,
    the raw data, the other store and every other tag as they were, it
    never replaces a type the tag already has, and it leaves the tag with a
    type; when it returns, the tag is in the store it writes to. *)
Theorem setitem_touches_one_tag (tag : Z) (value : pyval) (legacy : bool)
  (self self' : t) (r : result unit) :
  _setitem lookup float_of_int tag value legacy self = (r, self') ->
  setitem_touches_only legacy tag self self'
  /\ dict_contains tag (tagtype self') = true
  /\ (r = Ok tt ->
      dict_contains tag (if legacy then _tags_v1 self' else _tags_v2 self')
      = true).
Proof.
  intros Hset. pose proof (setitem_spec tag value legacy self) as Hspec.
  rewrite Hset in Hspec. destruct Hspec as (H1 & H2 & H3).
  split; [done|]. split; [done|]. intros Hr. by apply dict_contains_get, H3.
Qed.

(** X12.  Under the v2 interface, what [__setitem__] has stored
    [__getitem__] returns: it succeeds without consulting the raw data or a
    loader, returns the stored value and leaves the directory as it is;
    and the tag is a member. *)
Theorem getitem_after_setitem (tag : Z) (value : pyval) (self self' : t) :
  legacy_api self = false ->
  __setitem__ lookup float_of_int tag value self = (Ok tt, self') ->
  exists v,
    dict_get tag (_tags_v2 self') = Some v
    /\ __getitem__ lookup float_of_int ld tag self' = (Ok v, self')
    /\ __contains__ self' tag = true.
Proof.
  intros Hl Hset. unfold __setitem__ in Hset. rewrite Hl in Hset.
  pose proof (setitem_spec tag value false self) as Hspec.
  rewrite Hset in Hspec. destruct Hspec as (H1 & H2 & H3).
  destruct (H3 eq_refl) as [v Hv]. exists v. split; [done|].
  assert (Hc : dict_contains tag (_tags_v2 self') = true)
    by (apply dict_contains_get; by exists v).
  destruct H1 as (_ & _ & _ & Hl' & _).
  split.
  - unfold __getitem__, bind. rewrite Hc. simpl. rewrite Hv.
    rewrite Hl', Hl. done.
  - unfold __contains__. by rewrite Hc.
Qed.

(** X13.  [__getitem__] of a tag that is not in the directory raises
    [KeyError] and changes nothing. *)
Theorem getitem_absent_KeyError (tag : Z) (self : t) :
  __contains__ self tag = false ->
  __getitem__ lookup float_of_int ld tag self = (Raise KeyError, self).
Proof.
  unfold __contains__. intros [H2 Hd]%orb_false_elim.
  unfold __getitem__, bind. rewrite H2. simpl.
  destruct (dict_get tag (_tagdata self)) as [data|] eqn:Hdata; [|done].
  assert (dict_contains tag (_tagdata self) = true)
    by (apply dict_contains_get; by exists data).
  congruence.
Qed.

(** X14.  A value that [__getitem__] has returned it returns again, from
    the directory as the first call left it and without changing it: a tag
    decoded from its raw data is decoded once; the raw data stays. *)
Theorem getitem_caches (tag : Z) (self self' : t) (v : pyval) :
  __getitem__ lookup float_of_int ld tag self = (Ok v, self') ->
  __getitem__ lookup float_of_int ld tag self' = (Ok v, self')
  /\ _tagdata self' = _tagdata self.
Proof.
  unfold __getitem__ at 1. unfold bind.
  destruct (dict_contains tag (_tags_v2 self)) eqn:Hc; simpl.
  - destruct (dict_get tag (_tags_v2 self)) as [val|] eqn:Hval; [|done].
    intros [= <- <-]. split; [|done].
    unfold __getitem__, bind. rewrite Hc. simpl. by rewrite Hval.
  - unfold lift.
    destruct (dict_get tag (_tagdata self)) as [data|]; [|done]. simpl.
    destruct (dict_get tag (tagtype self)) as [typ|]; [|done]. simpl.
    destruct (ld typ) as [h|]; [|done]. simpl.
    destruct (snd h (_endian self) data (legacy_api self)) as [value|]; [|done].
    unfold __setitem__.
    pose proof (setitem_spec tag value (legacy_api self) self) as Hspec.
    destruct (_setitem lookup float_of_int tag value (legacy_api self) self)
      as [[[]|e] s1]; [|done].
    destruct Hspec as (H1 & _ & _).
    destruct (dict_get tag (_tags_v2 s1)) as [val|] eqn:Hval; [|done].
    intros [= <- <-].
    destruct H1 as (_ & _ & _ & _ & Hd & _). split; [|done].
    assert (Hc1 : dict_contains tag (_tags_v2 s1) = true)
      by (apply dict_contains_get; by exists val).
    unfold __getitem__, bind. rewrite Hc1. simpl. by rewrite Hval.
Qed.

(** X11.  Integers set under the v2 interface on a tag that has no type
    yet and that the tag dictionary does not know: the tag gets the type
    inferred from the values, a single integer is stored and returned as
    the integer itself, and two or more as the tuple. *)
Theorem setitem_ints_unknown_tag (tag : Z) (zs : list Z) (self : t) :
  legacy_api self = false ->
  info_type (lookup tag (group self)) = None ->
  info_length (lookup tag (group self)) = None ->
  dict_contains tag (tagtype self) = false ->
  zs <> [] ->
  exists self',
    __setitem__ lookup float_of_int tag (PyTuple (map PyInt zs)) self
    = (Ok tt, self')
    /\ dict_get tag (tagtype self') = Some (nonneg_int_type zs)
    /\ __getitem__ lookup float_of_int ld tag self'
       = (Ok (match zs with
              | [z] => PyInt z
              | _ => PyTuple (map PyInt zs)
              end), self').
Proof.
  intros Hl Hty Hlen Hnew Hzs.
  unfold __setitem__, _setitem. rewrite Hl, Hty, Hlen.
  cbn [with_tagtype tagtype].
  rewrite (setitem_tagtype_unknown self tag (PyTuple (map PyInt zs)) Hnew).
  cbn [values_of]. rewrite (infer_tagtype_ints zs Hzs).
  assert (Htyp : nonneg_int_type zs = TiffTags.SHORT
                 \/ nonneg_int_type zs = TiffTags.SIGNED_SHORT
                 \/ nonneg_int_type zs = TiffTags.LONG
                 \/ nonneg_int_type zs = TiffTags.SIGNED_LONG).
  { unfold nonneg_int_type. repeat destruct (forallb _ zs); tauto. }
  assert (Hconv : convert_values float_of_int (nonneg_int_type zs) (map PyInt zs)
                  = Ok (map PyInt zs)).
  { unfold convert_values. by destruct Htyp as [-> | [-> | [-> | ->]]]. }
  rewrite Hconv. cbn [is_dict]. rewrite andb_false_r.
  rewrite map_map. cbn [map]. rewrite <- (map_map _ (fun v => v)), map_id.
  assert (Hbyte : (nonneg_int_type zs =? TiffTags.BYTE) = false)
    by (by destruct Htyp as [-> | [-> | [-> | ->]]]).
  rewrite Hbyte. rewrite bool_decide_eq_false_2 by done.
  rewrite bool_decide_eq_true_2 by done. rewrite length_map.
  cbn [orb andb negb].
  set (self1 := with_tagtype _ self).
  assert (Hget : forall v,
    dict_get tag (tagtype (store false tag v self1)) = Some (nonneg_int_type zs)
    /\ __getitem__ lookup float_of_int ld tag (store false tag v self1)
       = (Ok v, store false tag v self1)).
  { intros v. split.
    - cbn [store tagtype self1 with_tagtype].
      rewrite (setitem_tagtype_unknown self tag (PyTuple (map PyInt zs)) Hnew).
      cbn [values_of]. by rewrite (infer_tagtype_ints zs Hzs).
    - unfold __getitem__, bind. cbn [store _tags_v2 legacy_api].
      rewrite dict_contains_set. cbn [negb].
      change (_tags_v2 (store false tag v self1))
        with (dict_set tag v (_tags_v2 self1)).
      change (legacy_api (store false tag v self1)) with (legacy_api self).
      by rewrite dict_get_set, Hl. }
  destruct zs as [|z [|z' zs]]; [done| |].
  - cbn [length Nat.eqb andb map]. eexists. split; [done|]. apply Hget.
  - cbn [length Nat.eqb andb]. eexists. split; [done|]. apply Hget.
Qed.

End mapping_properties.

Lemma setitem_touches_one_tag_witness :
  setitem_touches_only false 700 (sample_directory [] [])
    (sample_directory [(700, PyInt 5)] [(700, TiffTags.SHORT)])
  /\ dict_contains 700
       (ImageFileDirectory_v2.tagtype
          (sample_directory [(700, PyInt 5)] [(700, TiffTags.SHORT)])) = true
  /\ (Ok tt = Ok tt ->
      dict_contains 700
        (ImageFileDirectory_v2._tags_v2
           (sample_directory [(700, PyInt 5)] [(700, TiffTags.SHORT)])) = true).
Proof.
  apply (setitem_touches_one_tag unknown_tag float_of_int_53 700 (PyInt 5) false
           (sample_directory [] [])
           (sample_directory [(700, PyInt 5)] [(700, TiffTags.SHORT)]) (Ok tt)).
  reflexivity.
Defined.

Lemma setitem_ints_unknown_tag_witness :
  exists self',
    ImageFileDirectory_v2.__setitem__ unknown_tag float_of_int_53 700
      (PyTuple (map PyInt [1; 70000])) (sample_directory [] [])
    = (Ok tt, self')
    /\ dict_get 700 (ImageFileDirectory_v2.tagtype self')
       = Some (nonneg_int_type [1; 70000])
    /\ ImageFileDirectory_v2.__getitem__ unknown_tag float_of_int_53
         ImageFileDirectory_v2.integer_load_dispatch 700 self'
       = (Ok (PyTuple (map PyInt [1; 70000])), self').
Proof.
  apply (setitem_ints_unknown_tag unknown_tag float_of_int_53
           ImageFileDirectory_v2.integer_load_dispatch 700 [1; 70000]
           (sample_directory [] [])); done.
Defined.

Lemma getitem_after_setitem_witness :
  exists v,
    dict_get 700
      (ImageFileDirectory_v2._tags_v2
         (sample_directory [(700, PyInt 5)] [(700, TiffTags.SHORT)])) = Some v
    /\ ImageFileDirectory_v2.__getitem__ unknown_tag float_of_int_53
         ImageFileDirectory_v2.integer_load_dispatch 700
         (sample_directory [(700, PyInt 5)] [(700, TiffTags.SHORT)])
       = (Ok v, sample_directory [(700, PyInt 5)] [(700, TiffTags.SHORT)])
    /\ ImageFileDirectory_v2.__contains__
         (sample_directory [(700, PyInt 5)] [(700, TiffTags.SHORT)]) 700 = true.
Proof.
  apply (getitem_after_setitem unknown_tag float_of_int_53
           ImageFileDirectory_v2.integer_load_dispatch 700 (PyInt 5)
           (sample_directory [] [])); reflexivity.
Defined.

Lemma getitem_absent_KeyError_witness :
  ImageFileDirectory_v2.__getitem__ unknown_tag float_of_int_53
    ImageFileDirectory_v2.integer_load_dispatch 256 raw_short_directory
  = (Raise KeyError, raw_short_directory).
Proof.
  apply (getitem_absent_KeyError unknown_tag float_of_int_53
           ImageFileDirectory_v2.integer_load_dispatch 256 raw_short_directory).
  reflexivity.
Defined.

Lemma getitem_caches_witness :
  ImageFileDirectory_v2.__getitem__ unknown_tag float_of_int_53
    ImageFileDirectory_v2.integer_load_dispatch 700
    (ImageFileDirectory_v2.store false 700 (PyTuple [PyInt 1; PyInt 2])
       raw_short_directory)
  = (Ok (PyTuple [PyInt 1; PyInt 2]),
     ImageFileDirectory_v2.store false 700 (PyTuple [PyInt 1; PyInt 2])
       raw_short_directory)
  /\ ImageFileDirectory_v2._tagdata
       (ImageFileDirectory_v2.store false 700 (PyTuple [PyInt 1; PyInt 2])
          raw_short_directory)
     = ImageFileDirectory_v2._tagdata raw_short_directory.
Proof.
  apply (getitem_caches unknown_tag float_of_int_53
           ImageFileDirectory_v2.integer_load_dispatch 700 raw_short_directory).
  reflexivity.
Defined.

(** ** The legacy view *)

Section legacy_properties.

Variable lookup : Z -> option Z -> TagInfo.
Variable float_of_int : Z -> result pyval.
Variable ld : Z -> option (Z * (Endian -> list byte -> bool -> result pyval)).

(** X15.  Setting a tag through the legacy interface fills both stores:
    after [ImageFileDirectory_v1.__setitem__] has returned, the tag is in
    [_tags_v2] and is a member of the legacy view, and the legacy
    [__getitem__] returns a tuple or a byte string without changing the
    directory. *)
Theorem legacy_setitem_fills_both_stores (tag : Z) (value : pyval)
  (self self' : ImageFileDirectory_v2.t) :
  ImageFileDirectory_v1.__setitem__ lookup float_of_int tag value self
  = (Ok tt, self') ->
  dict_contains tag (ImageFileDirectory_v2._tags_v2 self') = true
  /\ ImageFileDirectory_v1.__contains__ self' tag = true
  /\ exists val,
       ImageFileDirectory_v1.__getitem__ lookup float_of_int ld tag self'
       = (Ok val, self')
       /\ is_tuple val || is_bytes val = true.
Proof.
  unfold ImageFileDirectory_v1.__setitem__, bind.
  pose proof (setitem_spec lookup float_of_int tag value false self) as H2.
  destruct (ImageFileDirectory_v2._setitem lookup float_of_int tag value false self)
    as [[[]|e] s1]; [|done].
  destruct H2 as (_ & _ & H2). destruct (H2 eq_refl) as [v2 Hv2].
  pose proof (setitem_spec lookup float_of_int tag value true s1) as H1.
  destruct (ImageFileDirectory_v2._setitem lookup float_of_int tag value true s1)
    as [[[]|e] s2]; [|done].
  intros [= <-]. destruct H1 as (Hf & _ & H1). destruct (H1 eq_refl) as [v1 Hv1].
  destruct Hf as (_ & _ & _ & _ & _ & Hkeep & _).
  assert (Hc1 : dict_contains tag (ImageFileDirectory_v2._tags_v1 s2) = true)
    by (apply dict_contains_get; by exists v1).
  split; [rewrite Hkeep; apply dict_contains_get; by exists v2|].
  split; [unfold ImageFileDirectory_v1.__contains__; by rewrite Hc1|].
  unfold ImageFileDirectory_v1.__getitem__, bind. rewrite Hc1. cbn [negb].
  rewrite Hv1. eexists. split; [reflexivity|].
  by destruct v1.
Qed.

End legacy_properties.


Lemma legacy_setitem_fills_both_stores_witness :
  dict_contains 700
    (ImageFileDirectory_v2._tags_v2
       (ImageFileDirectory_v2.store true 700 (PyTuple [PyInt 5])
          (sample_directory [(700, PyInt 5)] [(700, TiffTags.SHORT)]))) = true
  /\ ImageFileDirectory_v1.__contains__
       (ImageFileDirectory_v2.store true 700 (PyTuple [PyInt 5])
          (sample_directory [(700, PyInt 5)] [(700, TiffTags.SHORT)])) 700 = true
  /\ exists val,
       ImageFileDirectory_v1.__getitem__ unknown_tag float_of_int_53
         ImageFileDirectory_v2.integer_load_dispatch 700
         (ImageFileDirectory_v2.store true 700 (PyTuple [PyInt 5])
            (sample_directory [(700, PyInt 5)] [(700, TiffTags.SHORT)]))
       = (Ok val,
          ImageFileDirectory_v2.store true 700 (PyTuple [PyInt 5])
            (sample_directory [(700, PyInt 5)] [(700, TiffTags.SHORT)]))
       /\ is_tuple val || is_bytes val = true.
Proof.
  apply (legacy_setitem_fills_both_stores unknown_tag float_of_int_53
           ImageFileDirectory_v2.integer_load_dispatch 700 (PyInt 5)
           (sample_directory [] [])).
  reflexivity.
Defined.

(** ** The appending writer: relocation, alignment and refusals *)

Section writer_properties.

Import AppendingTiffWriter.

Lemma for_range_ok {S} (body : M S unit) (n : nat) (s s1 s' : S)
  (r : result unit) :
  body s = (Ok tt, s1) -> for_range n body s1 = (r, s') ->
  for_range (Datatypes.S n) body s = (r, s').
Proof. intros Hb Hr. simpl. unfold bind. by rewrite Hb. Qed.

Lemma field_fmt_spec (fs : Z) (c : Fmt) :
  field_fmt fs c ->
  _fmt fs = ret c /\ fs = Z.of_nat (calcsize c) /\ is_signed c = false.
Proof. by intros [[-> ->]|[[-> ->]|[-> ->]]]. Qed.

Lemma pack_unsigned_range (e : Endian) (c : Fmt) (v : Z) (bs : list byte) :
  is_signed c = false -> pack e c v = Ok bs ->
  0 <= v < 2 ^ (8 * Z.of_nat (calcsize c)).
Proof.
  unfold pack, fmt_min, fmt_max, fmt_bits. intros ->.
  destruct (Z.leb_spec 0 v); [|done].
  destruct (Z.ltb_spec v (2 ^ (8 * Z.of_nat (calcsize c)))); [|done]. lia.
Qed.

Lemma fixOffsets_body_relocates (e : Endian) (c : Fmt) (fs count v : Z)
  (w : t) (A B B' C : list byte) :
  endian w = Some e ->
  field_fmt fs c ->
  pack e c v = Ok B ->
  pack e c (v + offsetOfNewPage w) = Ok B' ->
  _fixOffsets_body count fs (at_position (A ++ B ++ C) (Z.of_nat (length A)) w)
  = (Ok tt, at_position (A ++ B' ++ C) (Z.of_nat (length A) + fs) w).
Proof.
  intros He Hf HB HB'.
  destruct (field_fmt_spec _ _ Hf) as (Hfmt & Hfs & Hsig).
  pose proof (pack_length _ _ _ _ HB) as HlB.
  pose proof (pack_length _ _ _ _ HB') as HlB'.
  pose proof (pack_unsigned_range _ _ _ _ Hsig HB') as Hr.
  unfold _fixOffsets_body.
  erewrite bind_ok
    by (apply (read_at e c fs v); [done|done|lia|by apply unpack_pack]).
  unfold gets at 1, bind at 1. cbn [at_position with_f offsetOfNewPage].
  unfold gets at 1, bind at 1. cbn [at_position with_f _bigtiff].
  assert (Hno :
    (if _bigtiff w && ((fs =? 2) || (fs =? 4))
        && (2 ^ 32 <=? v + offsetOfNewPage w) then 8
     else if (fs =? 2) && (2 ^ 16 <=? v + offsetOfNewPage w) then 4 else 0) = 0).
  { destruct Hf as [[-> ->]|[[-> ->]|[-> ->]]]; simpl in Hr;
      change (2 ^ 16) with 65536 in *; change (2 ^ 32) with 4294967296 in *;
      simpl (_ =? _); rewrite ?andb_false_r, ?andb_false_l, ?orb_false_r;
      repeat match goal with
      | |- context [?a <=? ?b] => destruct (Z.leb_spec a b); [lia|]
      end; rewrite ?andb_false_r; done. }
  rewrite Hno. cbn [Z.eqb negb].
  replace (A ++ B ++ C) with (A ++ (B ++ C)) by done.
  change (with_f {| sdata := A ++ B ++ C; spos := Z.of_nat (length A) + fs |} w)
    with (at_position (A ++ B ++ C) (Z.of_nat (length A) + fs) w).
  rewrite (rewriteLast_at e c fs 0 fs (v + offsetOfNewPage w) w A (B ++ C) B');
    [|done|done|done|done|done].
  do 3 f_equal. rewrite HlB', <- HlB. by rewrite drop_app_length.
Qed.

Lemma at_position_fields (data : list byte) (pos : Z) (w : t) :
  endian (at_position data pos w) = endian w
  /\ offsetOfNewPage (at_position data pos w) = offsetOfNewPage w
  /\ _bigtiff (at_position data pos w) = _bigtiff w.
Proof. done. Qed.

Lemma at_position_twice (d d' : list byte) (p p' : Z) (w : t) :
  at_position d' p' (at_position d p w) = at_position d' p' w.
Proof. done. Qed.

Lemma fixOffsets_loop (e : Endian) (c : Fmt) (fs count : Z) (w : t)
  (C : list byte) (vs : list Z) : forall (A : list byte) (olds news : list (list byte)),
  endian w = Some e ->
  field_fmt fs c ->
  mapM (pack e c) vs = Ok olds ->
  mapM (pack e c) (map (fun v => v + offsetOfNewPage w) vs) = Ok news ->
  for_range (length vs) (_fixOffsets_body count fs)
    (at_position (A ++ concat olds ++ C) (Z.of_nat (length A)) w)
  = (Ok tt,
     at_position (A ++ concat news ++ C)
       (Z.of_nat (length A) + fs * Z.of_nat (length vs)) w).
Proof.
  induction vs as [|v vs IH]; intros A olds news He Hf Holds Hnews.
  - simpl in *. injection Holds as <-. injection Hnews as <-.
    unfold ret. do 2 f_equal. lia.
  - cbn [map mapM] in Holds, Hnews.
    destruct (pack e c v) as [B|] eqn:HB; [|done].
    destruct (mapM (pack e c) vs) as [olds'|] eqn:Holds'; [|done].
    injection Holds as <-.
    destruct (pack e c (v + offsetOfNewPage w)) as [B'|] eqn:HB'; [|done].
    destruct (mapM (pack e c) (map _ vs)) as [news'|] eqn:Hnews'; [|done].
    injection Hnews as <-.
    cbn [concat length]. rewrite <- !(assoc_L (++) B), <- !(assoc_L (++) B').
    eapply for_range_ok.
    + by apply (fixOffsets_body_relocates e c fs count v).
    + destruct (field_fmt_spec _ _ Hf) as (_ & Hfs & _).
      pose proof (pack_length _ _ _ _ HB') as HlB'.
      replace (Z.of_nat (length A) + fs) with (Z.of_nat (length (A ++ B')))
        by (rewrite length_app; lia).
      rewrite !(assoc_L (++) A B').
      specialize (IH (A ++ B') olds' news' He Hf eq_refl eq_refl).
      rewrite IH. do 2 f_equal. rewrite length_app. lia.
Qed.

(** X16.  Relocation without promotion.  The stream holds the offsets [vs]
    in fields of 2, 4 or 8 bytes and is positioned at the first; every
    offset still fits its field after [offsetOfNewPage] is added.
    [_fixOffsets] then replaces each offset in place by the relocated one,
    leaves every other byte of the stream as it was and ends behind the
    last field. *)
Theorem fixOffsets_relocates (e : Endian) (c : Fmt) (fs : Z) (w : t)
  (A C : list byte) (vs : list Z) (olds news : list (list byte)) :
  endian w = Some e ->
  field_fmt fs c ->
  mapM (pack e c) vs = Ok olds ->
  mapM (pack e c) (map (fun v => v + offsetOfNewPage w) vs) = Ok news ->
  _fixOffsets (Z.of_nat (length vs)) fs
    (at_position (A ++ concat olds ++ C) (Z.of_nat (length A)) w)
  = (Ok tt,
     at_position (A ++ concat news ++ C)
       (Z.of_nat (length A) + fs * Z.of_nat (length vs)) w).
Proof.
  intros He Hf Holds Hnews. unfold _fixOffsets. rewrite Nat2Z.id.
  by apply (fixOffsets_loop e c).
Qed.

(** X17.  A field size other than 2, 4 and 8: with one offset or more to
    fix, [_fixOffsets] raises [RuntimeError] (offset is not supported)
    before it reads or writes anything; with none it does nothing. *)
Theorem fixOffsets_unsupported_size (count fs : Z) (w : t) (e : Endian) :
  endian w = Some e ->
  fs <> 2 -> fs <> 4 -> fs <> 8 ->
  _fixOffsets count fs w
  = if 0 <? count then (Raise (RuntimeError "offset is not supported"), w)
    else (Ok tt, w).
Proof.
  intros He H2 H4 H8. unfold _fixOffsets.
  destruct (Z.ltb_spec 0 count) as [Hc|Hc].
  - destruct (Z.to_nat count) as [|n] eqn:Hn; [lia|].
    cbn [for_range]. unfold bind at 1, _fixOffsets_body, bind at 1, _read,
      bind at 1, self_endian. rewrite He. unfold bind at 1, _fmt.
    destruct (Z.eqb_spec fs 2); [done|]. destruct (Z.eqb_spec fs 4); [done|].
    destruct (Z.eqb_spec fs 8); [done|]. done.
  - replace (Z.to_nat count) with 0%nat by lia. done.
Qed.

Lemma goToEnd_spec (w : t) :
  exists (pad : nat) (w' : t),
    goToEnd w = (Ok tt, w')
    /\ (pad < 16)%nat
    /\ sdata (f w') = sdata (f w) ++ replicate pad x00
    /\ offsetOfNewPage w' = Z.of_nat (length (sdata (f w')))
    /\ spos (f w') = offsetOfNewPage w'
    /\ offsetOfNewPage w' mod 16 = 0
    /\ beginning w' = beginning w
    /\ whereToWriteNewIFDOffset w' = whereToWriteNewIFDOffset w
    /\ IIMM w' = IIMM w /\ _bigtiff w' = _bigtiff w
    /\ isFirst w' = isFirst w /\ endian w' = endian w.
Proof.
  unfold goToEnd, f_seek_end, stream_seek_end, stream_seek, bind at 1.
  set (n := length (sdata (f w))).
  replace (Z.of_nat n + 0) with (Z.of_nat n) by lia.
  destruct (Z.ltb_spec (Z.of_nat n) 0); [lia|].
  unfold f_tell, gets, bind at 1. cbn [with_f f stream_tell spos].
  pose proof (Z.mod_pos_bound (Z.of_nat n) 16 ltac:(lia)) as Hm.
  destruct (Z.ltb_spec 0 (16 - Z.of_nat n mod 16)); [|lia].
  destruct (Z.ltb_spec (16 - Z.of_nat n mod 16) 16) as [Hp|Hp]; cbn [andb].
  - exists (Z.to_nat (16 - Z.of_nat n mod 16)). eexists.
    split; [reflexivity|]. cbn.
    rewrite Nat2Z.id. fold n. rewrite Nat.sub_diag. cbn [replicate].
    rewrite app_nil_r, take_ge by (fold n; lia).
    rewrite drop_ge by (fold n; rewrite length_replicate; lia).
    rewrite app_nil_r, length_replicate.
    split; [lia|]. split; [done|].
    rewrite length_app, length_replicate. fold n.
    split; [lia|]. split; [done|].
    split; [|done].
    rewrite Z2Nat.id by lia.
    replace (Z.of_nat n + (16 - Z.of_nat n mod 16))
      with (Z.of_nat n - Z.of_nat n mod 16 + 1 * 16) by lia.
    rewrite Z.mod_add by lia. rewrite <- Zminus_mod_idemp_r.
    rewrite Z.mod_mod by lia. rewrite Zminus_mod_idemp_r.
    by rewrite Z.sub_diag.
  - exists 0%nat. eexists. split; [reflexivity|]. cbn.
    rewrite app_nil_r. fold n. split; [lia|]. split; [done|].
    split; [done|]. split; [done|]. split; [|done].
    assert (Z.of_nat n mod 16 = 0) as -> by lia. done.
Qed.

(** X18.  [goToEnd] never raises.  It appends fewer than 16 NUL bytes to
    the file and nothing else, and sets [offsetOfNewPage] to the new end of
    the file, where it leaves the stream: a multiple of 16. *)
Theorem goToEnd_aligns (w : t) :
  exists (pad : nat) (w' : t),
    goToEnd w = (Ok tt, w')
    /\ (pad < 16)%nat
    /\ sdata (f w') = sdata (f w) ++ replicate pad x00
    /\ offsetOfNewPage w' = Z.of_nat (length (sdata (f w')))
    /\ spos (f w') = offsetOfNewPage w'
    /\ offsetOfNewPage w' mod 16 = 0
    /\ beginning w' = beginning w
    /\ whereToWriteNewIFDOffset w' = whereToWriteNewIFDOffset w
    /\ IIMM w' = IIMM w /\ _bigtiff w' = _bigtiff w
    /\ isFirst w' = isFirst w /\ endian w' = endian w.
Proof.
  destruct (goToEnd_spec w) as (pad & w' & Hrun & Hpad & Hdata & Hrest).
  exists pad, w'. split; [exact Hrun|]. split; [exact Hpad|].
  split; [exact Hdata|]. exact Hrest.
Qed.

(** X19.  When the new page starts with bytes other than the first four
    bytes of the file ([IIMM]), [finalize] raises [RuntimeError] and the
    bytes of the file are left as they were. *)
Theorem finalize_rejects_other_header (w : t) :
  isFirst w = false ->
  0 <= offsetOfNewPage w ->
  let iimm := take 4 (drop (Z.to_nat (offsetOfNewPage w)) (sdata (f w))) in
  iimm <> [] -> iimm <> IIMM w ->
  exists w',
    finalize w
    = (Raise (RuntimeError "IIMM of new page doesn't match IIMM of first page"),
       w')
    /\ sdata (f w') = sdata (f w).
Proof.
  intros Hf Hp iimm Hne Hdiff. unfold finalize, gets, bind at 1. rewrite Hf.
  unfold bind at 1, bind at 1, f_seek, stream_seek.
  destruct (Z.ltb_spec (offsetOfNewPage w) 0); [lia|].
  unfold bind at 1, f_read, stream_read. cbn [with_f f sdata spos].
  change (Z.to_nat 4) with 4%nat. fold iimm.
  destruct (Nat.eqb_spec (length iimm) 0) as [Hl|Hl].
  { by apply nil_length_inv in Hl. }
  unfold bind at 1. cbv beta. cbn [with_f IIMM].
  rewrite bool_decide_eq_false_2 by done. cbn [negb].
  eexists. split; [reflexivity|done].
Qed.

End writer_properties.

Lemma fixOffsets_relocates_witness :
  AppendingTiffWriter._fixOffsets (Z.of_nat (length [8; 16])) 4
    (AppendingTiffWriter.at_position
       ([x00; x00] ++ concat [[x08; x00; x00; x00]; [x10; x00; x00; x00]] ++ [])
       (Z.of_nat (length [x00; x00])) (sample_writer false [] 0 1000))
  = (Ok tt,
     AppendingTiffWriter.at_position
       ([x00; x00] ++ concat [[xf0; x03; x00; x00]; [xf8; x03; x00; x00]] ++ [])
       (Z.of_nat (length [x00; x00]) + 4 * Z.of_nat (length [8; 16]))
       (sample_writer false [] 0 1000)).
Proof.
  apply (fixOffsets_relocates LittleEndian fmt_L 4 (sample_writer false [] 0 1000)
           [x00; x00] [] [8; 16]);
    [reflexivity | right; left; done | reflexivity | reflexivity].
Defined.

Lemma fixOffsets_unsupported_size_witness :
  AppendingTiffWriter._fixOffsets 3 1 (sample_writer false [] 0 1000)
  = if 0 <? 3
    then (Raise (RuntimeError "offset is not supported"),
          sample_writer false [] 0 1000)
    else (Ok tt, sample_writer false [] 0 1000).
Proof.
  apply (fixOffsets_unsupported_size 3 1 (sample_writer false [] 0 1000)
           LittleEndian); [reflexivity | lia | lia | lia].
Defined.

Lemma finalize_rejects_other_header_witness :
  exists w',
    AppendingTiffWriter.finalize (sample_writer false mixed_order_file 24 16)
    = (Raise (RuntimeError "IIMM of new page doesn't match IIMM of first page"),
       w')
    /\ sdata (AppendingTiffWriter.f w')
       = sdata (AppendingTiffWriter.f (sample_writer false mixed_order_file 24 16)).
Proof.
  apply (finalize_rejects_other_header (sample_writer false mixed_order_file 24 16));
    [reflexivity | simpl; lia | done | done].
Defined.

(** ** The frame cursor between two calls *)

Section cursor_properties.

Variable file : gmap Z (result Z).
Variable _setup : Z -> result unit.
Variable _seek_check : TiffImageFile.t -> Z -> result bool.
Variable first : Z.

Lemma seek_tail_lands (frame : Z) (st st' : TiffImageFile.t) :
  TiffImageFile._seek_tail file _setup frame st = (Ok tt, st') ->
  TiffImageFile.tell st' = frame
  /\ TiffImageFile._frame_pos st' = TiffImageFile._frame_pos st
  /\ TiffImageFile.is_animated st' = TiffImageFile.is_animated st
  /\ exists pos, py_index (TiffImageFile._frame_pos st') frame = Ok pos.
Proof.
  unfold TiffImageFile._seek_tail.
  destruct (py_index (TiffImageFile._frame_pos st) frame) as [pos|] eqn:Hpos;
    [|done].
  unfold TiffImageFile.load_at.
  destruct (file !! pos) as [[next|e]|]; [| done |];
    (destruct (_setup pos) as [[]|]; [|done]); intros [= <-];
    cbn [TiffImageFile.tell TiffImageFile.__frame TiffImageFile._frame_pos
         TiffImageFile.is_animated];
    (split; [done|]); (split; [done|]); (split; [done|]); by exists pos.
Qed.

Lemma seek_lands (fuel : nat) (frame : Z) (st st' : TiffImageFile.t) :
  TiffImageFile._seek file _setup fuel frame st = Some (Ok tt, st') ->
  TiffImageFile.tell st' = frame
  /\ exists pos, py_index (TiffImageFile._frame_pos st') frame = Ok pos.
Proof.
  unfold TiffImageFile._seek, bindF.
  destruct (whileF _ _ _ st) as [[[[]|e] st1]|]; [|done|done].
  unfold liftF.
  destruct (TiffImageFile._seek_tail file _setup frame st1) as [r st2] eqn:Htail.
  intros [= -> ->].
  destruct (seek_tail_lands _ _ _ Htail) as (H1 & _ & _ & H2). done.
Qed.

(** X20.  What holds of the recorded frame positions after [_open] and
    after every [_seek] that returned: they are the first directories of
    the chain that starts at the first directory, each the next pointer
    stored at the one before; they are distinct and none is zero; the
    current frame designates one of them; and once the number of frames
    is known they are the whole acyclic prefix and the number is their
    count. *)
Theorem frame_positions_follow_chain (st : TiffImageFile.t) :
  TiffImageFile.reachable file _setup first st ->
  (TiffImageFile._frame_pos st
   `prefix_of` TiffImageFile.acyclic_prefix file first)
  /\ NoDup (TiffImageFile._frame_pos st)
  /\ (0 ∉ TiffImageFile._frame_pos st)
  /\ (forall i a b,
        TiffImageFile._frame_pos st !! i = Some a ->
        TiffImageFile._frame_pos st !! S i = Some b ->
        file !! a = Some (Ok b))
  /\ (exists pos,
        py_index (TiffImageFile._frame_pos st) (TiffImageFile.tell st) = Ok pos)
  /\ (forall n, TiffImageFile._n_frames st = Some n ->
        TiffImageFile._frame_pos st = TiffImageFile.acyclic_prefix file first
        /\ n = Z.of_nat (length (TiffImageFile._frame_pos st))).
Proof.
  intros Hr. destruct (reachable_ok file _setup _seek_check first st Hr) as [Hok Hcount].
  destruct (acyclic_prefix_chain file first) as (_ & Hnd & Hlink).
  assert (Hpre : TiffImageFile._frame_pos st
                 `prefix_of` TiffImageFile.acyclic_prefix file first).
  { destruct (TiffImageFile._n_frames st) as [n|] eqn:Hn.
    - destruct (ok_done _ _ _ Hok n Hn) as [_ ->]. done.
    - destruct (ok_open _ _ _ Hok Hn) as (_ & _ & k & _ & ->).
      by apply prefix_app_r. }
  split; [done|].
  split; [destruct Hpre as [rest Hrest]; rewrite Hrest in Hnd;
          by apply NoDup_app in Hnd as (? & _)|].
  split; [apply (ok_zero _ _ _ Hok)|].
  split.
  { intros i a b Ha Hb. destruct Hpre as [rest Hrest].
    apply (Hlink i a b); rewrite Hrest; by apply lookup_app_l_Some. }
  split.
  { destruct Hr as [fuel st Hopen|fuel frame st0 st _ Hseek].
    - unfold TiffImageFile._open in Hopen.
      destruct (seek_lands _ _ _ _ Hopen) as [-> ?]. done.
    - destruct (seek_lands _ _ _ _ Hseek) as [-> ?]. done. }
  intros n Hn. destruct (ok_done _ _ _ Hok n Hn) as [_ Heq].
  split; [done|]. by apply Hcount.
Qed.

(** X21.  Once the number of frames is known, [_seek] to a frame at or
    beyond it raises [EOFError] and leaves the cursor as it was. *)
Theorem seek_past_known_end (fuel : nat) (frame n : Z) (st : TiffImageFile.t) :
  TiffImageFile.reachable file _setup first st ->
  TiffImageFile._n_frames st = Some n ->
  n <= frame ->
  TiffImageFile._seek file _setup (S fuel) frame st
  = Some (Raise (EOFError "no more images in TIFF file"), st).
Proof.
  intros Hr Hn Hle. destruct (reachable_ok file _setup _seek_check first st Hr) as [Hok Hcount].
  destruct (ok_done _ _ _ Hok n Hn) as [Hnext _].
  rewrite (Hcount n Hn) in Hle.
  unfold TiffImageFile._seek, bindF. cbn [whileF].
  destruct (Z.leb_spec (Z.of_nat (length (TiffImageFile._frame_pos st))) frame);
    [|lia].
  unfold liftF at 1, TiffImageFile._seek_body at 1. by rewrite Hnext.
Qed.

Lemma seek_body_animated (frame : Z) (st st' : TiffImageFile.t) :
  TiffImageFile._seek_body file frame st = (Ok tt, st') ->
  TiffImageFile._frame_pos st <> [] ->
  TiffImageFile.is_animated st' = TiffImageFile.is_animated st
  /\ TiffImageFile._frame_pos st' <> [].
Proof.
  unfold TiffImageFile._seek_body, TiffImageFile.load_at. intros Hb Hne.
  destruct (TiffImageFile.__next st =? 0); [done|].
  destruct (2 ^ 63 <=? TiffImageFile.__next st); [done|].
  cbn [TiffImageFile._frame_pos] in Hb.
  assert (Hlen : Nat.eqb (length (TiffImageFile._frame_pos st
                                  ++ [TiffImageFile.__next st])) 1 = false).
  { rewrite length_app. simpl. destruct (TiffImageFile._frame_pos st); [done|].
    simpl. apply Nat.eqb_neq. lia. }
  destruct (file !! TiffImageFile.__next st) as [[next|e]|]; [|done|];
    injection Hb as <-;
    cbn [TiffImageFile.is_animated TiffImageFile._frame_pos];
    rewrite Hlen; (split; [done|]); by destruct (TiffImageFile._frame_pos st).
Qed.

Lemma seek_loop_animated (frame : Z) (fuel : nat) : forall st st',
  whileF fuel
    (fun st => Z.of_nat (length (TiffImageFile._frame_pos st)) <=? frame)
    (liftF (TiffImageFile._seek_body file frame)) st = Some (Ok tt, st') ->
  TiffImageFile._frame_pos st <> [] ->
  TiffImageFile.is_animated st' = TiffImageFile.is_animated st
  /\ TiffImageFile._frame_pos st' <> [].
Proof.
  induction fuel as [|fuel IH]; intros st st'; simpl;
    destruct (_ <=? frame); try done; try (by intros [= <-]).
  unfold liftF at 1.
  destruct (TiffImageFile._seek_body file frame st) as [[[]|e] st1] eqn:Hbody;
    [|done].
  intros Hloop Hne.
  destruct (seek_body_animated _ _ _ Hbody Hne) as [Ha Hne1].
  destruct (IH _ _ Hloop Hne1) as [Ha' Hne']. split; [congruence|done].
Qed.

Lemma seek_animated (fuel : nat) (frame : Z) (st st' : TiffImageFile.t) :
  TiffImageFile._seek file _setup fuel frame st = Some (Ok tt, st') ->
  TiffImageFile._frame_pos st <> [] ->
  TiffImageFile.is_animated st' = TiffImageFile.is_animated st
  /\ TiffImageFile._frame_pos st' <> [].
Proof.
  unfold TiffImageFile._seek, bindF.
  destruct (whileF _ _ _ st) as [[[[]|e] st1]|] eqn:Hloop; [|done|done].
  unfold liftF.
  destruct (TiffImageFile._seek_tail file _setup frame st1) as [r st2] eqn:Htail.
  intros [= -> ->] Hne.
  destruct (seek_loop_animated _ _ _ _ Hloop Hne) as [Ha Hne1].
  destruct (seek_tail_lands _ _ _ Htail) as (_ & Hfp & Ha2 & _).
  split; congruence.
Qed.

Lemma walk_nonempty (k : nat) (seen : list Z) (off : Z) :
  (0 < length (TiffImageFile.walk file (S k) seen off))%nat.
Proof. simpl. lia. Qed.

Lemma open_animated (fuel : nat) (st : TiffImageFile.t) :
  TiffImageFile._open file _setup fuel first = Some (Ok tt, st) ->
  TiffImageFile.is_animated st
  = Some (bool_decide
            (1 < length (TiffImageFile.acyclic_prefix file first))%nat)
  /\ TiffImageFile._frame_pos st <> [].
Proof.
  unfold TiffImageFile._open, TiffImageFile._seek, bindF.
  destruct fuel as [|fuel]; [done|]. cbn [whileF].
  change (Z.of_nat (length (TiffImageFile._frame_pos (TiffImageFile.fresh first)))
          <=? 0) with true. cbv iota.
  unfold liftF at 1.
  destruct (TiffImageFile._seek_body file 0 (TiffImageFile.fresh first))
    as [[[]|e] st1] eqn:Hbody; [|done].
  assert (H1 : TiffImageFile._frame_pos st1 = [first]
               /\ TiffImageFile.is_animated st1
                  = Some (bool_decide
                            (1 < length (TiffImageFile.acyclic_prefix file first))%nat)).
  { revert Hbody. unfold TiffImageFile._seek_body, TiffImageFile.load_at.
    cbn [TiffImageFile.fresh TiffImageFile.__next TiffImageFile._frame_pos
         TiffImageFile.tag_v2_next TiffImageFile.is_animated app].
    destruct (first =? 0); [done|]. destruct (2 ^ 63 <=? first); [done|].
    unfold TiffImageFile.acyclic_prefix. cbn [TiffImageFile.walk app].
    destruct (file !! first) as [[next|e]|] eqn:Hf; [|done|].
    - intros [= <-].
      cbn [TiffImageFile._frame_pos TiffImageFile.is_animated
           TiffImageFile.tag_v2_next length Nat.eqb].
      split; [done|]. f_equal.
      assert (Hsize : (0 < size file)%nat).
      { destruct (size file) eqn:Hs; [|lia].
        apply map_size_empty_inv in Hs.
        rewrite Hs in Hf. by rewrite lookup_empty in Hf. }
      destruct (bool_decide (next ∈ [first])) eqn:Hin.
      + rewrite orb_true_r. by rewrite Z.eqb_refl.
      + rewrite orb_false_r. destruct (Z.eqb_spec next 0); [done|].
        simpl. symmetry. apply bool_decide_eq_true_2.
        destruct (size file) as [|k]; [lia|].
        pose proof (walk_nonempty k [first] next). simpl in *. lia.
    - intros [= <-].
      cbn [TiffImageFile._frame_pos TiffImageFile.is_animated
           TiffImageFile.tag_v2_next length Nat.eqb].
      split; [done|].
      rewrite bool_decide_eq_true_2 by (apply elem_of_cons; by left). done. }
  destruct H1 as [Hfp Ha].
  rewrite whileF_done by (by rewrite Hfp).
  unfold liftF.
  destruct (TiffImageFile._seek_tail file _setup 0 st1) as [r st2] eqn:Htail.
  intros [= -> ->].
  destruct (seek_tail_lands _ _ _ Htail) as (_ & Hfp2 & Ha2 & _).
  split; [congruence|]. rewrite Hfp2, Hfp. done.
Qed.

(** X22.  After [_open], and after every [_seek] that returned,
    [is_animated] is set, and it is true exactly when the acyclic prefix
    has more than one directory, that is when [n_frames] is above 1. *)
Theorem is_animated_iff_several_frames (st : TiffImageFile.t) :
  TiffImageFile.reachable file _setup first st ->
  TiffImageFile.is_animated st
  = Some (bool_decide
            (1 < length (TiffImageFile.acyclic_prefix file first))%nat).
Proof.
  intros Hr.
  assert (TiffImageFile.is_animated st
          = Some (bool_decide
                    (1 < length (TiffImageFile.acyclic_prefix file first))%nat)
          /\ TiffImageFile._frame_pos st <> []) as [H _]; [|done].
  induction Hr as [fuel st Hopen|fuel frame st st' _ [IHa IHn] Hseek].
  - by eapply open_animated.
  - destruct (seek_animated _ _ _ _ Hseek IHn) as [Ha Hn]. split; congruence.
Qed.

End cursor_properties.

Lemma frame_positions_follow_chain_witness :
  (TiffImageFile._frame_pos cycle_counted
   `prefix_of` TiffImageFile.acyclic_prefix two_directory_cycle 8)
  /\ NoDup (TiffImageFile._frame_pos cycle_counted)
  /\ (0 ∉ TiffImageFile._frame_pos cycle_counted)
  /\ (forall i a b,
        TiffImageFile._frame_pos cycle_counted !! i = Some a ->
        TiffImageFile._frame_pos cycle_counted !! S i = Some b ->
        two_directory_cycle !! a = Some (Ok b))
  /\ (exists pos,
        py_index (TiffImageFile._frame_pos cycle_counted)
          (TiffImageFile.tell cycle_counted) = Ok pos)
  /\ (forall n, TiffImageFile._n_frames cycle_counted = Some n ->
        TiffImageFile._frame_pos cycle_counted
        = TiffImageFile.acyclic_prefix two_directory_cycle 8
        /\ n = Z.of_nat (length (TiffImageFile._frame_pos cycle_counted))).
Proof.
  apply (frame_positions_follow_chain two_directory_cycle sample_setup
           sample_seek_check 8 cycle_counted).
  apply (TiffImageFile.reachable_seek _ _ _ 1 1 cycle_opened).
  - apply (TiffImageFile.reachable_open _ _ _ 1). vm_compute. reflexivity.
  - vm_compute. reflexivity.
Defined.

Lemma seek_past_known_end_witness :
  TiffImageFile._seek two_directory_cycle sample_setup 1 5 cycle_counted
  = Some (Raise (EOFError "no more images in TIFF file"), cycle_counted).
Proof.
  apply (seek_past_known_end two_directory_cycle sample_setup sample_seek_check
           8 0 5 2 cycle_counted).
  - apply (TiffImageFile.reachable_seek _ _ _ 1 1 cycle_opened).
    + apply (TiffImageFile.reachable_open _ _ _ 1). vm_compute. reflexivity.
    + vm_compute. reflexivity.
  - reflexivity.
  - lia.
Defined.

Lemma is_animated_iff_several_frames_witness :
  TiffImageFile.is_animated cycle_opened
  = Some (bool_decide
            (1 < length (TiffImageFile.acyclic_prefix two_directory_cycle 8))%nat).
Proof.
  apply (is_animated_iff_several_frames two_directory_cycle sample_setup 8
           cycle_opened).
  apply (TiffImageFile.reachable_open _ _ _ 1). vm_compute. reflexivity.
Defined.

(** ** The count of frames

    On a file all of whose directories can be visited the probe of
    [n_frames] returns the length of the acyclic prefix.  A [_seek] beyond
    the last frame, made before the count is known, leaves another count
    behind: the assignment [self._n_frames = frame + 1] uses the frame
    that was asked for. *)

Section probe_properties.

Variable file : gmap Z (result Z).
Variable _setup : Z -> result unit.
Variable _seek_check : TiffImageFile.t -> Z -> result bool.
Variable first : Z.

Hypothesis Hvisit : visitable file _setup first.

Lemma recorded_in_prefix (st : TiffImageFile.t) (pos : Z) :
  cursor_ok file first st ->
  pos ∈ TiffImageFile._frame_pos st ->
  pos ∈ TiffImageFile.acyclic_prefix file first.
Proof.
  intros Hok Hpos.
  destruct (TiffImageFile._n_frames st) as [n|] eqn:Hn.
  - by destruct (ok_done _ _ _ Hok n Hn) as [_ ->].
  - destruct (ok_open _ _ _ Hok Hn) as (_ & _ & k & _ & ->).
    apply elem_of_app. by left.
Qed.

Lemma next_in_prefix (st : TiffImageFile.t) :
  cursor_ok file first st ->
  TiffImageFile._n_frames st = None ->
  TiffImageFile.__next st ∈ TiffImageFile.acyclic_prefix file first
  /\ (length (TiffImageFile._frame_pos st)
      < length (TiffImageFile.acyclic_prefix file first))%nat.
Proof.
  intros Hok Hn.
  destruct (ok_open _ _ _ Hok Hn) as (_ & _ & k & Hk & ->).
  destruct k as [|k]; [lia|]. rewrite walk_unfold. split.
  - apply elem_of_app. right. apply elem_of_cons. by left.
  - rewrite length_app. cbn [length]. lia.
Qed.

(** A turn of the loop of [_seek] on a cursor whose count is unknown
    records the pending directory and raises nothing. *)
Lemma seek_body_succeeds (frame : Z) (st : TiffImageFile.t) :
  cursor_ok file first st ->
  TiffImageFile._n_frames st = None ->
  exists st', TiffImageFile._seek_body file frame st = (Ok tt, st').
Proof.
  intros Hok Hn.
  destruct (next_in_prefix st Hok Hn) as [Hin _].
  destruct (Hvisit _ Hin) as (Hsmall & Hload & _).
  destruct (ok_open _ _ _ Hok Hn) as (Hnz & _).
  unfold TiffImageFile._seek_body.
  destruct (Z.eqb_spec (TiffImageFile.__next st) 0); [done|].
  destruct (Z.leb_spec (2 ^ 63) (TiffImageFile.__next st)); [lia|].
  unfold TiffImageFile.load_at. cbn [TiffImageFile.__next].
  destruct (file !! TiffImageFile.__next st) as [[nx|e]|] eqn:Hl.
  - by eexists.
  - by destruct (Hload e).
  - by eexists.
Qed.

Lemma seek_tail_succeeds (frame pos : Z) (st : TiffImageFile.t) :
  cursor_ok file first st ->
  py_index (TiffImageFile._frame_pos st) frame = Ok pos ->
  exists st', TiffImageFile._seek_tail file _setup frame st = (Ok tt, st').
Proof.
  intros Hok Hpos. unfold TiffImageFile._seek_tail. rewrite Hpos.
  pose proof (recorded_in_prefix st pos Hok (py_index_elem_of _ _ _ Hpos)) as Hin.
  destruct (Hvisit _ Hin) as (_ & Hload & Hset).
  unfold TiffImageFile.load_at.
  destruct (file !! pos) as [[nx|e]|] eqn:Hl.
  - rewrite Hset. by eexists.
  - by destruct (Hload e).
  - rewrite Hset. by eexists.
Qed.

Lemma py_index_last (l : list Z) (x : Z) :
  py_index (l ++ [x]) (Z.of_nat (length l)) = Ok x.
Proof.
  unfold py_index. cbv zeta.
  destruct (Z.ltb_spec (Z.of_nat (length l)) 0); [lia|].
  destruct (Z.ltb_spec (Z.of_nat (length l)) 0); [lia|].
  rewrite Nat2Z.id, lookup_app_r by lia. by rewrite Nat.sub_diag.
Qed.

(** [_seek] to the first frame not yet recorded returns. *)
Lemma seek_next_frame_returns (fuel : nat) (st : TiffImageFile.t) :
  cursor_ok file first st ->
  TiffImageFile._n_frames st = None ->
  (1 <= fuel)%nat ->
  exists st',
    TiffImageFile._seek file _setup fuel
      (Z.of_nat (length (TiffImageFile._frame_pos st))) st = Some (Ok tt, st')
    /\ cursor_ok file first st' /\ counted st'
    /\ TiffImageFile.__frame st' + 1
       = Z.of_nat (length (TiffImageFile._frame_pos st'))
    /\ (TiffImageFile._n_frames st' = None ->
        (TiffImageFile.unseen file (TiffImageFile._frame_pos st')
         < TiffImageFile.unseen file (TiffImageFile._frame_pos st))%nat).
Proof.
  intros Hok Hn Hfuel.
  destruct (seek_next_frame file _setup _seek_check first fuel st Hok Hn Hfuel)
    as (r & st' & Hrun & Hrest).
  assert (Hr : r = Ok tt).
  { revert Hrun. destruct fuel as [|fuel]; [lia|].
    unfold TiffImageFile._seek, bindF. cbn [whileF].
    rewrite Z.leb_refl. unfold liftF at 1.
    destruct (seek_body_succeeds (Z.of_nat (length (TiffImageFile._frame_pos st)))
                st Hok Hn) as [st1 Hbody].
    rewrite Hbody.
    destruct (seek_body_ok file _setup _seek_check first _ _ _ Hok Hbody)
      as (Hok1 & Hfp & _).
    rewrite whileF_done.
    2:{ rewrite Hfp, length_app. cbn [length]. apply Z.leb_gt. lia. }
    unfold liftF.
    destruct (seek_tail_succeeds (Z.of_nat (length (TiffImageFile._frame_pos st)))
                (TiffImageFile.__next st) st1 Hok1) as [st2 Htail].
    { rewrite Hfp. apply py_index_last. }
    rewrite Htail. by intros [= <- _]. }
  subst r. exists st'. split; [done|]. by apply Hrest.
Qed.

(** The loop of the probe returns with the count known. *)
Lemma probe_loop_returns (fuel : nat) :
  (1 <= fuel)%nat ->
  forall (wfuel m : nat) (st : TiffImageFile.t),
  cursor_ok file first st -> counted st ->
  TiffImageFile.__frame st + 1
  = Z.of_nat (length (TiffImageFile._frame_pos st)) ->
  (TiffImageFile.unseen file (TiffImageFile._frame_pos st) <= m)%nat ->
  (m + 1 <= wfuel)%nat ->
  exists st',
    whileF wfuel
      (fun st => bool_decide (TiffImageFile._n_frames st = None))
      (fun st => TiffImageFile._seek file _setup fuel
                   (TiffImageFile.tell st + 1) st) st = Some (Ok tt, st')
    /\ cursor_ok file first st' /\ counted st'
    /\ TiffImageFile._n_frames st' <> None.
Proof.
  intros Hfuel. induction wfuel as [|wfuel IH];
    intros m st Hok Hcount Hframe Hm Hw; [lia|].
  destruct (TiffImageFile._n_frames st) as [n|] eqn:Hn.
  { rewrite whileF_done by (by rewrite Hn). eexists. split; [done|].
    rewrite Hn. done. }
  cbn [whileF]. rewrite Hn. rewrite bool_decide_eq_true_2 by done.
  unfold TiffImageFile.tell. rewrite Hframe.
  destruct (seek_next_frame_returns fuel st Hok Hn Hfuel)
    as (st1 & -> & Hok1 & Hcount1 & Hframe1 & Hless).
  destruct (TiffImageFile._n_frames st1) as [n1|] eqn:Hn1.
  - rewrite whileF_done by (by rewrite Hn1). eexists. split; [done|].
    rewrite Hn1. done.
  - specialize (Hless eq_refl).
    apply (IH (m - 1)%nat); [done|done|done|lia|lia].
Qed.

Lemma py_index_prefix (l l' : list Z) (i pos : Z) :
  l `prefix_of` l' -> py_index l i = Ok pos ->
  exists pos', py_index l' i = Ok pos'
               /\ (Z.of_nat (length l') <=? i) = false.
Proof.
  intros [rest ->]. unfold py_index. cbv zeta.
  rewrite length_app, Nat2Z.inj_add.
  destruct (Z.ltb_spec i 0) as [Hneg|Hpos].
  - destruct (Z.ltb_spec (Z.of_nat (length l) + i) 0); [done|].
    destruct (l !! Z.to_nat (Z.of_nat (length l) + i)) as [x|] eqn:Hx; [|done].
    intros _. apply lookup_lt_Some in Hx.
    destruct (Z.ltb_spec (Z.of_nat (length l) + Z.of_nat (length rest) + i) 0);
      [lia|].
    destruct ((l ++ rest) !! Z.to_nat
                (Z.of_nat (length l) + Z.of_nat (length rest) + i))
      as [y|] eqn:Hy.
    + exists y. split; [done|]. apply Z.leb_gt. lia.
    + apply lookup_ge_None in Hy. rewrite length_app in Hy. lia.
  - destruct (Z.ltb_spec i 0); [lia|].
    destruct (l !! Z.to_nat i) as [x|] eqn:Hx; [|done]. intros _.
    pose proof (lookup_lt_Some _ _ _ Hx) as Hlt.
    exists x. rewrite (lookup_app_l_Some _ _ _ _ Hx). split; [done|].
    apply Z.leb_gt. lia.
Qed.

Lemma current_frame_recorded (st : TiffImageFile.t) :
  TiffImageFile.reachable file _setup first st ->
  (TiffImageFile._frame_pos st
   `prefix_of` TiffImageFile.acyclic_prefix file first)
  /\ exists pos,
       py_index (TiffImageFile._frame_pos st) (TiffImageFile.tell st) = Ok pos.
Proof.
  intros Hr.
  destruct (reachable_ok file _setup _seek_check first st Hr) as [Hok _].
  split.
  - destruct (TiffImageFile._n_frames st) as [n|] eqn:Hn.
    + by destruct (ok_done _ _ _ Hok n Hn) as [_ ->].
    + destruct (ok_open _ _ _ Hok Hn) as (_ & _ & k & _ & ->).
      by apply prefix_app_r.
  - destruct Hr as [fuel st Hopen|fuel frame st0 st _ Hseek].
    + unfold TiffImageFile._open in Hopen.
      by destruct (seek_lands _ _ _ _ _ _ Hopen) as [-> ?].
    + by destruct (seek_lands _ _ _ _ _ _ Hseek) as [-> ?].
Qed.

(** The probe of [n_frames], on the cursor of a file all of whose
    directories can be visited, returns the length of the acyclic prefix
    and leaves every directory of it recorded. *)
Lemma n_frames_counts (fuel : nat) (st : TiffImageFile.t) :
  TiffImageFile.reachable file _setup first st ->
  (forall st', exists go, _seek_check st' (TiffImageFile.tell st) = Ok go) ->
  (size file + 1 <= fuel)%nat ->
  exists st',
    TiffImageFile.n_frames file _setup _seek_check fuel st
    = Some (Ok (Z.of_nat (length (TiffImageFile.acyclic_prefix file first))),
            st')
    /\ TiffImageFile._frame_pos st' = TiffImageFile.acyclic_prefix file first
    /\ TiffImageFile._n_frames st'
       = Some (Z.of_nat (length (TiffImageFile.acyclic_prefix file first))).
Proof.
  intros Hreach Hcheck Hfuel.
  destruct (reachable_ok file _setup _seek_check first st Hreach) as [Hok Hcount].
  destruct (current_frame_recorded st Hreach) as (Hpre & Hcur).
  unfold TiffImageFile.n_frames.
  destruct (TiffImageFile._n_frames st) as [n|] eqn:Hn.
  { exists st. destruct (ok_done _ _ _ Hok n Hn) as [_ Heq].
    rewrite Heq, Hn, <- (Hcount n Hn). done. }
  unfold bindF at 1.
  destruct (seek_next_frame_returns fuel st Hok Hn ltac:(lia))
    as (st1 & -> & Hok1 & Hcount1 & Hframe1 & _).
  unfold bindF at 1.
  destruct (probe_loop_returns fuel ltac:(lia) fuel (size file) st1 Hok1 Hcount1
              Hframe1 (unseen_le_size file _setup first _) Hfuel)
    as (st2 & -> & Hok2 & Hcount2 & Hknown).
  destruct (TiffImageFile._n_frames st2) as [n2|] eqn:Hn2; [|done].
  destruct (ok_done _ _ _ Hok2 n2 Hn2) as [Hnext2 Hfp2].
  assert (n2 = Z.of_nat (length (TiffImageFile.acyclic_prefix file first)))
    as -> by (by rewrite (Hcount2 n2 Hn2), Hfp2).
  unfold bindF at 1. unfold TiffImageFile.seek, bindF at 1.
  destruct (Hcheck st2) as [go ->].
  destruct go; cbn [negb].
  - destruct Hcur as [pos Hpos].
    destruct (py_index_prefix _ (TiffImageFile._frame_pos st2) _ _
                ltac:(by rewrite <- Hfp2) Hpos) as (pos' & Hpos' & Hcond).
    destruct (seek_tail_succeeds (TiffImageFile.tell st) pos' st2 Hok2 Hpos')
      as [st3 Htail].
    destruct fuel as [|fuel']; [lia|].
    unfold TiffImageFile._seek, bindF.
    rewrite whileF_done by done.
    unfold liftF. rewrite Htail.
    destruct (seek_tail_ok _ _ _ _ _ _ _ Hok2 Htail) as (_ & Hfp3 & Hn3 & _).
    exists st3. rewrite Hn3, Hn2. cbn [from_option].
    split; [done|]. split; [by rewrite Hfp3|done].
  - exists st2. unfold retF. rewrite Hn2. cbn [from_option]. done.
Qed.

(** A [_seek] beyond the last frame, on a cursor that does not know the
    count yet: the directories left are recorded, the last one of them
    sets the count to the frame asked for plus one, and the next turn
    raises [EOFError]. *)
Lemma seek_loop_beyond_end (frame : Z) (fuel : nat) :
  forall st,
  cursor_ok file first st ->
  TiffImageFile._n_frames st = None ->
  Z.of_nat (length (TiffImageFile.acyclic_prefix file first)) <= frame ->
  (length (TiffImageFile.acyclic_prefix file first)
   - length (TiffImageFile._frame_pos st) + 1 <= fuel)%nat ->
  exists st',
    whileF fuel
      (fun st => Z.of_nat (length (TiffImageFile._frame_pos st)) <=? frame)
      (liftF (TiffImageFile._seek_body file frame)) st
    = Some (Raise (EOFError "no more images in TIFF file"), st')
    /\ TiffImageFile._n_frames st' = Some (frame + 1)
    /\ TiffImageFile._frame_pos st' = TiffImageFile.acyclic_prefix file first.
Proof.
  induction fuel as [|fuel IH]; intros st Hok Hn Hframe Hfuel; [lia|].
  destruct (next_in_prefix st Hok Hn) as [_ Hshort].
  cbn [whileF].
  destruct (Z.leb_spec (Z.of_nat (length (TiffImageFile._frame_pos st))) frame);
    [|lia].
  unfold liftF at 1.
  destruct (seek_body_succeeds frame st Hok Hn) as [st1 Hbody]. rewrite Hbody.
  destruct (seek_body_ok file _setup _seek_check first _ _ _ Hok Hbody)
    as (Hok1 & Hfp & _ & Hn1 & _).
  destruct (TiffImageFile._n_frames st1) as [n1|] eqn:Hnf1.
  - rewrite (Hn1 n1 eq_refl) in Hnf1.
    destruct (ok_done _ _ _ Hok1 _ Hnf1) as [Hnext Hall].
    assert (Hlen : length (TiffImageFile._frame_pos st1)
                   = length (TiffImageFile.acyclic_prefix file first))
      by (by rewrite Hall).
    destruct fuel as [|fuel]; [lia|].
    cbn [whileF].
    destruct (Z.leb_spec (Z.of_nat (length (TiffImageFile._frame_pos st1))) frame);
      [|lia].
    unfold liftF at 1, TiffImageFile._seek_body at 1. rewrite Hnext.
    cbn [Z.eqb]. exists st1. done.
  - apply IH; [done|done|done|].
    rewrite Hfp, length_app. cbn [length]. lia.
Qed.

Lemma seek_beyond_end_sets_requested_count
  (fuel : nat) (frame : Z) (st : TiffImageFile.t) :
  TiffImageFile.reachable file _setup first st ->
  TiffImageFile._n_frames st = None ->
  Z.of_nat (length (TiffImageFile.acyclic_prefix file first)) <= frame ->
  (length (TiffImageFile.acyclic_prefix file first) + 1 <= fuel)%nat ->
  exists st',
    TiffImageFile._seek file _setup fuel frame st
    = Some (Raise (EOFError "no more images in TIFF file"), st')
    /\ TiffImageFile._frame_pos st' = TiffImageFile.acyclic_prefix file first
    /\ forall fuel',
         TiffImageFile.n_frames file _setup _seek_check fuel' st'
         = Some (Ok (frame + 1), st').
Proof.
  intros Hreach Hn Hframe Hfuel.
  destruct (reachable_ok file _setup _seek_check first st Hreach) as [Hok _].
  destruct (seek_loop_beyond_end frame fuel st Hok Hn Hframe ltac:(lia))
    as (st' & Hloop & Hn' & Hfp').
  exists st'. unfold TiffImageFile._seek, bindF. rewrite Hloop.
  split; [done|]. split; [done|].
  intros fuel'. unfold TiffImageFile.n_frames. by rewrite Hn'.
Qed.

End probe_properties.

(** C2.  The file of two directories whose second next pointer leads
    back to the first, once opened, has an acyclic prefix of two
    directories.  [_seek(5)], and [seek(5)] alike, records the second
    directory; its next pointer is a position already recorded, so the
    pending pointer becomes 0 and the count is set, to the frame asked for
    plus one; the next turn of the loop raises [EOFError].  From then on
    [n_frames] returns 6 for the two frames of the file. *)
Theorem n_frames_after_seek_beyond_end_two_directory_cycle :
  TiffImageFile._open two_directory_cycle sample_setup 1 8
  = Some (Ok tt, cycle_opened)
  /\ TiffImageFile.acyclic_prefix two_directory_cycle 8 = [8; 100]
  /\ exists st',
       TiffImageFile._seek two_directory_cycle sample_setup 6 5 cycle_opened
       = Some (Raise (EOFError "no more images in TIFF file"), st')
       /\ TiffImageFile.seek two_directory_cycle sample_setup
            sample_seek_check 6 5 cycle_opened
          = Some (Raise (EOFError "no more images in TIFF file"), st')
       /\ TiffImageFile._frame_pos st' = [8; 100]
       /\ TiffImageFile.__next st' = 0
       /\ TiffImageFile._n_frames st' = Some 6
       /\ TiffImageFile.n_frames two_directory_cycle sample_setup
            sample_seek_check 3 st' = Some (Ok 6, st').
Proof.
  split; [vm_compute; reflexivity|]. split; [vm_compute; reflexivity|].
  eexists. split; [vm_compute; reflexivity|].
  split; [vm_compute; reflexivity|]. done.
Qed.

(** On the same file the probe, run on the cursor that [_open] leaves,
    returns 2, as it does on every file whose directories can be
    visited. *)
Lemma n_frames_counts_two_directory_cycle :
  exists st',
    TiffImageFile.n_frames two_directory_cycle sample_setup sample_seek_check
      3 cycle_opened = Some (Ok 2, st')
    /\ TiffImageFile._frame_pos st' = [8; 100]
    /\ TiffImageFile._n_frames st' = Some 2.
Proof.
  apply (n_frames_counts two_directory_cycle sample_setup sample_seek_check 8).
  - intros pos Hpos. vm_compute in Hpos.
    apply elem_of_cons in Hpos as [-> | Hpos];
      [|apply list_elem_of_singleton in Hpos as ->];
      (split; [done|]); (split; [|done]); intros e; vm_compute; discriminate.
  - apply (TiffImageFile.reachable_open _ _ _ 1). vm_compute. reflexivity.
  - intros st'. by eexists.
  - vm_compute. lia.
Qed.

(** ** Appending to a file that [save] has written *)

Section tobytes_shape.

Variable wd : Z -> option (Endian -> list pyval -> result (list byte)).
Variable ld : Z -> option (Z * (Endian -> list byte -> bool -> result pyval)).
Variable add : pyval -> Z -> result pyval.
Variable sub : Endian -> bool -> Z -> list (Z * pyval) -> Z -> result (list byte).

Lemma pack_entry_length (self : ImageFileDirectory_v2.t)
  (e : ImageFileDirectory_v2.entry) (bs : list byte) :
  ImageFileDirectory_v2.pack_entry self e = Ok bs ->
  Z.of_nat (length bs) = ImageFileDirectory_v2.entry_size self.
Proof.
  unfold ImageFileDirectory_v2.pack_entry, ImageFileDirectory_v2._pack.
  destruct (pack _ fmt_H (ImageFileDirectory_v2.e_tag e)) as [tag|] eqn:Ht;
    [|done]. cbn [rbind].
  destruct (pack _ fmt_H (ImageFileDirectory_v2.e_typ e)) as [typ|] eqn:Hy;
    [|done]. cbn [rbind].
  destruct (pack _ _ (ImageFileDirectory_v2.e_count e)) as [cnt|] eqn:Hc;
    [|done]. cbn [rbind].
  intros [= <-]. rewrite !length_app, length_take.
  unfold ImageFileDirectory_v2.ljust. rewrite length_app, length_replicate.
  rewrite (pack_length _ _ _ _ Ht), (pack_length _ _ _ _ Hy),
    (pack_length _ _ _ _ Hc).
  unfold ImageFileDirectory_v2.entry_size, ImageFileDirectory_v2.fmt,
    ImageFileDirectory_v2.fmt_size.
  destruct (ImageFileDirectory_v2._bigtiff self); cbn [calcsize]; lia.
Qed.

Lemma mapM_pack_entry_length (self : ImageFileDirectory_v2.t)
  (es : list ImageFileDirectory_v2.entry) : forall table,
  mapM (ImageFileDirectory_v2.pack_entry self) es = Ok table ->
  Z.of_nat (length (concat table))
  = Z.of_nat (length es) * ImageFileDirectory_v2.entry_size self.
Proof.
  induction es as [|e es IH]; intros table; simpl.
  - intros [= <-]. simpl. lia.
  - destruct (ImageFileDirectory_v2.pack_entry self e) as [bs|] eqn:He; [|done].
    cbn [rbind]. destruct (mapM _ es) as [rest|]; [|done]. cbn [rbind].
    intros [= <-]. simpl. rewrite length_app, Nat2Z.inj_add, (IH rest eq_refl).
    rewrite (pack_entry_length _ _ _ He). lia.
Qed.

(** The parts of a serialised directory. *)
Lemma tobytes_shape (self : ImageFileDirectory_v2.t) (offset : Z)
  (body : list byte) :
  ImageFileDirectory_v2.tobytes wd ld add sub self offset = Ok body ->
  exists count table end_ es,
    body = count ++ concat table ++ end_
           ++ concat (map ImageFileDirectory_v2.aux_block es)
    /\ ImageFileDirectory_v2._pack self
         (if ImageFileDirectory_v2._bigtiff self then fmt_Q else fmt_H)
         (Z.of_nat (length (ImageFileDirectory_v2._tags_v2 self))) = Ok count
    /\ ImageFileDirectory_v2.tobytes_entries wd ld add sub self offset = Ok es
    /\ mapM (ImageFileDirectory_v2.pack_entry self) es = Ok table
    /\ length es = length (ImageFileDirectory_v2._tags_v2 self)
    /\ Z.of_nat (length (concat table))
       = Z.of_nat (length (ImageFileDirectory_v2._tags_v2 self))
         * ImageFileDirectory_v2.entry_size self
    /\ ImageFileDirectory_v2._pack self (ImageFileDirectory_v2.fmt self) 0
       = Ok end_.
Proof.
  unfold ImageFileDirectory_v2.tobytes.
  destruct (ImageFileDirectory_v2._pack self _ _) as [count|] eqn:Hc; [|done].
  cbn [rbind].
  destruct (ImageFileDirectory_v2.tobytes_entries _ _ _ _ _ _) as [es|] eqn:He;
    [|done]. cbn [rbind].
  destruct (mapM _ es) as [table|] eqn:Ht; [|done]. cbn [rbind].
  destruct (ImageFileDirectory_v2._pack self _ 0) as [end_|] eqn:Hend; [|done].
  cbn [rbind]. intros [= <-].
  assert (Hlen : length es = length (ImageFileDirectory_v2._tags_v2 self)).
  { pose proof (tobytes_entries_tags _ _ _ _ _ _ _ He) as Htags.
    apply (f_equal length) in Htags. rewrite !length_map in Htags.
    rewrite Htags. apply Permutation_length, sorted_items_perm. }
  exists count, table, end_, es. repeat (split; [done|]).
  split; [|done]. rewrite (mapM_pack_entry_length _ _ _ Ht). by rewrite Hlen.
Qed.

End tobytes_shape.

(** ** The bytes of a serialised directory *)

Section tobytes_bytes.

Variable wd : Z -> option (Endian -> list pyval -> result (list byte)).
Variable ld : Z -> option (Z * (Endian -> list byte -> bool -> result pyval)).
Variable add : pyval -> Z -> result pyval.
Variable sub : Endian -> bool -> Z -> list (Z * pyval) -> Z -> result (list byte).

Import ImageFileDirectory_v2.

Lemma aux_start_eq (self : t) (offset : Z) (count_bytes : list byte) :
  _pack self (if _bigtiff self then fmt_Q else fmt_H)
    (Z.of_nat (length (_tags_v2 self))) = Ok count_bytes ->
  offset + Z.of_nat (length count_bytes)
  + Z.of_nat (length (_tags_v2 self)) * entry_size self
  + Z.of_nat (fmt_size self)
  = aux_start self offset.
Proof.
  intros Hc. apply pack_length in Hc. rewrite Hc.
  unfold aux_start, count_width, entry_width, entry_size.
  destruct (_bigtiff self); cbn [calcsize]; lia.
Qed.

(** The entries of [tobytes], one by one: what pass 1 made of each tag
    and what the update of the strip offsets made of that. *)
Lemma tobytes_entries_spec (self : t) (offset : Z) (es : list entry) :
  tobytes_entries wd ld add sub self offset = Ok es ->
  exists st,
    pass1 wd sub self (aux_start self offset) = Ok st
    /\ patch_stripoffsets wd ld add self st = Ok es
    /\ length (entries st) = length (_tags_v2 self)
    /\ length es = length (_tags_v2 self)
    /\ ImageFileDirectory_v2.offset st = aux_start self offset + aux_length (entries st)
    /\ forall i item,
         sorted_items (_tags_v2 self) !! i = Some item ->
         exists e0 e typ count payload,
           let off :=
             aux_start self offset + aux_length (take i (entries st)) in
           entries st !! i = Some e0
           /\ es !! i = Some e
           /\ encode_tag wd sub self (fst item) (snd item) off
              = Ok (typ, count, payload)
           /\ laid_out self (fst item) typ count payload off e0
           /\ (fst item <> STRIPOFFSETS -> e = e0)
           /\ (stripoffsets st <> Some i -> e = e0)
           /\ (stripoffsets st = Some i ->
               fst item = STRIPOFFSETS
               /\ strip_patched wd ld add self (ImageFileDirectory_v2.offset st) e0 e).
Proof.
  unfold tobytes_entries.
  destruct (_pack _ _ _) as [count_bytes|] eqn:Hc; [|done]. cbn [rbind].
  rewrite (aux_start_eq self offset count_bytes Hc).
  destruct (pass1 _ _ _ _) as [st|] eqn:Hpass; [|done]. cbn [rbind].
  intros Hpatch. exists st. split; [done|]. split; [done|].
  destruct (pass1_fold _ _ _ _ _ _ Hpass) as (new & Hent & Htags & Hoff & Hat & Hso).
  cbn [entries ImageFileDirectory_v2.offset app] in Hent, Hoff.
  subst new.
  assert (Hlen0 : length (entries st) = length (_tags_v2 self)).
  { apply (f_equal length) in Htags. rewrite !length_map in Htags.
    rewrite Htags. apply Permutation_length, sorted_items_perm. }
  split; [done|]. split.
  { pose proof (patch_stripoffsets_tags _ _ _ _ _ _ Hpatch) as Hpt.
    apply (f_equal length) in Hpt. rewrite !length_map in Hpt. lia. }
  split; [done|].
  intros i item Hitem.
  destruct (Hat i item Hitem) as (e0 & typ & count & payload & He0 & Henc & Hlaid).
  destruct (patch_stripoffsets_spec _ _ _ _ _ _ Hpatch i e0 He0)
    as (e & He & _ & Hother & Hstrip).
  assert (H273 : stripoffsets st = Some i -> fst item = STRIPOFFSETS).
  { intros Hi. destruct (Hso i Hi) as [?|(i' & it & Hii & Hit & Hk)]; [done|].
    simpl in Hii. subst i'. congruence. }
  exists e0, e, typ, count, payload. cbv zeta.
  split; [done|]. split; [done|]. split; [done|]. split; [done|].
  split; [|split; [done|]].
  - intros Hne. apply Hother. intros Hi. by apply Hne, H273.
  - intros Hi. split; [by apply H273|]. by apply Hstrip.
Qed.

(** The slot of every entry has the width of the slot. *)
Lemma tobytes_entries_slot (self : t) (offset : Z) (es : list entry) :
  tobytes_entries wd ld add sub self offset = Ok es ->
  forall e, e ∈ es -> length (e_value e) = fmt_size self.
Proof.
  intros Hes e He.
  destruct (tobytes_entries_spec self offset es Hes)
    as (st & _ & _ & Hlen0 & Hlen & _ & Hat).
  apply list_elem_of_lookup in He as [i Hi].
  assert (Hitem : is_Some (sorted_items (_tags_v2 self) !! i)).
  { apply lookup_lt_is_Some. rewrite (Permutation_length (sorted_items_perm _)).
    rewrite <- Hlen. by eapply lookup_lt_Some. }
  destruct Hitem as [item Hitem].
  destruct (Hat i item Hitem)
    as (e0 & e' & typ & count & payload & He0 & He' & _ & Hlaid & _ & Hsame & Hstrip).
  cbv zeta in *. rewrite Hi in He'. injection He' as <-.
  assert (Hslot0 : length (e_value e0) = fmt_size self).
  { destruct Hlaid as (_ & _ & _ & Hfit).
    destruct (length payload <=? fmt_size self)%nat eqn:Hle.
    - destruct Hfit as [-> _]. apply Nat.leb_le in Hle.
      rewrite length_app, length_replicate. lia.
    - destruct Hfit as [Hp _]. apply pack_length in Hp. rewrite Hp.
      unfold fmt, fmt_size. by destruct (_bigtiff self). }
  destruct (decide (stripoffsets st = Some i)) as [Hs|Hs].
  - destruct (Hstrip Hs) as (_ & Hin & Haux).
    destruct (e_data e0) as [|b bs] eqn:Hd.
    + destruct (Hin eq_refl) as (_ & v & _ & Hp). apply pack_length in Hp.
      rewrite Hp. unfold fmt, fmt_size. by destruct (_bigtiff self).
    + destruct (Haux ltac:(done)) as [-> _]. done.
  - by rewrite (Hsame Hs).
Qed.

Lemma slice_at (A b C : list byte) (n : nat) :
  length A = n -> slice n (length b) (A ++ b ++ C) = b.
Proof.
  intros <-. unfold slice. rewrite drop_app_length. apply take_app_length.
Qed.

Lemma mapM_lookup {A B} (g : A -> result B) (l : list A) : forall l',
  mapM g l = Ok l' ->
  length l' = length l
  /\ forall i x, l !! i = Some x -> exists y, l' !! i = Some y /\ g x = Ok y.
Proof.
  induction l as [|a l IH]; intros l'; cbn [mapM].
  - intros [= <-]. split; [done|]. intros i x Hx. done.
  - destruct (g a) as [y|] eqn:Hy; [|done]. cbn [rbind].
    destruct (mapM g l) as [ys|]; [|done]. cbn [rbind]. intros [= <-].
    destruct (IH ys eq_refl) as [Hl Hat]. split; [cbn [length]; lia|].
    intros [|i] x Hx; cbn in Hx.
    + injection Hx as <-. by exists y.
    + apply (Hat i x Hx).
Qed.

Lemma concat_split_row (rows : list (list byte)) (i : nat) (row : list byte)
  (w : nat) :
  Forall (fun r => length r = w) rows ->
  rows !! i = Some row ->
  concat rows = concat (take i rows) ++ row ++ concat (drop (S i) rows)
  /\ length (concat (take i rows)) = (i * w)%nat.
Proof.
  intros Hw Hi. split.
  - rewrite <- (take_drop_middle rows i row Hi) at 1.
    by rewrite concat_app, concat_cons.
  - assert (Hlt := lookup_lt_Some _ _ _ Hi).
    clear Hi. revert rows Hw Hlt.
    induction i as [|i IH]; intros rows Hw Hlt; [by rewrite take_0|].
    destruct rows as [|r rows]; [cbn in Hlt; lia|].
    apply Forall_cons in Hw as [Hr Hw]. cbn [take concat length] in *.
    rewrite length_app, Hr, (IH rows Hw) by lia. lia.
Qed.

Lemma pack_zero (e : Endian) (c : Fmt) (bs : list byte) :
  pack e c 0 = Ok bs -> bs = replicate (calcsize c) x00.
Proof. destruct e, c; vm_compute; by intros [= <-]. Qed.

(** The bytes of a serialised directory, as a reader takes them apart. *)
Lemma tobytes_bytes (self : t) (offset : Z) (out : list byte) :
  tobytes wd ld add sub self offset = Ok out ->
  let n := length (_tags_v2 self) in
  exists es,
    tobytes_entries wd ld add sub self offset = Ok es
    /\ length es = n
    /\ _unpack self (if _bigtiff self then fmt_Q else fmt_H)
         (take (count_width self) out) = Ok (Z.of_nat n)
    /\ (forall i e, es !! i = Some e ->
          entry_at self out (count_width self + i * entry_width self)
          = Ok (e_tag e, e_typ e, e_count e, e_value e))
    /\ slice (count_width self + n * entry_width self) (fmt_size self) out
       = replicate (fmt_size self) x00
    /\ drop (count_width self + n * entry_width self + fmt_size self) out
       = concat (map (fun e => padded (e_data e)) es).
Proof.
  intros Hout n.
  destruct (tobytes_shape _ _ _ _ _ _ _ Hout)
    as (cb & table & end_ & es & -> & Hcb & Hes & Htable & Hlen & Htl & Hend).
  exists es. split; [done|]. split; [done|].
  pose proof (pack_length _ _ _ _ Hcb) as Hlcb.
  assert (Hcw : length cb = count_width self).
  { rewrite Hlcb. unfold count_width. by destruct (_bigtiff self). }
  pose proof (pack_zero _ _ _ Hend) as Hzero.
  assert (Hfs : calcsize (fmt self) = fmt_size self)
    by (unfold fmt, fmt_size; by destruct (_bigtiff self)).
  rewrite Hfs in Hzero.
  destruct (mapM_lookup _ _ _ Htable) as [Htlen Hrows].
  assert (Hw : Forall (fun r => length r = entry_width self) table).
  { apply Forall_forall. intros r Hr.
    apply list_elem_of_lookup in Hr as [i Hi].
    assert (is_Some (es !! i)) as [e He].
    { apply lookup_lt_is_Some. rewrite <- Htlen. by eapply lookup_lt_Some. }
    destruct (Hrows i e He) as (r' & Hr' & Hp). rewrite Hi in Hr'.
    injection Hr' as <-. apply pack_entry_length in Hp.
    unfold entry_size, entry_width in *. destruct (_bigtiff self); lia. }
  assert (Hct : length (concat table) = (n * entry_width self)%nat).
  { unfold entry_size, entry_width in *. unfold n.
    destruct (_bigtiff self); lia. }
  split.
  { rewrite <- Hcw, take_app_length. by apply unpack_pack. }
  split.
  { intros i e He.
    destruct (Hrows i e He) as (row & Hrow & Hp).
    destruct (concat_split_row table i row (entry_width self) Hw Hrow)
      as [Hsplit Hpre].
    pose proof (tobytes_entries_slot self offset es Hes e
                  ltac:(by eapply list_elem_of_lookup_2)) as Hslot.
    revert Hp. unfold pack_entry.
    destruct (_pack self fmt_H (e_tag e)) as [tagb|] eqn:Ht; [|done].
    cbn [rbind].
    destruct (_pack self fmt_H (e_typ e)) as [typb|] eqn:Hy; [|done].
    cbn [rbind].
    destruct (_pack self (fmt self) (e_count e)) as [cntb|] eqn:Hn; [|done].
    cbn [rbind]. intros [= <-].
    assert (Hval : take (fmt_size self) (ljust (fmt_size self) (e_value e))
                   = e_value e).
    { unfold ljust. rewrite Hslot, Nat.sub_diag. cbn [replicate].
      rewrite app_nil_r, <- Hslot. apply firstn_all. }
    rewrite Hval in Hsplit.
    pose proof (pack_length _ _ _ _ Ht) as Hlt.
    pose proof (pack_length _ _ _ _ Hy) as Hly.
    pose proof (pack_length _ _ _ _ Hn) as Hln.
    cbn [calcsize] in Hlt, Hly. rewrite Hfs in Hln.
    rewrite Hsplit. unfold entry_at. cbv zeta.
    set (rest := concat (drop (S i) table) ++ end_
                 ++ concat (map aux_block es)).
    set (A := cb ++ concat (take i table)).
    assert (HA : length A = (count_width self + i * entry_width self)%nat)
      by (unfold A; rewrite length_app; lia).
    replace (cb ++ (concat (take i table)
                    ++ (tagb ++ typb ++ cntb ++ e_value e)
                    ++ concat (drop (S i) table))
             ++ end_ ++ concat (map aux_block es))
      with (A ++ tagb ++ typb ++ cntb ++ e_value e ++ rest)
      by (unfold A, rest; by rewrite <- !(assoc_L (++))).
    unfold _unpack, _pack in *.
    assert (S1 : slice (count_width self + i * entry_width self) 2
                   (A ++ tagb ++ typb ++ cntb ++ e_value e ++ rest) = tagb).
    { rewrite <- Hlt. by apply slice_at. }
    assert (S2 : slice (count_width self + i * entry_width self + 2) 2
                   (A ++ tagb ++ typb ++ cntb ++ e_value e ++ rest) = typb).
    { rewrite <- Hly.
      replace (A ++ tagb ++ typb ++ cntb ++ e_value e ++ rest)
        with ((A ++ tagb) ++ typb ++ cntb ++ e_value e ++ rest)
        by (by rewrite <- !(assoc_L (++))).
      apply slice_at. rewrite length_app. lia. }
    assert (S3 : slice (count_width self + i * entry_width self + 4)
                   (fmt_size self)
                   (A ++ tagb ++ typb ++ cntb ++ e_value e ++ rest) = cntb).
    { rewrite <- Hln.
      replace (A ++ tagb ++ typb ++ cntb ++ e_value e ++ rest)
        with ((A ++ tagb ++ typb) ++ cntb ++ e_value e ++ rest)
        by (by rewrite <- !(assoc_L (++))).
      apply slice_at. rewrite !length_app. lia. }
    assert (S4 : slice (count_width self + i * entry_width self + 4
                        + fmt_size self) (fmt_size self)
                   (A ++ tagb ++ typb ++ cntb ++ e_value e ++ rest)
                 = e_value e).
    { rewrite <- Hslot at 2.
      replace (A ++ tagb ++ typb ++ cntb ++ e_value e ++ rest)
        with ((A ++ tagb ++ typb ++ cntb) ++ e_value e ++ rest)
        by (by rewrite <- !(assoc_L (++))).
      apply slice_at. rewrite !length_app. lia. }
    rewrite S1, S2, S3, S4.
    rewrite (unpack_pack _ _ _ _ Ht), (unpack_pack _ _ _ _ Hy),
      (unpack_pack _ _ _ _ Hn). done. }
  split.
  { replace (cb ++ concat table ++ end_ ++ concat (map aux_block es))
      with ((cb ++ concat table) ++ end_ ++ concat (map aux_block es))
      by (by rewrite <- !(assoc_L (++))).
    assert (Hle : length end_ = fmt_size self)
      by (by rewrite Hzero, length_replicate).
    rewrite <- Hle at 1. rewrite slice_at by (rewrite length_app; lia).
    done. }
  replace (cb ++ concat table ++ end_ ++ concat (map aux_block es))
    with ((cb ++ concat table ++ end_) ++ concat (map aux_block es))
    by (by rewrite <- !(assoc_L (++))).
  rewrite drop_app_length'.
  2:{ rewrite !length_app, Hzero, length_replicate. lia. }
  done.
Qed.




(** C4.  The entries that [tobytes] writes are those of the tags in
    strictly ascending order of the tag id, and the bytes say so: the
    output starts with the number of tags; the entry that a reader finds
    at place [i] of the table carries the [i]-th smallest tag; the table
    is followed by the slot for the next directory, which is zero, and
    then by the auxiliary data of the entries, in the order of the table,
    each block being what pass 1 kept of the payload of its tag (for
    StripOffsets, what the update of the strip offsets made of it).  A tag
    set gives the same bytes in whatever order its tags were inserted. *)
Theorem tobytes_ascending_and_order_independent
  (self : t) (offset : Z) (out : list byte) :
  NoDup (dict_keys (_tags_v2 self)) ->
  tobytes wd ld add sub self offset = Ok out ->
  let n := length (_tags_v2 self) in
  let tags := map fst (sorted_items (_tags_v2 self)) in
  exists es,
    tobytes_entries wd ld add sub self offset = Ok es
    /\ StronglySorted Z.lt tags
    /\ tags ≡ₚ dict_keys (_tags_v2 self)
    /\ map e_tag es = tags
    /\ _unpack self (if _bigtiff self then fmt_Q else fmt_H)
         (take (count_width self) out) = Ok (Z.of_nat n)
    /\ (forall i tag, tags !! i = Some tag ->
        exists typ count value,
          entry_at self out (count_width self + i * entry_width self)
          = Ok (tag, typ, count, value))
    /\ slice (count_width self + n * entry_width self) (fmt_size self) out
       = replicate (fmt_size self) x00
    /\ drop (count_width self + n * entry_width self + fmt_size self) out
       = concat (map (fun e => padded (e_data e)) es)
    /\ (forall i item,
          sorted_items (_tags_v2 self) !! i = Some item ->
          fst item <> STRIPOFFSETS ->
          exists e off typ count payload,
            es !! i = Some e
            /\ e_tag e = fst item
            /\ encode_tag wd sub self (fst item) (snd item) off
               = Ok (typ, count, payload)
            /\ e_data e
               = if (length payload <=? fmt_size self)%nat then []
                 else payload)
    /\ forall tags',
         tags' ≡ₚ _tags_v2 self ->
         tobytes wd ld add sub (with_tags_v2 tags' self) offset = Ok out.
Proof.
  intros Hnd Hout n tags.
  destruct (tobytes_bytes self offset out Hout)
    as (es & Hes & Hlen & Hcount & Hrows & Hzero & Hdrop).
  exists es. split; [done|].
  pose proof (tobytes_entries_tags _ _ _ _ _ _ _ Hes) as Htags.
  split; [by apply sorted_items_strict|].
  split; [unfold tags, dict_keys; by rewrite sorted_items_perm|].
  split; [done|]. split; [done|]. split.
  { intros i tag Htag. unfold tags in Htag. rewrite <- Htags in Htag.
    rewrite list_lookup_fmap in Htag.
    destruct (es !! i) as [e|] eqn:He; [|done]. injection Htag as <-.
    exists (e_typ e), (e_count e), (e_value e). by apply Hrows. }
  split; [done|]. split; [done|]. split.
  { intros i item Hitem Hne.
    destruct (tobytes_entries_spec self offset es Hes)
      as (st & _ & _ & _ & _ & _ & Hat).
    destruct (Hat i item Hitem)
      as (e0 & e & typ & count & payload & _ & He & Henc & Hlaid & Hsame & _).
    cbv zeta in *. rewrite (Hsame Hne) in He.
    exists e0, (aux_start self offset + aux_length (take i (entries st))),
      typ, count, payload.
    destruct Hlaid as (Htag & _ & _ & Hfit).
    split; [done|]. split; [done|]. split; [done|].
    destruct (length payload <=? fmt_size self)%nat; by destruct Hfit. }
  intros tags' Hperm. by rewrite tobytes_with_tags_v2.
Qed.


End tobytes_bytes.

Lemma tobytes_ascending_and_order_independent_witness :
  exists es,
    ImageFileDirectory_v2.tobytes_entries
      ImageFileDirectory_v2.integer_write_dispatch
      ImageFileDirectory_v2.integer_load_dispatch
      ImageFileDirectory_v2.integer_add ImageFileDirectory_v2.no_sub_ifd
      two_tag_directory 8 = Ok es
    /\ map ImageFileDirectory_v2.e_tag es = [256; 300]
    /\ exists typ count value,
         entry_at two_tag_directory
           [ x02; x00;
             x00; x01; x03; x00; x01; x00; x00; x00; x07; x00; x00; x00;
             x2c; x01; x03; x00; x03; x00; x00; x00; x26; x00; x00; x00;
             x00; x00; x00; x00;
             x01; x00; x02; x00; x03; x00 ] (2 + 1 * 12)
         = Ok (300, typ, count, value).
Proof.
  edestruct (tobytes_ascending_and_order_independent
               ImageFileDirectory_v2.integer_write_dispatch
               ImageFileDirectory_v2.integer_load_dispatch
               ImageFileDirectory_v2.integer_add
               ImageFileDirectory_v2.no_sub_ifd two_tag_directory 8)
    as (es & Hes & _ & _ & Htags & _ & Hrows & _).
  - simpl. apply NoDup_cons. split; [|apply NoDup_singleton].
    intros Hin. apply list_elem_of_singleton in Hin. discriminate.
  - vm_compute. reflexivity.
  - exists es. split; [exact Hes|]. split; [exact Htags|].
    exact (Hrows 1%nat 300 eq_refl).
Defined.


Section appending.

Import AppendingTiffWriter.

Lemma f_seek_at (w : t) (D : list byte) (p p' : Z) :
  0 <= p' -> f_seek p' (at_position D p w) = (Ok tt, at_position D p' w).
Proof.
  intros Hp. unfold f_seek, at_position, stream_seek. simpl.
  destruct (Z.ltb_spec p' 0); [lia|done].
Qed.

Lemma skipIFDs_one_page (e : Endian) (w0 : t) (k : nat)
  (H P cb table end_ aux : list byte) (n : Z) :
  endian w0 = Some e ->
  pack e (if _bigtiff w0 then fmt_Q else fmt_L) (Z.of_nat (length (H ++ P)))
  = Ok P ->
  pack e (if _bigtiff w0 then fmt_Q else fmt_H) n = Ok cb ->
  Z.of_nat (length table) = n * (if _bigtiff w0 then 20 else 12) ->
  pack e (if _bigtiff w0 then fmt_Q else fmt_L) 0 = Ok end_ ->
  skipIFDs (S (S k))
    (at_position (H ++ P ++ cb ++ table ++ end_ ++ aux) (Z.of_nat (length H)) w0)
  = Some (Ok tt,
          with_slot (Z.of_nat (length (H ++ P ++ cb ++ table)))
            (at_position (H ++ P ++ cb ++ table ++ end_ ++ aux)
               (Z.of_nat (length (H ++ P ++ cb ++ table ++ end_))) w0)).
Proof.
  intros He HP Hcb Htable Hend.
  pose proof (pack_length _ _ _ _ HP) as HlP.
  pose proof (pack_length _ _ _ _ Hcb) as Hlcb.
  pose proof (pack_length _ _ _ _ Hend) as Hlend.
  set (D := H ++ P ++ cb ++ table ++ end_ ++ aux).
  assert (E1 : D = (H ++ P) ++ cb ++ (table ++ end_ ++ aux))
    by (unfold D; by rewrite <- !(assoc_L (++))).
  assert (E2 : D = (H ++ P ++ cb ++ table) ++ end_ ++ aux)
    by (unfold D; by rewrite <- !(assoc_L (++))).
  assert (E0 : D = H ++ P ++ (cb ++ table ++ end_ ++ aux)) by done.
  clearbody D.
  assert (Hnz : Z.of_nat (length (H ++ P)) <> 0).
  { rewrite length_app, HlP. destruct (_bigtiff w0); simpl; lia. }
  (* first turn *)
  assert (Hbody1 : skipIFDs_body (at_position D (Z.of_nat (length H)) w0)
                   = (Ok false,
                      at_position D (Z.of_nat (length (H ++ P ++ cb ++ table))) w0)).
  { unfold skipIFDs_body. unfold gets at 1, bind at 1.
    cbn [at_position with_f _bigtiff].
    change (with_f {| sdata := D; spos := Z.of_nat (length H) |} w0)
      with (at_position D (Z.of_nat (length H)) w0).
    erewrite bind_ok.
    2: { rewrite E0. apply (read_at e (if _bigtiff w0 then fmt_Q else fmt_L));
           [done|by destruct (_bigtiff w0)|
            rewrite HlP; by destruct (_bigtiff w0)|by apply unpack_pack]. }
    rewrite <- E0.
    destruct (Z.eqb_spec (Z.of_nat (length (H ++ P))) 0) as [|_]; [done|].
    erewrite bind_ok by (apply f_seek_at; lia).
    erewrite bind_ok.
    2: { rewrite E1. apply (read_at e (if _bigtiff w0 then fmt_Q else fmt_H));
           [done|by destruct (_bigtiff w0)|
            rewrite Hlcb; by destruct (_bigtiff w0)|by apply unpack_pack]. }
    rewrite <- E1.
    erewrite bind_ok.
    2: { apply f_seek_cur_at. rewrite <- Htable. destruct (_bigtiff w0); lia. }
    unfold ret. do 2 f_equal.
    rewrite !length_app, !Nat2Z.inj_add, <- Htable, Hlcb.
    destruct (_bigtiff w0); simpl; lia. }
  (* second turn *)
  assert (Hbody2 :
    skipIFDs_body (at_position D (Z.of_nat (length (H ++ P ++ cb ++ table))) w0)
    = (Ok true,
       with_slot (Z.of_nat (length (H ++ P ++ cb ++ table)))
         (at_position D (Z.of_nat (length (H ++ P ++ cb ++ table ++ end_))) w0))).
  { unfold skipIFDs_body. unfold gets at 1, bind at 1.
    cbn [at_position with_f _bigtiff].
    change (with_f {| sdata := D;
                      spos := Z.of_nat (length (H ++ P ++ cb ++ table)) |} w0)
      with (at_position D (Z.of_nat (length (H ++ P ++ cb ++ table))) w0).
    erewrite bind_ok.
    2: { rewrite E2. apply (read_at e (if _bigtiff w0 then fmt_Q else fmt_L));
           [done|by destruct (_bigtiff w0)|
            rewrite Hlend; by destruct (_bigtiff w0)|by apply unpack_pack]. }
    rewrite <- E2.
    cbn [Z.eqb]. unfold f_tell, gets, bind at 1.
    cbn [at_position with_f f stream_tell spos].
    unfold bind, ret, with_slot, set_whereToWriteNewIFDOffset. cbn [snd].
    f_equal. cbn [at_position with_f f beginning offsetOfNewPage IIMM _bigtiff
                  isFirst endian whereToWriteNewIFDOffset].
    f_equal.
    - f_equal. rewrite !length_app, !Nat2Z.inj_add, Hlend.
      destruct (_bigtiff w0); simpl; lia.
    - f_equal. lia. }
  cbn [skipIFDs]. rewrite Hbody1. cbn [skipIFDs]. by rewrite Hbody2.
Qed.

Section setup_after_save.

Variable wd : Z -> option (Endian -> list pyval -> result (list byte)).
Variable ld : Z -> option (Z * (Endian -> list byte -> bool -> result pyval)).
Variable add : pyval -> Z -> result pyval.
Variable sub : Endian -> bool -> Z -> list (Z * pyval) -> Z -> result (list byte).

(** X23.  A file that holds one page as [save] writes it on an empty
    file, opened for appending: [setup] returns within two turns of
    [skipIFDs], takes byte order and kind from the header, records as the
    place for the offset of the next directory the field behind the
    entries of that page, pads the file with fewer than 16 NUL bytes and
    sets [offsetOfNewPage] to its new end, a multiple of 16. *)
Theorem setup_finds_slot_of_saved_page (self : ImageFileDirectory_v2.t)
  (w : t) (fuel : nat) (ifh body : list byte) :
  ImageFileDirectory_v2._get_ifh self = Ok ifh ->
  ImageFileDirectory_v2.tobytes wd ld add sub self (Z.of_nat (length ifh))
  = Ok body ->
  sdata (f w) = ifh ++ body ->
  beginning w = 0 ->
  (2 <= fuel)%nat ->
  exists (pad : nat) (w' : t),
    setup fuel w = Some (Ok tt, w')
    /\ isFirst w' = false
    /\ endian w' = Some (ImageFileDirectory_v2._endian self)
    /\ _bigtiff w' = ImageFileDirectory_v2._bigtiff self
    /\ IIMM w' = take 4 ifh
    /\ whereToWriteNewIFDOffset w'
       = Some (Z.of_nat (length ifh)
               + (if ImageFileDirectory_v2._bigtiff self then 8 else 2)
               + Z.of_nat (length (ImageFileDirectory_v2._tags_v2 self))
                 * ImageFileDirectory_v2.entry_size self)
    /\ (pad < 16)%nat
    /\ sdata (f w') = ifh ++ body ++ replicate pad x00
    /\ offsetOfNewPage w' = Z.of_nat (length (sdata (f w')))
    /\ offsetOfNewPage w' mod 16 = 0.
Proof.
  intros Hifh Hbody Hdata Hbeg Hfuel.
  destruct fuel as [|[|k]]; [lia|lia|].
  destruct (tobytes_shape _ _ _ _ _ _ _ Hbody)
    as (cb & table & end_ & es & -> & Hcb & _ & _ & _ & Htable & Hend).
  destruct w as [[d p] b wh pg ii bg fi en]. cbn [f sdata beginning] in *.
  subst d b.
  destruct self as [e big gr tyy t1 t2 td la].
  unfold ImageFileDirectory_v2._get_ifh, ImageFileDirectory_v2._pack,
    ImageFileDirectory_v2._prefix, ImageFileDirectory_v2.entry_size,
    ImageFileDirectory_v2.fmt in *.
  cbn [ImageFileDirectory_v2._endian ImageFileDirectory_v2._bigtiff
       ImageFileDirectory_v2._tags_v2] in *.
  set (n := Z.of_nat (length t2)) in *.
  set (aux := concat (map ImageFileDirectory_v2.aux_block es)) in *.
  assert (Hstep : forall (H P : list byte) (iimm : list byte),
    ifh = H ++ P ->
    pack e (if big then fmt_Q else fmt_L) (Z.of_nat (length (H ++ P))) = Ok P ->
    exists pad w',
      bindF (skipIFDs (S (S k))) (fun _ => liftF goToEnd)
        (at_position (ifh ++ cb ++ concat table ++ end_ ++ aux)
           (Z.of_nat (length H))
           {| f := {| sdata := []; spos := 0 |}; beginning := 0;
              whereToWriteNewIFDOffset := None; offsetOfNewPage := 0;
              IIMM := iimm; _bigtiff := big; isFirst := false;
              endian := Some e |})
      = Some (Ok tt, w')
      /\ isFirst w' = false /\ endian w' = Some e /\ _bigtiff w' = big
      /\ IIMM w' = iimm
      /\ whereToWriteNewIFDOffset w'
         = Some (Z.of_nat (length ifh) + (if big then 8 else 2)
                 + n * (if big then 20 else 12))
      /\ (pad < 16)%nat
      /\ sdata (f w')
         = ifh ++ (cb ++ concat table ++ end_ ++ aux) ++ replicate pad x00
      /\ offsetOfNewPage w' = Z.of_nat (length (sdata (f w')))
      /\ offsetOfNewPage w' mod 16 = 0).
  { intros H P iimm -> HP. unfold bindF.
    rewrite <- (assoc_L (++) H P).
    erewrite (skipIFDs_one_page e _ k H P cb (concat table) end_ aux n);
      [|done|done|done|done|done].
    match goal with |- context [liftF goToEnd ?s] =>
      destruct (goToEnd_spec s)
        as (pad & w' & Hgo & Hpad & Hsd & Hpage & _ & Hmod & _ & Hwh & Hii
            & Hbg & Hfi & Hen)
    end.
    exists pad, w'. unfold liftF. rewrite Hgo. split; [done|].
    split; [by rewrite Hfi|]. split; [by rewrite Hen|].
    split; [by rewrite Hbg|]. split; [by rewrite Hii|].
    split.
    { rewrite Hwh. unfold with_slot. cbn. f_equal.
      rewrite !length_app, !Nat2Z.inj_add, Htable.
      rewrite (pack_length _ _ _ _ Hcb). destruct big; simpl; lia. }
    split; [done|]. split; [|done].
    rewrite Hsd. cbn. by rewrite <- !(assoc_L (++)). }
  destruct e, big; vm_compute in Hifh; injection Hifh as <-.
  - destruct (Hstep [x49; x49; x2b; x00; x08; x00; x00; x00]
                [x10; x00; x00; x00; x00; x00; x00; x00]
                [x49; x49; x2b; x00]) as (pad & w' & Hrun & Hrest);
      [reflexivity|reflexivity|].
    exists pad, w'. split; [|exact Hrest]. rewrite <- Hrun. reflexivity.
  - destruct (Hstep [x49; x49; x2a; x00] [x08; x00; x00; x00]
                [x49; x49; x2a; x00]) as (pad & w' & Hrun & Hrest);
      [reflexivity|reflexivity|].
    exists pad, w'. split; [|exact Hrest]. rewrite <- Hrun. reflexivity.
  - destruct (Hstep [x4d; x4d; x00; x2b; x00; x08; x00; x00]
                [x00; x00; x00; x00; x00; x00; x00; x10]
                [x4d; x4d; x00; x2b]) as (pad & w' & Hrun & Hrest);
      [reflexivity|reflexivity|].
    exists pad, w'. split; [|exact Hrest]. rewrite <- Hrun. reflexivity.
  - destruct (Hstep [x4d; x4d; x00; x2a] [x00; x00; x00; x08]
                [x4d; x4d; x00; x2a]) as (pad & w' & Hrun & Hrest);
      [reflexivity|reflexivity|].
    exists pad, w'. split; [|exact Hrest]. rewrite <- Hrun. reflexivity.
Qed.

End setup_after_save.

End appending.

Lemma setup_finds_slot_of_saved_page_witness :
  exists (pad : nat) (w' : AppendingTiffWriter.t),
    AppendingTiffWriter.setup 2
      (sample_writer false (saved_header ++ saved_directory) 0 0)
    = Some (Ok tt, w')
    /\ AppendingTiffWriter.isFirst w' = false
    /\ AppendingTiffWriter.endian w'
       = Some (ImageFileDirectory_v2._endian short_strip_directory)
    /\ AppendingTiffWriter._bigtiff w'
       = ImageFileDirectory_v2._bigtiff short_strip_directory
    /\ AppendingTiffWriter.IIMM w' = take 4 saved_header
    /\ AppendingTiffWriter.whereToWriteNewIFDOffset w'
       = Some (Z.of_nat (length saved_header)
               + (if ImageFileDirectory_v2._bigtiff short_strip_directory
                  then 8 else 2)
               + Z.of_nat (length (ImageFileDirectory_v2._tags_v2
                                     short_strip_directory))
                 * ImageFileDirectory_v2.entry_size short_strip_directory)
    /\ (pad < 16)%nat
    /\ sdata (AppendingTiffWriter.f w')
       = saved_header ++ saved_directory ++ replicate pad x00
    /\ AppendingTiffWriter.offsetOfNewPage w'
       = Z.of_nat (length (sdata (AppendingTiffWriter.f w')))
    /\ AppendingTiffWriter.offsetOfNewPage w' mod 16 = 0.
Proof.
  apply (setup_finds_slot_of_saved_page
           ImageFileDirectory_v2.integer_write_dispatch
           ImageFileDirectory_v2.integer_load_dispatch
           ImageFileDirectory_v2.integer_add ImageFileDirectory_v2.no_sub_ifd
           short_strip_directory
           (sample_writer false (saved_header ++ saved_directory) 0 0) 2
           saved_header saved_directory);
    [reflexivity | reflexivity | reflexivity | reflexivity | lia].
Defined.

(** ** What [finalize] leaves alone *)

Lemma stream_write_keeps (bs : list byte) (g : stream) :
  0 <= spos g ->
  (length (sdata g) <= length (sdata (snd (stream_write bs g))))%nat
  /\ forall i : nat,
       Z.of_nat i < spos g \/ spos g + Z.of_nat (length bs) <= Z.of_nat i ->
       (i < length (sdata g))%nat ->
       sdata (snd (stream_write bs g)) !! i = sdata g !! i.
Proof.
  intros Hp. unfold stream_write. cbn [snd sdata].
  set (p := Z.to_nat (spos g)).
  set (padded := sdata g ++ replicate (p - length (sdata g)) x00).
  assert (Hlp : length padded = (length (sdata g) + (p - length (sdata g)))%nat)
    by (unfold padded; by rewrite length_app, length_replicate).
  split.
  - rewrite !length_app, length_take, length_drop. lia.
  - intros i Hi Hlen.
    assert (Hpad : padded !! i = sdata g !! i)
      by (unfold padded; by rewrite lookup_app_l).
    destruct Hi as [Hi|Hi].
    + rewrite lookup_app_l by (rewrite length_take; lia).
      rewrite lookup_take_lt by lia. done.
    + rewrite lookup_app_r by (rewrite length_take; lia).
      rewrite lookup_app_r by (rewrite length_take; lia).
      rewrite length_take, lookup_drop, <- Hpad. f_equal. lia.
Qed.

Section frame.

Import AppendingTiffWriter.

Variable page : Z.
Variable big : bool.
Variable en : option Endian.
Variable slot : option Z.
Variable first : bool.
Variable iimm0 : list byte.
Variable d0 : list byte.
Variable excl : Z -> Prop.
Hypothesis page_nonneg : 0 <= page.

Local Abbreviation kept := (page_kept page big en slot first iimm0 d0 excl).
Local Abbreviation hoare := (page_hoare page big en slot first iimm0 d0 excl).

Lemma hoare_bind {A B} (p : Z) (m : M t A) (k : A -> M t B)
  (Q : A -> Z -> Prop) (Q' : B -> Z -> Prop) :
  hoare p m Q ->
  (forall a p', Q a p' -> hoare p' (k a) Q') ->
  hoare p (bind m k) Q'.
Proof.
  intros Hm Hk w Hw Hp. unfold bind.
  destruct (Hm w Hw Hp) as [Hkept HQ].
  destruct (m w) as [[a|e] w1]; cbn [fst snd] in *.
  - apply (Hk a (spos (f w1))); [by apply HQ|done|done].
  - split; [done|]. intros a [=].
Qed.

Lemma hoare_conseq {A} (p : Z) (m : M t A) (Q Q' : A -> Z -> Prop) :
  hoare p m Q -> (forall a p', Q a p' -> Q' a p') -> hoare p m Q'.
Proof.
  intros Hm HQ w Hw Hp. destruct (Hm w Hw Hp) as [Hkept H].
  split; [done|]. intros a Ha. by apply HQ, H.
Qed.

Lemma hoare_ret {A} (p : Z) (a : A) :
  hoare p (ret a) (fun a' p' => a' = a /\ p' = p).
Proof. intros w Hw Hp. split; [done|]. by intros a' [= <-]. Qed.

Lemma hoare_raise {A} (p : Z) (e : exn) (Q : A -> Z -> Prop) :
  hoare p (raise e) Q.
Proof. intros w Hw Hp. split; [done|]. intros a [=]. Qed.

Lemma hoare_lift {A} (p : Z) (r : result A) :
  hoare p (lift r) (fun a p' => r = Ok a /\ p' = p).
Proof. intros w Hw Hp. unfold lift. cbn. split; [done|]. by intros a Ha. Qed.

Lemma hoare_page (p : Z) :
  hoare p (gets offsetOfNewPage) (fun a p' => a = page /\ p' = p).
Proof.
  intros w Hw Hp. split; [done|]. intros a [= <-]. by destruct Hw as (-> & _).
Qed.

Lemma hoare_bigtiff (p : Z) :
  hoare p (gets _bigtiff) (fun a p' => a = big /\ p' = p).
Proof.
  intros w Hw Hp. split; [done|]. intros a [= <-]. by destruct Hw as (_ & -> & _).
Qed.

Lemma hoare_slot (p : Z) :
  hoare p (gets whereToWriteNewIFDOffset) (fun a p' => a = slot /\ p' = p).
Proof.
  intros w Hw Hp. split; [done|]. intros a [= <-].
  by destruct Hw as (_ & _ & _ & -> & _).
Qed.

Lemma hoare_isFirst (p : Z) :
  hoare p (gets isFirst) (fun a p' => a = first /\ p' = p).
Proof.
  intros w Hw Hp. split; [done|]. intros a [= <-].
  by destruct Hw as (_ & _ & _ & _ & -> & _).
Qed.

Lemma hoare_IIMM (p : Z) :
  hoare p (gets IIMM) (fun a p' => a = iimm0 /\ p' = p).
Proof.
  intros w Hw Hp. split; [done|]. intros a [= <-].
  by destruct Hw as (_ & _ & _ & _ & _ & -> & _).
Qed.

Lemma hoare_tell (p : Z) : hoare p f_tell (fun a p' => a = p /\ p' = p).
Proof. intros w Hw Hp. split; [done|]. by intros a [= <-]. Qed.

Lemma hoare_endian (p : Z) :
  hoare p self_endian (fun e p' => en = Some e /\ p' = p).
Proof.
  intros w Hw Hp. unfold self_endian.
  destruct Hw as (H1 & H2 & H3 & H4). destruct (endian w) as [e|] eqn:He.
  - split; [by rewrite <- He in H3|]. intros a [= <-]. by rewrite <- H3.
  - split; [by rewrite <- He in H3|]. intros a [=].
Qed.

Lemma kept_with_f (w : t) (g : stream) :
  kept w -> sdata g = sdata (f w) -> kept (with_f g w).
Proof.
  intros (H1 & H2 & H3 & H4 & H5 & H6 & H7) Hg. unfold page_kept. cbn.
  rewrite Hg. done.
Qed.

Lemma hoare_seek (p q : Z) :
  hoare p (f_seek q) (fun _ p' => p' = q /\ 0 <= q).
Proof.
  intros w Hw Hp. unfold f_seek, stream_seek.
  destruct (Z.ltb_spec q 0); cbn.
  - split; [done|]. intros a [=].
  - split; [by apply kept_with_f|]. done.
Qed.

Lemma hoare_seek_cur (p delta : Z) :
  hoare p (f_seek_cur delta) (fun _ p' => p' = p + delta).
Proof.
  intros w Hw Hp. unfold f_seek_cur, stream_seek_cur, stream_seek.
  destruct (_ <? 0); cbn.
  - split; [done|]. intros a [=].
  - split; [by apply kept_with_f|]. intros _ _. by rewrite Hp.
Qed.

Lemma hoare_read (p n : Z) :
  hoare p (f_read n) (fun bs p' => p' = p + Z.of_nat (length bs)).
Proof.
  intros w Hw Hp. unfold f_read, stream_read. cbn.
  split; [by apply kept_with_f|]. intros bs [= <-]. by rewrite Hp.
Qed.

Lemma hoare_write (p : Z) (bs : list byte) :
  0 <= p ->
  page <= p \/ (forall z, p <= z < p + Z.of_nat (length bs) -> excl z) ->
  hoare p (f_write bs)
    (fun n p' => n = Z.of_nat (length bs) /\ p' = p + Z.of_nat (length bs)).
Proof.
  intros Hp0 Hpage w Hw Hp. unfold f_write.
  pose proof (stream_write_keeps bs (f w) ltac:(lia)) as [Hlen Hsame].
  destruct (stream_write bs (f w)) as [n g] eqn:Hwr. cbn [fst snd] in *.
  split.
  - destruct Hw as (H1 & H2 & H3 & H4 & H5 & H6 & H7 & H8). unfold page_kept. cbn.
    repeat (split; [done|]). split; [lia|].
    intros i Hi Hex Hd. rewrite <- (H8 i Hi Hex Hd). apply Hsame; [|lia].
    rewrite Hp. destruct Hpage as [Hpage|Hpage]; [lia|].
    destruct (Z.lt_ge_cases (Z.of_nat i) p); [by left|].
    destruct (Z.lt_ge_cases (Z.of_nat i) (p + Z.of_nat (length bs)));
      [|by right].
    exfalso. apply Hex, Hpage. lia.
  - intros a [= <-]. unfold stream_write in Hwr. injection Hwr as <- <-.
    cbn. by rewrite Hp.
Qed.

Lemma hoare_fmt (p fs : Z) :
  hoare p (_fmt fs) (fun c p' => field_fmt fs c /\ p' = p).
Proof.
  unfold _fmt, field_fmt.
  destruct (Z.eqb_spec fs 2) as [->|?];
    [eapply hoare_conseq; [apply hoare_ret|]; intros c p' [-> ->]; tauto|].
  destruct (Z.eqb_spec fs 4) as [->|?];
    [eapply hoare_conseq; [apply hoare_ret|]; intros c p' [-> ->]; tauto|].
  destruct (Z.eqb_spec fs 8) as [->|?];
    [eapply hoare_conseq; [apply hoare_ret|]; intros c p' [-> ->]; tauto|].
  apply hoare_raise.
Qed.

Lemma unpack_unsigned (e : Endian) (c : Fmt) (bs : list byte) (v : Z) :
  is_signed c = false -> unpack e c bs = Ok v ->
  length bs = calcsize c /\ 0 <= v.
Proof.
  unfold unpack. intros ->.
  destruct (Nat.eqb_spec (length bs) (calcsize c)); [|done].
  cbn [andb]. intros [= <-]. split; [done|]. apply le_value_range.
Qed.

Lemma hoare__read (p fs : Z) :
  hoare p (_read fs)
    (fun v p' => p' = p + fs /\ 0 <= v /\ exists c, field_fmt fs c).
Proof.
  unfold _read.
  eapply hoare_bind; [apply hoare_endian|]. intros e p1 [He ->].
  eapply hoare_bind; [apply hoare_fmt|]. intros c p1 [Hc ->].
  eapply hoare_bind; [apply hoare_read|]. intros bs p1 ->.
  eapply hoare_conseq; [apply hoare_lift|]. intros v p1 [Hv ->].
  destruct (field_fmt_spec _ _ Hc) as (_ & Hfs & Hsig).
  destruct (unpack_unsigned _ _ _ _ Hsig Hv) as [Hlen Hpos].
  split; [lia|]. split; [done|]. by exists c.
Qed.

Lemma hoare_verify (p a b : Z) :
  hoare p (_verify_bytes_written a b) (fun _ p' => p' = p).
Proof.
  unfold _verify_bytes_written. destruct (negb _).
  - apply hoare_raise.
  - eapply hoare_conseq; [apply hoare_ret|]. by intros ? ? [_ ->].
Qed.

Lemma hoare__write (p v fs : Z) :
  0 <= p ->
  page <= p \/ (forall z, p <= z < p + fs -> excl z) ->
  hoare p (_write v fs) (fun _ p' => p' = p + fs).
Proof.
  intros Hp0 Hp. unfold _write.
  eapply hoare_bind; [apply hoare_endian|]. intros e p1 [He ->].
  eapply hoare_bind; [apply hoare_fmt|]. intros c p1 [Hc ->].
  eapply hoare_bind; [apply hoare_lift|]. intros bs p1 [Hbs ->].
  destruct (field_fmt_spec _ _ Hc) as (_ & Hfs & _).
  pose proof (pack_length _ _ _ _ Hbs) as Hlen.
  eapply hoare_bind.
  { apply hoare_write; [done|]. destruct Hp as [Hp|Hp]; [by left|right].
    intros z Hz. apply Hp. lia. }
  intros n p1 [-> ->].
  eapply hoare_conseq; [apply hoare_verify|]. intros _ p1 ->. lia.
Qed.

Lemma hoare__rewriteLast (p v fs nfs : Z) :
  page <= p - fs ->
  hoare p (_rewriteLast v fs nfs)
    (fun _ p' => p' = p - fs + (if nfs =? 0 then fs else nfs)).
Proof.
  intros Hp. unfold _rewriteLast.
  eapply hoare_bind; [apply hoare_seek_cur|]. intros _ p1 ->.
  eapply hoare_bind; [apply hoare_endian|]. intros e p1 [He ->].
  eapply hoare_bind; [apply hoare_fmt|]. intros c p1 [Hc ->].
  eapply hoare_bind; [apply hoare_lift|]. intros bs p1 [Hbs ->].
  eapply hoare_bind; [apply hoare_write; [lia|left; lia]|]. intros n p1 [-> ->].
  eapply hoare_conseq; [apply hoare_verify|]. intros _ p1 ->.
  destruct (field_fmt_spec _ _ Hc) as (_ & Hfs & _).
  rewrite (pack_length _ _ _ _ Hbs). lia.
Qed.

Lemma hoare_for_range (I : Z -> Prop) (body : M t unit) (n : nat) :
  (forall p, I p -> hoare p body (fun _ p' => I p')) ->
  forall p, I p -> hoare p (for_range n body) (fun _ p' => I p').
Proof.
  intros Hbody. induction n as [|n IH]; intros p Hp; cbn [for_range].
  - eapply hoare_conseq; [apply hoare_ret|]. by intros ? ? [_ ->].
  - eapply hoare_bind; [by apply Hbody|]. intros ? p1 Hp1. by apply IH.
Qed.

Lemma hoare_fixOffsets_body (p count fs : Z) :
  page <= p ->
  (count = 1 -> fs = 2 \/ fs = 4 -> page + 6 <= p) ->
  hoare p (_fixOffsets_body count fs) (fun _ p' => page <= p').
Proof.
  intros Hp Hsafe. unfold _fixOffsets_body.
  eapply hoare_bind; [apply hoare__read|]. intros v p1 (-> & Hv & c & Hc).
  eapply hoare_bind; [apply hoare_page|]. intros pg p1 [-> ->].
  eapply hoare_bind; [apply hoare_bigtiff|]. intros b p1 [-> ->].
  assert (Hfs : fs = 2 \/ fs = 4 \/ fs = 8)
    by (destruct Hc as [[-> _] | [[-> _] | [-> _]]]; tauto).
  set (nfs := if big && ((fs =? 2) || (fs =? 4)) && (2 ^ 32 <=? v + page) then 8
              else if (fs =? 2) && (2 ^ 16 <=? v + page) then 4 else 0).
  assert (Hnfs : nfs = 0 \/ ((nfs = 8 \/ nfs = 4) /\ (fs = 2 \/ fs = 4))).
  { unfold nfs.
    destruct big, (2 ^ 32 <=? v + page), (2 ^ 16 <=? v + page);
      destruct Hfs as [-> | [-> | ->]]; cbn; lia. }
  destruct (Z.eqb_spec nfs 0) as [Hz|Hnz]; cbn [negb].
  - eapply hoare_conseq; [apply hoare__rewriteLast; lia|].
    intros _ p1 ->. cbn [Z.eqb]. lia.
  - destruct Hnfs as [?|[Hn8 Hf24]]; [done|].
    destruct (Z.eqb_spec count 1) as [->|?]; cbn [negb]; [|apply hoare_raise].
    specialize (Hsafe eq_refl Hf24).
    eapply hoare_bind; [apply hoare__rewriteLast; lia|]. intros _ p1 ->.
    eapply hoare_bind; [apply hoare_seek_cur|]. intros _ p1 ->.
    eapply hoare_bind.
    { apply hoare__write; [|left]; destruct (Z.eqb_spec nfs 0); lia. }
    intros _ p1 ->.
    eapply hoare_conseq; [apply hoare_seek_cur|]. intros _ p1 ->.
    destruct (Z.eqb_spec nfs 0); lia.
Qed.

Lemma hoare_fixOffsets (p count fs : Z) :
  page <= p ->
  (count = 1 -> fs = 2 \/ fs = 4 -> page + 6 <= p) ->
  hoare p (_fixOffsets count fs) (fun _ _ => True).
Proof.
  intros Hp Hsafe. unfold _fixOffsets.
  destruct (Z.eqb_spec count 1) as [->|Hc].
  - change (Z.to_nat 1) with 1%nat. cbn [for_range].
    eapply hoare_bind; [by apply hoare_fixOffsets_body|]. intros ? p1 ?.
    eapply hoare_conseq; [apply hoare_ret|]. done.
  - eapply hoare_conseq.
    + apply (hoare_for_range (fun p => page <= p)); [|done].
      intros p1 Hp1. apply hoare_fixOffsets_body; [done|]. by intros ->.
    + done.
Qed.

Lemma unpack_tagFormat_length (e : Endian) (b : bool) (bs : list byte)
  (hdr : Z * Z * Z) :
  unpack_tagFormat e b bs = Ok hdr ->
  Z.of_nat (length bs) = if b then 12 else 8.
Proof.
  unfold unpack_tagFormat.
  destruct (Nat.eqb_spec (length bs) (4 + calcsize (if b then fmt_Q else fmt_L)))
    as [Hl|]; [|done].
  intros _. rewrite Hl. by destruct b.
Qed.

Lemma hoare_fixIFD_body (p : Z) :
  page <= p -> hoare p fixIFD_body (fun _ p' => page <= p').
Proof.
  intros Hp. unfold fixIFD_body.
  eapply hoare_bind; [apply hoare_bigtiff|]. intros b p1 [-> ->].
  eapply hoare_bind; [apply hoare_endian|]. intros e p1 [He ->].
  eapply hoare_bind; [apply hoare_read|]. intros bs p1 ->.
  eapply hoare_bind; [apply hoare_lift|]. intros [[tag ft] count] p1 [Hhdr ->].
  pose proof (unpack_tagFormat_length _ _ _ _ Hhdr) as Hlen.
  eapply hoare_bind; [apply hoare_lift|]. intros fs p1 [Hfs ->].
  eapply hoare_bind; [apply hoare_page|]. intros pg p1 [-> ->].
  set (fmt_size := if big then 8 else 4).
  set (hdr := Z.of_nat (length bs)) in *.
  assert (Hhdr8 : 8 <= hdr) by (destruct big; lia).
  assert (Hfmt : 4 <= fmt_size) by (unfold fmt_size; destruct big; lia).
  eapply (hoare_bind _ _ _
            (fun off p' =>
               ((fs * count <=? fmt_size) = true /\ p' = p + hdr)
               \/ ((fs * count <=? fmt_size) = false /\ p' = p + hdr + fmt_size
                   /\ page <= off))).
  { destruct (fs * count <=? fmt_size); cbn [negb].
    - eapply hoare_conseq; [apply hoare_ret|]. intros ? ? [_ ->]. by left.
    - eapply hoare_bind; [apply hoare__read|]. intros v p1 (-> & Hv & _).
      eapply hoare_bind; [apply hoare__rewriteLast; lia|]. intros ? p1 ->.
      eapply hoare_conseq; [apply hoare_ret|]. intros ? ? [-> ->].
      right. cbn [Z.eqb]. split; [done|]. split; lia. }
  intros off p1 Hoff.
  destruct (bool_decide (tag ∈ Tags)).
  - eapply hoare_bind; [apply hoare_tell|]. intros cur p2 [-> ->].
    destruct Hoff as [[-> ->]|(Hnl & -> & Hoffp)].
    + eapply hoare_bind; [apply hoare_fixOffsets; lia|]. intros ? p2 ?.
      eapply hoare_conseq; [apply hoare_seek|]. intros ? p3 [-> _]. lia.
    + rewrite Hnl.
      eapply hoare_bind; [apply hoare_seek|]. intros ? p2 [-> _].
      eapply hoare_bind.
      { apply hoare_fixOffsets; [done|]. intros -> Hfs24.
        apply Z.leb_gt in Hnl. lia. }
      intros ? p2 ?.
      eapply hoare_conseq; [apply hoare_seek|]. intros ? p3 [-> _]. lia.
  - destruct Hoff as [[-> ->]|(-> & -> & Hoffp)].
    + eapply hoare_conseq; [apply hoare_seek_cur|]. intros ? p2 ->. lia.
    + eapply hoare_conseq; [apply hoare_ret|]. intros ? p2 [_ ->]. lia.
Qed.

Lemma hoare_fixIFD (p : Z) :
  page <= p -> hoare p fixIFD (fun _ _ => True).
Proof.
  intros Hp. unfold fixIFD.
  eapply hoare_bind; [apply hoare_bigtiff|]. intros b p1 [-> ->].
  eapply hoare_bind; [apply hoare__read|]. intros n p1 (-> & _ & c & Hc).
  eapply hoare_conseq.
  - apply (hoare_for_range (fun p => page <= p)).
    + intros p1 Hp1. by apply hoare_fixIFD_body.
    + destruct Hc as [[Hc _]|[[Hc _]|[Hc _]]]; lia.
  - done.
Qed.

Lemma hoare_finalize (p : Z) :
  (forall s z, slot = Some s -> s <= z < s + (if big then 8 else 4) -> excl z) ->
  hoare p finalize (fun _ _ => True).
Proof.
  intros Hexcl. unfold finalize.
  eapply hoare_bind; [apply hoare_isFirst|]. intros fi p1 [_ ->].
  destruct fi; [eapply hoare_conseq; [apply hoare_ret|]; done|].
  eapply hoare_bind; [apply hoare_page|]. intros pg p1 [-> ->].
  eapply hoare_bind; [apply hoare_seek|]. intros ? p1 [-> _].
  eapply hoare_bind; [apply hoare_read|]. intros iimm p1 ->.
  destruct (Nat.eqb (length iimm) 0);
    [eapply hoare_conseq; [apply hoare_ret|]; done|].
  eapply hoare_bind; [apply hoare_IIMM|]. intros ii p1 [-> ->].
  destruct (negb _); [apply hoare_raise|].
  eapply hoare_bind; [apply hoare_bigtiff|]. intros b p1 [Hb ->].
  eapply (hoare_bind _ _ _ (fun _ _ => True)).
  { destruct b; eapply hoare_conseq;
      [apply hoare_seek_cur|done|apply hoare_ret|done]. }
  subst b. intros ? p1 _.
  eapply hoare_bind; [apply hoare__read|]. intros v p2 (-> & Hv & _).
  eapply hoare_bind; [apply hoare_slot|]. intros sl p2 [Hsl ->].
  destruct sl as [s|]; [|apply hoare_raise].
  eapply hoare_bind; [apply hoare_seek|]. intros ? p2 [-> Hs].
  eapply hoare_bind.
  { apply hoare__write; [done|]. right. intros z Hz. by apply (Hexcl s). }
  intros ? p2 ->.
  eapply hoare_bind; [apply hoare_seek|]. intros ? p2 [-> _].
  apply hoare_fixIFD. lia.
Qed.

End frame.

Section finalize_frame.

Import AppendingTiffWriter.

(** X24.  Whatever [finalize] does and however it ends, it leaves every
    byte of the earlier pages as it was, the slot for the offset of the next
    directory apart: the directory of the new page and the data it points
    to lie at or behind [offsetOfNewPage], and nothing is written before
    it. *)
Theorem finalize_keeps_earlier_pages (w w' : t) (r : result unit) (i : nat) :
  finalize w = (r, w') ->
  Z.of_nat i < offsetOfNewPage w ->
  match whereToWriteNewIFDOffset w with
  | Some s => ~ (s <= Z.of_nat i < s + (if _bigtiff w then 8 else 4))
  | None => True
  end ->
  sdata (f w') !! i = sdata (f w) !! i.
Proof.
  intros Hrun Hi Hslot.
  destruct (Nat.lt_ge_cases i (length (sdata (f w)))) as [Hlen|Hlen].
  - pose proof (hoare_finalize (offsetOfNewPage w) (_bigtiff w) (endian w)
                  (whereToWriteNewIFDOffset w) (isFirst w) (IIMM w)
                  (sdata (f w))
                  (fun z => match whereToWriteNewIFDOffset w with
                            | Some s =>
                                s <= z < s + (if _bigtiff w then 8 else 4)
                            | None => False
                            end)
                  ltac:(lia) (spos (f w))) as Hh.
    destruct (Hh ltac:(by intros s z ->) w) as [Hk _].
    { unfold page_kept. repeat (split; [done|]). done. }
    { done. }
    rewrite Hrun in Hk. cbn [snd] in Hk.
    destruct Hk as (_ & _ & _ & _ & _ & _ & _ & Hsame).
    apply Hsame; [done| |done].
    destruct (whereToWriteNewIFDOffset w); [done|tauto].
  - (* the file ends before the new page: nothing is read *)
    revert Hrun. unfold finalize, gets, bind at 1.
    destruct (isFirst w); [by intros [= _ <-]|].
    unfold bind at 1, bind at 1, f_seek, stream_seek.
    destruct (Z.ltb_spec (offsetOfNewPage w) 0); [lia|].
    unfold bind at 1, f_read, stream_read. cbn [with_f f sdata spos].
    rewrite drop_ge by lia. rewrite take_nil. cbn [length Nat.eqb].
    by intros [= _ <-].
Qed.

End finalize_frame.

Lemma finalize_keeps_earlier_pages_witness :
  exists r w',
    AppendingTiffWriter.finalize
      (with_slot 10 (sample_writer false two_page_file 0 16)) = (r, w')
    /\ sdata (AppendingTiffWriter.f w') !! 4%nat
       = sdata (AppendingTiffWriter.f
                  (with_slot 10 (sample_writer false two_page_file 0 16)))
           !! 4%nat.
Proof.
  eexists _, _. split; [vm_compute; reflexivity|].
  eapply (finalize_keeps_earlier_pages
            (with_slot 10 (sample_writer false two_page_file 0 16)) _ _ 4).
  - vm_compute. reflexivity.
  - vm_compute. reflexivity.
  - vm_compute. intros [H _]. by apply H.
Defined.
